(** * DevDonalds cookbook backend: a shallow embedding of [devdonalds.py]

    The development follows the source file top to bottom:
    - Python strings and the character data [parse_handwriting] relies on;
    - [parse_handwriting], the first part of the source;
    - JSON request values, exceptions, the entry validators and
      [create_entry], its second part;
    - [summary] and the explicit-stack traversal of
      [calculate_recipe_summary], its third part;
    - the properties of each part.

    Python integers are unbounded and are modelled by [Z].  A Python [str] is
    a sequence of Unicode code points and is modelled by [list N].  The module
    level dictionary [recipe_store] is threaded explicitly through the
    functions that read or write it. *)

From stdpp Require Import gmap list strings relations.
From Stdlib Require Import ZArith Lia Ascii.

#[local] Set Warnings "-register-all".
Local Open Scope Z_scope.

(** ** Python strings *)

(** One Unicode code point. *)
Abbreviation char := N.

(** A Python [str]. *)
Abbreviation str := (list N).

(** Reading an ASCII literal as a [str]: every byte is its own code point. *)
Definition u (s : string) : str :=
  N_of_ascii <$> String.list_ascii_of_string s.
Arguments u : simpl never.

(** The character tables of the interpreter are not part of the repository.
    The string methods used by the source consult them through four
    operations, which the embedding takes as a parameter:
    - [isalpha c] and [isspace c] are [str.isalpha] and [str.isspace] on the
      one-character string [c] ([str.strip] and [str.split] use the same
      whitespace test);
    - [totitle_full c] is the full title-case mapping [str.capitalize]
      applies to the first character;
    - [lower_ucs4 w i c] is the full lower-case mapping [str.capitalize]
      applies to character [c] at index [i] of the word [w] (the word is
      passed because the mapping of capital sigma depends on its
      neighbours). *)
Class UnicodeData := {
  isalpha : char -> bool;
  isspace : char -> bool;
  totitle_full : char -> str;
  lower_ucs4 : str -> nat -> char -> str
}.

(** *** The Basic Latin block, where the tables are fixed *)

Definition ascii_isupper (c : char) : bool := ((65 <=? c) && (c <=? 90))%N.
Definition ascii_islower (c : char) : bool := ((97 <=? c) && (c <=? 122))%N.
Definition ascii_isalpha (c : char) : bool := ascii_isupper c || ascii_islower c.

(** TAB, LF, VT, FF, CR, the four information separators and SPACE. *)
Definition ascii_isspace (c : char) : bool :=
  ((9 <=? c) && (c <=? 13) || (28 <=? c) && (c <=? 32))%N.

Definition ascii_upper (c : char) : char :=
  if ascii_islower c then (c - 32)%N else c.
Definition ascii_lower (c : char) : char :=
  if ascii_isupper c then (c + 32)%N else c.

Definition is_ascii (c : char) : bool := (c <? 128)%N.

(** A table agrees with the interpreter on Basic Latin. *)
Record ascii_compatible (U : UnicodeData) : Prop := {
  compat_isalpha : forall c, is_ascii c = true -> isalpha c = ascii_isalpha c;
  compat_isspace : forall c, is_ascii c = true -> isspace c = ascii_isspace c;
  compat_totitle : forall c, is_ascii c = true -> totitle_full c = [ascii_upper c];
  compat_lower : forall w i c, is_ascii c = true -> lower_ucs4 w i c = [ascii_lower c]
}.

(** The table that knows Basic Latin only: every other code point is neither
    a letter nor whitespace and has no case. *)
Definition basic_latin : UnicodeData := {|
  isalpha c := is_ascii c && ascii_isalpha c;
  isspace c := is_ascii c && ascii_isspace c;
  totitle_full c := [if is_ascii c then ascii_upper c else c];
  lower_ucs4 _ _ c := [if is_ascii c then ascii_lower c else c]
|}.

(** Basic Latin together with the two code points of the dotted capital I:
    U+0130 LATIN CAPITAL LETTER I WITH DOT ABOVE is a letter, is its own
    title case, and lower-cases to the two code points U+0069 U+0307;
    U+0307 COMBINING DOT ABOVE is a mark, not a letter. *)
Definition dotted_I : char := 304%N.
Definition combining_dot_above : char := 775%N.

Definition latin_with_dotted_I : UnicodeData := {|
  isalpha c := (c =? dotted_I)%N || is_ascii c && ascii_isalpha c;
  isspace c := is_ascii c && ascii_isspace c;
  totitle_full c := [if is_ascii c then ascii_upper c else c];
  lower_ucs4 _ _ c :=
    if (c =? dotted_I)%N then [105%N; combining_dot_above]
    else [if is_ascii c then ascii_lower c else c]
|}.

(** What the interpreter's tables say about the dotted capital I. *)
Record knows_dotted_I (U : UnicodeData) : Prop := {
  dotted_I_isalpha : isalpha dotted_I = true;
  dotted_I_isspace : isspace dotted_I = false;
  dotted_I_lower : forall w i, lower_ucs4 w i dotted_I = [105%N; combining_dot_above];
  combining_dot_not_alpha : isalpha combining_dot_above = false
}.

(** *** The string methods used by the source *)

Section StringMethods.
Context {U : UnicodeData}.

(** [s.replace(old, new)] for one-character [old] and [new]. *)
Definition replace (old new : char) (s : str) : str :=
  (fun c => if (c =? old)%N then new else c) <$> s.

Fixpoint lstrip (s : str) : str :=
  match s with
  | c :: s' => if isspace c then lstrip s' else s
  | [] => []
  end.

(** [s.strip()] *)
Definition strip (s : str) : str := reverse (lstrip (reverse (lstrip s))).

(** [s.split()]: maximal runs of non-whitespace characters.  [cur] holds
    the characters of the current run, last one first. *)
Fixpoint split_from (cur : str) (s : str) : list str :=
  match s with
  | [] => match cur with [] => [] | _ => [reverse cur] end
  | c :: s' =>
      if isspace c then
        match cur with
        | [] => split_from [] s'
        | _ => reverse cur :: split_from [] s'
        end
      else split_from (c :: cur) s'
  end.

Definition split (s : str) : list str := split_from [] s.

(** [word.capitalize()]: the first character in title case, every other
    one in lower case. *)
Definition capitalize (word : str) : str :=
  match word with
  | [] => []
  | c :: rest =>
      totitle_full c ++ mjoin (imap (fun i c' => lower_ucs4 word (S i) c') rest)
  end.

(** [sep.join(words)] *)
Fixpoint join (sep : str) (words : list str) : str :=
  match words with
  | [] => []
  | [w] => w
  | w :: ws => w ++ sep ++ join sep ws
  end.

Definition hyphen : char := 45%N.
Definition underscore : char := 95%N.
Definition space : char := 32%N.

(** ** First part: [parse_handwriting] *)

Definition parse_handwriting (recipeName : str) : option str :=
  if bool_decide (recipeName = []) || bool_decide (strip recipeName = []) then None
  else
    let processed := replace underscore space (replace hyphen space recipeName) in
    let processed := List.filter (fun c => isalpha c || isspace c) processed in
    let words := split (strip processed) in
    match words with
    | [] => None
    | _ => Some (join [space] (capitalize <$> words))
    end.

(** Words made of letters, one space between two of them and none
    elsewhere. *)
Definition letters_and_single_spaces (r : str) : Prop :=
  exists words,
    words <> [] /\
    Forall (fun w => w <> [] /\ Forall (fun c => isalpha c = true) w) words /\
    r = join [space] words.

(** The case mappings of the letter [c] are made of letters. *)
Definition letter_case_closed (c : char) : Prop :=
  isalpha c = true ->
  totitle_full c <> [] /\
  Forall (fun c' => isalpha c' = true) (totitle_full c) /\
  forall w i, Forall (fun c' => isalpha c' = true) (lower_ucs4 w i c).

End StringMethods.

(** *** Vocabulary for names *)

(** A character that ends up in a word: a letter that is neither
    whitespace nor one of the two separators. *)
Definition word_char {U : UnicodeData} (c : char) : bool :=
  isalpha c && negb (isspace c) && negb (c =? hyphen)%N && negb (c =? underscore)%N.

(** A character that [parse_handwriting] reads: a letter, whitespace or one
    of the two separators. *)
Definition legible {U : UnicodeData} (c : char) : bool :=
  isalpha c || isspace c || (c =? hyphen)%N || (c =? underscore)%N.

(** A capital Basic Latin letter followed by small ones. *)
Definition title_case (w : str) : bool :=
  match w with
  | [] => false
  | c :: rest => ascii_isupper c && forallb ascii_islower rest
  end.

(** ** Dynamic values *)

(** What [request.get_json()] hands to the validators.  JSON numbers with a
    fraction or an exponent (Python floats) are not represented.  The fields
    of an object are listed in order, each key once, as in the dictionary the
    parser builds. *)
Inductive json : Type :=
| JNull
| JBool (b : bool)
| JInt (n : Z)
| JStr (s : str)
| JList (elems : list json)
| JObj (fields : list (str * json)).

(** The exceptions the source raises or provokes. *)
Inductive exn : Set := ValueError | TypeError | KeyError | AttributeError.

(** A computation returns a value or raises. *)
Inductive res (A : Type) : Type :=
| Ret (a : A)
| Raise (e : exn).
Arguments Ret {A} a.
Arguments Raise {A} e.

#[global] Instance res_ret : MRet res := fun _ a => Ret a.
#[global] Instance res_bind : MBind res := fun _ _ f m =>
  match m with
  | Ret a => f a
  | Raise e => Raise e
  end.

#[global] Instance exn_eq_dec : EqDecision exn.
Proof. solve_decision. Defined.

(** Reducing a bind whose first computation is known, without unfolding
    the comparisons of strings. *)
Ltac bind_step := cbv beta iota; unfold mbind, res_bind; cbv beta iota.

(** [bool(v)] *)
Definition truthy (v : json) : bool :=
  match v with
  | JNull => false
  | JBool b => b
  | JInt n => negb (n =? 0)
  | JStr s => negb (bool_decide (s = []))
  | JList l => negb (bool_decide (length l = 0%nat))
  | JObj d => negb (bool_decide (length d = 0%nat))
  end.

(** [isinstance(v, int)], with the integer value; [bool] is a subclass of
    [int] in Python, [True] being 1 and [False] being 0. *)
Definition as_int (v : json) : option Z :=
  match v with
  | JInt n => Some n
  | JBool b => Some (if b then 1 else 0)
  | _ => None
  end.

(** Hashable values up to [==]: the keys of a dictionary and the members of
    a set.  [True == 1] and [False == 0], and they hash alike. *)
Inductive pykey : Set :=
| KNone
| KInt (n : Z)
| KStr (s : str).

#[global] Instance pykey_eq_dec : EqDecision pykey.
Proof. solve_decision. Defined.

#[global] Instance pykey_countable : Countable pykey.
Proof.
  refine (inj_countable'
    (fun k => match k with
              | KNone => inl ()
              | KInt n => inr (inl n)
              | KStr s => inr (inr s)
              end)
    (fun x => match x with
              | inl _ => KNone
              | inr (inl n) => KInt n
              | inr (inr s) => KStr s
              end) _).
  intros []; reflexivity.
Defined.

(** [hash(v)], as needed to use [v] as a key: lists and dictionaries are
    unhashable. *)
Definition hash_key (v : json) : res pykey :=
  match v with
  | JNull => Ret KNone
  | JBool b => Ret (KInt (if b then 1 else 0))
  | JInt n => Ret (KInt n)
  | JStr s => Ret (KStr s)
  | JList _ | JObj _ => Raise TypeError
  end.

(** [d.get(key)] on the fields of a dictionary. *)
Fixpoint dict_get (key : str) (d : list (str * json)) : option json :=
  match d with
  | [] => None
  | (k, v) :: d' => if bool_decide (k = key) then Some v else dict_get key d'
  end.

(** [v == s] for a string literal [s]. *)
Definition eq_str (v : json) (s : str) : bool :=
  match v with
  | JStr s' => bool_decide (s' = s)
  | _ => false
  end.

(** [needle in hay] on strings: [needle] occurs as a substring. *)
Fixpoint is_prefix (p s : str) : bool :=
  match p, s with
  | [], _ => true
  | a :: p', b :: s' => (a =? b)%N && is_prefix p' s'
  | _ :: _, [] => false
  end.

Fixpoint is_substring (needle hay : str) : bool :=
  is_prefix needle hay ||
  match hay with
  | [] => false
  | _ :: hay' => is_substring needle hay'
  end.

(** [key in v] for a string literal [key]. *)
Definition py_in (key : str) (v : json) : res bool :=
  match v with
  | JObj d => Ret (bool_decide (is_Some (dict_get key d)))
  | JList l => Ret (existsb (fun x => eq_str x key) l)
  | JStr s => Ret (is_substring key s)
  | JNull | JBool _ | JInt _ => Raise TypeError
  end.

(** [v[key]] for a string literal [key]. *)
Definition py_getitem (v : json) (key : str) : res json :=
  match v with
  | JObj d =>
      match dict_get key d with
      | Some x => Ret x
      | None => Raise KeyError
      end
  | _ => Raise TypeError
  end.

(** [v.get(key)] *)
Definition py_get (v : json) (key : str) : res json :=
  match v with
  | JObj d => Ret (default JNull (dict_get key d))
  | _ => Raise AttributeError
  end.

(** ** Type definitions of the source *)

Record RequiredItem : Type := mkRequiredItem {
  item_name : json;
  quantity : Z
}.

(** [CookbookEntry] with its two subclasses. *)
Inductive CookbookEntry : Type :=
| Ingredient (name : json) (cook_time : Z)
| Recipe (name : json) (required_items : list RequiredItem).

Definition name (e : CookbookEntry) : json :=
  match e with
  | Ingredient n _ => n
  | Recipe n _ => n
  end.

(** The dictionary [recipe_store]. *)
Abbreviation store := (gmap pykey CookbookEntry).

(** ** Second part: creating entries *)

(** The dictionary the two [process_*] functions return. *)
Record entry_data : Type := mkEntryData {
  raw_name : json;
  entry : CookbookEntry
}.

(** The outcome of a request: the two status codes the handlers return, or
    an exception no handler catches. *)
Inductive status : Set :=
| OK_200
| Bad_Request_400
| Uncaught (e : exn).

Section Validators.
Context {U : UnicodeData}.

(** [parse_handwriting(v)] for a value that need not be a [str]: a falsy
    value leaves through the first test, any other value that is not a
    string has no [strip] method. *)
Definition parse_handwriting_any (v : json) : res (option str) :=
  match v with
  | JStr s => Ret (parse_handwriting s)
  | _ => if truthy v then Raise AttributeError else Ret None
  end.

(** [parse_handwriting(v) or v] *)
Definition display_name (v : json) : res json :=
  parsed ← parse_handwriting_any v;
  match parsed with
  | Some s => if truthy (JStr s) then Ret (JStr s) else Ret v
  | None => Ret v
  end.

Definition process_ingredient (data : json) : res (option entry_data) :=
  cookTime ← py_get data (u "cookTime");
  match as_int cookTime with
  | None => Ret None
  | Some cook_time =>
      if cook_time <? 0 then Ret None
      else
        raw ← py_getitem data (u "name");
        n ← display_name raw;
        Ret (Some (mkEntryData raw (Ingredient n cook_time)))
  end.

(** The loop of [process_recipe] over the remaining [items]; [None] is the
    early [return None]. *)
Fixpoint process_required_items (items : list json) (seen_items : gset pykey)
    (required_items : list RequiredItem) : res (option (list RequiredItem)) :=
  match items with
  | [] => Ret (Some required_items)
  | item :: items' =>
      match item with
      | JObj d =>
          match dict_get (u "name") d, dict_get (u "quantity") d with
          | Some n, Some q =>
              match as_int q with
              | None => Ret None
              | Some q =>
                  if q <=? 0 then Ret None
                  else
                    k ← hash_key n;
                    if bool_decide (k ∈ seen_items) then Ret None
                    else process_required_items items' ({[k]} ∪ seen_items)
                           (required_items ++ [mkRequiredItem n q])
              end
          | _, _ => Ret None
          end
      | _ => Ret None
      end
  end.

Definition process_recipe (data : json) : res (option entry_data) :=
  requiredItems ← py_get data (u "requiredItems");
  match requiredItems with
  | JList items =>
      checked ← process_required_items items ∅ [];
      match checked with
      | None => Ret None
      | Some required_items =>
          raw ← py_getitem data (u "name");
          n ← display_name raw;
          Ret (Some (mkEntryData raw (Recipe n required_items)))
      end
  | _ => Ret None
  end.

Definition validate_entry_data (recipe_store : store) (data : json)
    : res (option entry_data) :=
  if negb (truthy data) then Ret None
  else
    has_type ← py_in (u "type") data;
    if negb has_type then Ret None
    else
      has_name ← py_in (u "name") data;
      if negb has_name then Ret None
      else
        raw ← py_getitem data (u "name");
        k ← hash_key raw;
        if bool_decide (is_Some (recipe_store !! k)) then Ret None
        else
          ty ← py_getitem data (u "type");
          if eq_str ty (u "ingredient") then process_ingredient data
          else if eq_str ty (u "recipe") then process_recipe data
          else Ret None.

(** [except (ValueError, TypeError, KeyError)] *)
Definition caught_by_create_entry (e : exn) : bool :=
  match e with
  | ValueError | TypeError | KeyError => true
  | AttributeError => false
  end.

Definition create_entry (recipe_store : store) (body : json) : store * status :=
  let attempt :=
    validated ← validate_entry_data recipe_store body;
    match validated with
    | None => Ret (recipe_store, Bad_Request_400)
    | Some entry_data =>
        k ← hash_key (raw_name entry_data);
        Ret (<[k := entry entry_data]> recipe_store, OK_200)
    end in
  match attempt with
  | Ret r => r
  | Raise e =>
      if caught_by_create_entry e then (recipe_store, Bad_Request_400)
      else (recipe_store, Uncaught e)
  end.

End Validators.

(** ** The [/parse] route *)

(** [v.get(key, dflt)] *)
Definition py_get_default (v : json) (key : str) (dflt : json) : res json :=
  match v with
  | JObj d => Ret (default dflt (dict_get key d))
  | _ => Raise AttributeError
  end.

(** What the [/parse] route answers: 200 with the formatted name, 400, or an
    exception the route does not catch. *)
Inductive parse_response : Type :=
| Parse_200 (msg : str)
| Parse_400
| Parse_uncaught (e : exn).

(** [data] is [request.get_json()]; a value of [input] that is not a
    string goes to [parse_handwriting] as it is. *)
Definition parse {U : UnicodeData} (data : json) : parse_response :=
  let attempt :=
    recipe_name ← py_get_default data (u "input") (JStr []);
    parse_handwriting_any recipe_name in
  match attempt with
  | Ret None => Parse_400
  | Ret (Some parsed_name) => Parse_200 parsed_name
  | Raise e => Parse_uncaught e
  end.

(** *** Vocabulary for the validators *)

(** The loop over the required items ends without a list. *)
Definition items_rejected (r : res (option (list RequiredItem))) : Prop :=
  r = Ret None \/ r = Raise TypeError.

(** An item the loop cannot get past: its name is unhashable or has been
    seen. *)
Definition blocked (seen_items : gset pykey) (item : json) : Prop :=
  exists d n, item = JObj d /\ dict_get (u "name") d = Some n /\
    match hash_key n with
    | Ret k => k ∈ seen_items
    | Raise _ => True
    end.

(** The store after the requests [bodies], one after the other. *)
Definition after_requests {U : UnicodeData} (recipe_store : store)
    (bodies : list json) : store :=
  foldl (fun recipe_store body => (create_entry recipe_store body).1)
    recipe_store bodies.

(** The two tests [process_ingredient] starts with. *)
Definition invalid_cook_time (d : list (str * json)) : bool :=
  match dict_get (u "cookTime") d with
  | Some c =>
      match as_int c with
      | Some cook_time => cook_time <? 0
      | None => true
      end
  | None => true
  end.

(** The first two tests of the loop of [process_recipe]. *)
Definition malformed_item (item : json) : bool :=
  match item with
  | JObj d =>
      match dict_get (u "name") d, dict_get (u "quantity") d with
      | Some _, Some q =>
          match as_int q with
          | Some q => q <=? 0
          | None => true
          end
      | _, _ => true
      end
  | _ => true
  end.

(** The required item [req_item] is what the request item [item] says. *)
Definition item_of (item : json) (req_item : RequiredItem) : Prop :=
  exists d q,
    item = JObj d /\
    dict_get (u "name") d = Some (item_name req_item) /\
    dict_get (u "quantity") d = Some q /\
    as_int q = Some (quantity req_item).

(** The entry [e] is what the request [d] with the raw name [raw]
    describes. *)
Definition entry_of {U : UnicodeData} (d : list (str * json)) (raw : json)
    (e : CookbookEntry) : Prop :=
  display_name raw = Ret (name e) /\
  match e with
  | Ingredient _ cook_time =>
      dict_get (u "type") d = Some (JStr (u "ingredient")) /\
      (exists c, dict_get (u "cookTime") d = Some c /\ as_int c = Some cook_time)
  | Recipe _ required_items =>
      dict_get (u "type") d = Some (JStr (u "recipe")) /\
      exists items,
        dict_get (u "requiredItems") d = Some (JList items) /\
        Forall2 item_of items required_items
  end.

(** ** Third part: summaries *)

(** [a < b] on strings: lexicographic on code points. *)
Fixpoint str_lt (a b : str) : bool :=
  match a, b with
  | [], [] => false
  | [], _ :: _ => true
  | _ :: _, [] => false
  | x :: a', y :: b' => (x <? y)%N || (x =? y)%N && str_lt a' b'
  end.

(** [a < b] on keys: integers with integers, strings with strings; every
    other pairing is unorderable. *)
Definition key_lt (a b : pykey) : res bool :=
  match a, b with
  | KInt x, KInt y => Ret (x <? y)
  | KStr s, KStr t => Ret (str_lt s t)
  | _, _ => Raise TypeError
  end.

(** [a < b] on the pairs of [Counter.items()]: decided by the first
    components unless they are equal. *)
Definition item_lt (a b : pykey * Z) : res bool :=
  if bool_decide (a.1 = b.1) then Ret (a.2 <? b.2) else key_lt a.1 b.1.

(** [sorted(l)].  The keys of the items are pairwise different, so the
    result does not depend on the order of [l] or on the sorting algorithm;
    every comparison sort of two or more items compares each of them with
    another one, and so raises as soon as two keys are unorderable. *)
Fixpoint insert_sorted (x : pykey * Z) (l : list (pykey * Z))
    : res (list (pykey * Z)) :=
  match l with
  | [] => Ret [x]
  | y :: l' =>
      lt ← item_lt x y;
      if (lt : bool) then Ret (x :: y :: l')
      else l'' ← insert_sorted x l'; Ret (y :: l'')
  end.

Fixpoint sorted (l : list (pykey * Z)) : res (list (pykey * Z)) :=
  match l with
  | [] => Ret []
  | x :: l' => s ← sorted l'; insert_sorted x s
  end.

(** Keys that [<] can order among themselves: at most one key, integers
    only, or strings only. *)
Definition int_key (k : pykey) : Prop := exists z, k = KInt z.
Definition str_key (k : pykey) : Prop := exists s, k = KStr s.
Definition orderable (ks : list pykey) : Prop :=
  (length ks <= 1)%nat \/ Forall int_key ks \/ Forall str_key ks.

(** A [Counter]: absent keys count zero. *)
Definition counter_get (c : gmap pykey Z) (k : pykey) : Z := default 0 (c !! k).

(** [c[k] += m] *)
Definition counter_add (c : gmap pykey Z) (k : pykey) (m : Z) : gmap pykey Z :=
  <[k := counter_get c k + m]> c.

(** The dictionary [calculate_recipe_summary] returns. *)
Record summary_data : Type := mkSummary {
  summary_name : json;
  cookTime : Z;
  ingredients : list (pykey * Z)
}.

(** The local variables of [calculate_recipe_summary] that the loop
    updates.  The top of the stack is the head of the list.  (The source
    also creates a set [processed], which it never reads or writes.) *)
Record state : Type := mkState {
  stack : list (CookbookEntry * Z);
  ingredient_counts : gmap pykey Z;
  total_cooking_time : Z
}.

(** What the [/summary] route answers. *)
Inductive summary_response : Type :=
| Summary_200 (data : summary_data)
| Summary_400.

(** [hash(n)] does not raise. *)
Definition hashable (n : json) : Prop := exists k, hash_key n = Ret k.

(** The invariants of the data model: names are hashable, cook times are
    not negative, quantities are positive and no name is required twice
    by one recipe. *)
Definition valid_item (req_item : RequiredItem) : Prop :=
  hashable (item_name req_item) /\ 0 < quantity req_item.

Definition valid_entry (e : CookbookEntry) : Prop :=
  hashable (name e) /\
  match e with
  | Ingredient _ cook_time => 0 <= cook_time
  | Recipe _ required_items =>
      Forall valid_item required_items /\
      NoDup ((fun req_item => hash_key (item_name req_item)) <$> required_items)
  end.

Definition valid_store (recipe_store : store) : Prop :=
  forall k e, recipe_store !! k = Some e -> valid_entry e.

Section Summary.
Variable recipe_store : store.

(** The [for] loop over the reversed required items; [items] is the part
    of [reversed(required_items)] still to visit. *)
Fixpoint push_required (multiplier : Z) (items : list RequiredItem)
    (stk : list (CookbookEntry * Z)) : res (list (CookbookEntry * Z)) :=
  match items with
  | [] => Ret stk
  | req_item :: items' =>
      k ← hash_key (item_name req_item);
      match recipe_store !! k with
      | None => Raise ValueError
      | Some required_entry =>
          let new_multiplier := multiplier * quantity req_item in
          push_required multiplier items' ((required_entry, new_multiplier) :: stk)
      end
  end.

(** One iteration of the [while] loop, after [stack.pop()] returned
    [(current_entry, multiplier)] and left [rest]. *)
Definition iteration (current_entry : CookbookEntry) (multiplier : Z)
    (rest : list (CookbookEntry * Z)) (st : state) : res state :=
  match current_entry with
  | Ingredient n cook_time =>
      k ← hash_key n;
      Ret (mkState rest
             (counter_add (ingredient_counts st) k multiplier)
             (total_cooking_time st + cook_time * multiplier))
  | Recipe _ required_items =>
      stk ← push_required multiplier (reverse required_items) rest;
      Ret (mkState stk (ingredient_counts st) (total_cooking_time st))
  end.

(** The [while stack:] loop, run for at most [fuel] tests of its
    condition.  [None]: the loop is still running after that many. *)
Fixpoint while_stack (fuel : nat) (st : state) : option (res state) :=
  match fuel with
  | O => None
  | S fuel' =>
      match stack st with
      | [] => Some (Ret st)
      | (current_entry, multiplier) :: rest =>
          match iteration current_entry multiplier rest st with
          | Raise e => Some (Raise e)
          | Ret st' => while_stack fuel' st'
          end
      end
  end.

Definition initial_state (recipe : CookbookEntry) : state :=
  mkState [(recipe, 1)] ∅ 0.

(** The response once the loop has ended in [st]. *)
Definition format_response (recipe : CookbookEntry) (st : state) : res summary_data :=
  items ← sorted (map_to_list (ingredient_counts st));
  Ret (mkSummary (name recipe) (total_cooking_time st) items).

Definition calculate_recipe_summary (fuel : nat) (recipe : CookbookEntry)
    : option (res summary_data) :=
  match while_stack fuel (initial_state recipe) with
  | None => None
  | Some (Raise e) => Some (Raise e)
  | Some (Ret st) => Some (format_response recipe st)
  end.

(** [recipe_name] is [request.args.get('name')]: a string, or [None] when
    the parameter is absent.  [except Exception] catches every exception
    of the model. *)
Definition summary (fuel : nat) (recipe_name : option str) : option summary_response :=
  match recipe_name with
  | None => Some Summary_400
  | Some recipe_name =>
      if negb (truthy (JStr recipe_name)) then Some Summary_400
      else
        match recipe_store !! KStr recipe_name with
        | None => Some Summary_400
        | Some (Ingredient _ _) => Some Summary_400
        | Some (Recipe n items as entry) =>
            match calculate_recipe_summary fuel entry with
            | None => None
            | Some (Ret summary_data) => Some (Summary_200 summary_data)
            | Some (Raise _) => Some Summary_400
            end
        end
  end.

(** *** Vocabulary for the traversal *)

(** The state after [n] iterations of the loop, when the loop runs that
    long without raising. *)
Fixpoint after (n : nat) (st : state) : option state :=
  match n with
  | O => Some st
  | S n' =>
      match stack st with
      | [] => None
      | (current_entry, multiplier) :: rest =>
          match iteration current_entry multiplier rest st with
          | Raise _ => None
          | Ret st' => after n' st'
          end
      end
  end.

(** The entry a required item refers to, if its name is a key of the
    store. *)
Definition resolve (req_item : RequiredItem) : option CookbookEntry :=
  match hash_key (item_name req_item) with
  | Ret k => recipe_store !! k
  | Raise _ => None
  end.

(** One edge of the composition graph: [e] is a recipe and [e'] is the
    entry one of its required items refers to. *)
Definition requires (e e' : CookbookEntry) : Prop :=
  exists n items req_item,
    e = Recipe n items /\ req_item ∈ items /\ resolve req_item = Some e'.

(** Every name required by a recipe reachable from [root] is a key of the
    store. *)
Definition resolvable (root : CookbookEntry) : Prop :=
  forall n items req_item,
    rtc requires root (Recipe n items) -> req_item ∈ items ->
    is_Some (resolve req_item).

(** No entry reachable from [root] requires itself, directly or through
    other recipes. *)
Definition acyclic (root : CookbookEntry) : Prop :=
  forall e, rtc requires root e -> ~ tc requires e e.

(** The display names of the ingredients reachable from [root] are
    hashable, as every name [create_entry] stores is. *)
Definition hashable_names (root : CookbookEntry) : Prop :=
  forall n t, rtc requires root (Ingredient n t) -> hashable n.

(** Nesting depth at most [d]: an ingredient (whose name is [ok]), or a
    recipe whose required items all resolve to entries of smaller depth. *)
Fixpoint depth_at_most (ok : json -> Prop) (d : nat) (e : CookbookEntry) : Prop :=
  match e with
  | Ingredient n _ => ok n
  | Recipe _ items =>
      match d with
      | O => False
      | S d' =>
          Forall (fun req_item =>
                    exists e', resolve req_item = Some e' /\ depth_at_most ok d' e') items
      end
  end.

(** With [(e, m)] on top, [n] iterations either uncover what lay below or
    meet an exception. *)
Definition halts_by (e : CookbookEntry) (n : nat) : Prop :=
  forall m rest c t,
    (exists c' t', after n (mkState ((e, m) :: rest) c t) = Some (mkState rest c' t')) \/
    (exists x, while_stack n (mkState ((e, m) :: rest) c t) = Some (Raise x)).

(** [p] is what the [for] loop pushes for [req_item] under [multiplier]. *)
Definition pushed (multiplier : Z) (req_item : RequiredItem)
    (p : CookbookEntry * Z) : Prop :=
  resolve req_item = Some p.1 /\ p.2 = multiplier * quantity req_item.

(** The loop has ended, without raising, after exactly [n] iterations. *)
Definition finishes (n : nat) (st : state) : Prop :=
  exists st', after n st = Some st' /\ stack st' = [].

(** Whatever the multiplier [m] and whatever lies below on the stack, [n]
    iterations after [(e, m)] is on top the stack is what lay below, the
    counter has gained the keys [keys], every count [k] has grown by
    [m * cnt k] and the total time by [m * time]. *)
Definition expands_to (e : CookbookEntry) (n : nat) (keys : gset pykey)
    (cnt : pykey -> Z) (time : Z) : Prop :=
  forall m rest c t,
    exists c',
      after n (mkState ((e, m) :: rest) c t) = Some (mkState rest c' (t + m * time)) /\
      dom c' = keys ∪ dom c /\
      forall k, counter_get c' k = counter_get c k + m * cnt k.

End Summary.

(** The quantity listed for [k] in the [ingredients] of a summary; zero when
    [k] is not listed. *)
Fixpoint quantity_in (l : list (pykey * Z)) (k : pykey) : Z :=
  match l with
  | [] => 0
  | (k', q) :: l' => if bool_decide (k' = k) then q else quantity_in l' k
  end.

(** *** Vocabulary for the summaries *)

(** The names in a list of [ingredients] go up strictly from each item to
    the next. *)
Fixpoint ascending (l : list (pykey * Z)) : Prop :=
  match l with
  | [] => True
  | a :: l' =>
      match l' with
      | [] => True
      | b :: _ => key_lt a.1 b.1 = Ret true
      end /\ ascending l'
  end.


(** The cooking time of an entry by recursion on the composition, down to
    depth [d]: the cooking time of an ingredient; for a recipe the sum,
    over its required items, of the quantity times the cooking time of the
    entry the item refers to. *)
Fixpoint expanded_time (recipe_store : store) (d : nat) (e : CookbookEntry) : Z :=
  match e with
  | Ingredient _ cook_time => cook_time
  | Recipe _ required_items =>
      match d with
      | O => 0
      | S d' =>
          foldr (fun req_item acc =>
                   quantity req_item *
                   match resolve recipe_store req_item with
                   | Some e' => expanded_time recipe_store d' e'
                   | None => 0
                   end + acc) 0 required_items
      end
  end.

(** In the same way, how often the expansion of an entry counts the
    ingredient name [k]. *)
Fixpoint expanded_count (recipe_store : store) (d : nat) (e : CookbookEntry)
    (k : pykey) : Z :=
  match e with
  | Ingredient n _ =>
      match hash_key n with
      | Ret k' => if decide (k = k') then 1 else 0
      | Raise _ => 0
      end
  | Recipe _ required_items =>
      match d with
      | O => 0
      | S d' =>
          foldr (fun req_item acc =>
                   quantity req_item *
                   match resolve recipe_store req_item with
                   | Some e' => expanded_count recipe_store d' e' k
                   | None => 0
                   end + acc) 0 required_items
      end
  end.

(** Entries on the work list are valid and their multipliers positive;
    the counts are positive and the time is not negative. *)
Definition positive_state (st : state) : Prop :=
  Forall (fun p => valid_entry p.1 /\ 0 < p.2) (stack st) /\
  (forall k q, ingredient_counts st !! k = Some q -> 0 < q) /\
  0 <= total_cooking_time st.

(** ** Requests and stores used in the examples *)

Definition ingredient_request (n : str) (t : Z) : json :=
  JObj [(u "type", JStr (u "ingredient")); (u "name", JStr n); (u "cookTime", JInt t)].

Definition required (n : str) (q : Z) : json :=
  JObj [(u "name", JStr n); (u "quantity", JInt q)].

Definition recipe_request (n : str) (items : list json) : json :=
  JObj [(u "type", JStr (u "recipe")); (u "name", JStr n);
        (u "requiredItems", JList items)].

Definition Egg : CookbookEntry := Ingredient (JStr (u "Egg")) 5.
Definition Flour : CookbookEntry := Ingredient (JStr (u "Flour")) 2.
Definition Batter : CookbookEntry :=
  Recipe (JStr (u "Batter"))
    [mkRequiredItem (JStr (u "Egg")) 2; mkRequiredItem (JStr (u "Flour")) 1].
Definition Pancake : CookbookEntry :=
  Recipe (JStr (u "Pancake")) [mkRequiredItem (JStr (u "Batter")) 3].

Definition pancake_store : store :=
  <[KStr (u "Pancake") := Pancake]>
    (<[KStr (u "Batter") := Batter]>
       (<[KStr (u "Flour") := Flour]> (<[KStr (u "Egg") := Egg]> ∅))).

Definition Soup : CookbookEntry :=
  Recipe (JStr (u "Soup")) [mkRequiredItem (JStr (u "Stock")) 1].

Definition soup_store : store := <[KStr (u "Soup") := Soup]> ∅.

(** Soup one level down. *)
Definition Stew : CookbookEntry :=
  Recipe (JStr (u "Stew")) [mkRequiredItem (JStr (u "Soup")) 2].

Definition stew_store : store := <[KStr (u "Stew") := Stew]> soup_store.

(** A recipe whose only required item is itself. *)
Definition Sourdough : CookbookEntry :=
  Recipe (JStr (u "Sourdough")) [mkRequiredItem (JStr (u "Sourdough")) 1].

Definition sourdough_store : store := <[KStr (u "Sourdough") := Sourdough]> ∅.

(** A rank that decreases along the edges of [pancake_store]: Pancake has
    one required item, Batter two, ingredients none. *)
Definition pancake_rank (e : CookbookEntry) : nat :=
  match e with
  | Ingredient _ _ => 0
  | Recipe _ items => 3 - length items
  end.

(** * Properties *)

(** ** [parse_handwriting] *)

Section TablesAgree.
Context (U1 U2 : UnicodeData).
Hypothesis compat1 : ascii_compatible U1.
Hypothesis compat2 : ascii_compatible U2.

Lemma isspace_agree c : is_ascii c = true -> @isspace U1 c = @isspace U2 c.
Proof. intros Hc. by rewrite !compat_isspace. Qed.

Lemma isalpha_agree c : is_ascii c = true -> @isalpha U1 c = @isalpha U2 c.
Proof. intros Hc. by rewrite !compat_isalpha. Qed.

Lemma lstrip_agree s :
  Forall (fun c => is_ascii c = true) s -> @lstrip U1 s = @lstrip U2 s.
Proof.
  induction 1 as [|c s Hc _ IH]; simpl; [done|].
  rewrite (isspace_agree c Hc), IH. done.
Qed.

Lemma Forall_lstrip {U : UnicodeData} (P : char -> Prop) s :
  Forall P s -> Forall P (lstrip s).
Proof.
  induction 1 as [|c s Hc Hs IH]; simpl; [done|].
  destruct (isspace c); [done | by constructor].
Qed.

Lemma Forall_strip {U : UnicodeData} (P : char -> Prop) s :
  Forall P s -> Forall P (strip s).
Proof.
  intros Hs. unfold strip.
  by apply Forall_reverse, Forall_lstrip, Forall_reverse, Forall_lstrip.
Qed.

Lemma strip_agree s :
  Forall (fun c => is_ascii c = true) s -> @strip U1 s = @strip U2 s.
Proof.
  intros Hs. unfold strip. rewrite (lstrip_agree s Hs).
  rewrite lstrip_agree; [done|]. by apply Forall_reverse, Forall_lstrip.
Qed.

Lemma split_from_agree cur s :
  Forall (fun c => is_ascii c = true) s ->
  @split_from U1 cur s = @split_from U2 cur s.
Proof.
  intros Hs. revert cur. induction Hs as [|c s Hc _ IH]; intros cur; simpl; [done|].
  rewrite (isspace_agree c Hc). destruct (isspace c); [|done].
  destruct cur; by rewrite IH.
Qed.

Lemma split_from_ascii {U : UnicodeData} cur s :
  Forall (fun c => is_ascii c = true) cur ->
  Forall (fun c => is_ascii c = true) s ->
  Forall (Forall (fun c => is_ascii c = true)) (split_from cur s).
Proof.
  intros Hcur Hs. revert cur Hcur.
  induction Hs as [|c s Hc _ IH]; intros cur Hcur; simpl.
  - destruct cur; [done|]. constructor; [|done]. by apply Forall_reverse.
  - destruct (isspace c).
    + destruct cur; [by apply IH|].
      constructor; [by apply Forall_reverse | by apply IH].
    + apply IH. by constructor.
Qed.

Lemma capitalize_agree w :
  Forall (fun c => is_ascii c = true) w -> @capitalize U1 w = @capitalize U2 w.
Proof.
  intros Hw. destruct Hw as [|c rest Hc Hrest]; simpl; [done|].
  rewrite !compat_totitle by done. do 2 f_equal.
  apply imap_ext. intros i x Hx.
  pose proof (Forall_lookup_1 _ _ _ _ Hrest Hx) as Hx'. simpl in Hx'.
  by rewrite !compat_lower.
Qed.

Lemma replace_ascii old new s :
  is_ascii new = true ->
  Forall (fun c => is_ascii c = true) s ->
  Forall (fun c => is_ascii c = true) (replace old new s).
Proof.
  intros Hnew Hs. unfold replace. apply Forall_fmap.
  eapply Forall_impl; [exact Hs|]. intros c Hc. simpl. by destruct (_ =? _)%N.
Qed.

Lemma filter_agree (f g : char -> bool) (P : char -> Prop) s :
  (forall c, P c -> f c = g c) -> Forall P s -> List.filter f s = List.filter g s.
Proof.
  intros Hfg. induction 1 as [|c s Hc _ IH]; simpl; [done|].
  by rewrite (Hfg c Hc), IH.
Qed.

Lemma Forall_filter_bool (f : char -> bool) (P : char -> Prop) s :
  Forall P s -> Forall P (List.filter f s).
Proof.
  induction 1 as [|c s Hc _ IH]; simpl; [done|].
  destruct (f c); [by constructor | done].
Qed.

(** On Basic Latin input the result does not depend on what the tables
    say elsewhere. *)
Lemma parse_handwriting_agree s :
  Forall (fun c => is_ascii c = true) s ->
  @parse_handwriting U1 s = @parse_handwriting U2 s.
Proof.
  intros Hs. unfold parse_handwriting.
  rewrite (strip_agree s Hs).
  destruct (_ || _); [done|].
  set (replaced := replace underscore space (replace hyphen space s)).
  assert (Forall (fun c => is_ascii c = true) replaced) as Hrep
    by (apply replace_ascii; [done|]; by apply replace_ascii).
  rewrite (filter_agree (fun c => @isalpha U1 c || @isspace U1 c)
             (fun c => @isalpha U2 c || @isspace U2 c) _ replaced
             (fun c Hc => f_equal2 orb (isalpha_agree c Hc) (isspace_agree c Hc)) Hrep).
  set (filtered := List.filter (fun c => @isalpha U2 c || @isspace U2 c) replaced).
  assert (Forall (fun c => is_ascii c = true) filtered) as Hfil
    by (by apply Forall_filter_bool).
  rewrite (strip_agree filtered Hfil).
  unfold split. rewrite split_from_agree by (by apply Forall_strip).
  assert (Forall (Forall (fun c => is_ascii c = true))
            (@split_from U2 [] (@strip U2 filtered))) as Hwords
    by (apply split_from_ascii; [done | by apply Forall_strip]).
  destruct (@split_from U2 [] (@strip U2 filtered)) as [|w ws] eqn:Hsplit; [done|].
  do 2 f_equal. apply Forall_fmap_ext_1.
  eapply Forall_impl; [exact Hwords|]. apply capitalize_agree.
Qed.

End TablesAgree.

Lemma basic_latin_compatible : ascii_compatible basic_latin.
Proof. split; simpl; intros; by rewrite ?H. Qed.

Lemma latin_with_dotted_I_compatible : ascii_compatible latin_with_dotted_I.
Proof.
  assert (forall c, is_ascii c = true -> (c =? dotted_I)%N = false) as Hne.
  { intros c Hc%N.ltb_lt. apply N.eqb_neq. unfold dotted_I. lia. }
  split; simpl; intros; rewrite ?Hne by done; by rewrite ?H.
Qed.

Lemma Forall_is_ascii s :
  forallb is_ascii s = true -> Forall (fun c => is_ascii c = true) s.
Proof.
  induction s as [|c s IH]; simpl; [done|].
  intros [Hc Hs]%andb_true_iff. constructor; auto.
Qed.

(** The examples given for the function, under every table that agrees with
    the interpreter on Basic Latin. *)
Lemma parse_handwriting_examples (U : UnicodeData) :
  ascii_compatible U ->
  parse_handwriting (u "mayonnaise") = Some (u "Mayonnaise") /\
  parse_handwriting (u "butter_-_-_knife") = Some (u "Butter Knife") /\
  parse_handwriting (u "    ") = None /\
  parse_handwriting (u "4-Step Recipe") = Some (u "Step Recipe").
Proof.
  intros HU.
  repeat split;
    (rewrite (parse_handwriting_agree U basic_latin HU basic_latin_compatible)
       by (by apply Forall_is_ascii));
    reflexivity.
Qed.

Section WellFormed.
Context {U : UnicodeData}.

Lemma reverse_not_nil (w : str) : w <> [] -> reverse w <> [].
Proof.
  intros Hw Hr. apply Hw. rewrite <- (reverse_involutive w), Hr. done.
Qed.

Lemma join_not_nil sep (w : str) ws : w <> [] -> join sep (w :: ws) <> [].
Proof.
  intros Hw. destruct ws; simpl; [done|].
  intros [? _]%app_eq_nil. done.
Qed.

(** [split] returns non-empty words without whitespace, made of
    characters of the string. *)
Lemma split_from_words (P : char -> Prop) cur s :
  Forall (fun c => P c /\ isspace c = false) cur ->
  Forall P s ->
  Forall (fun w => w <> [] /\ Forall (fun c => P c /\ isspace c = false) w)
    (split_from cur s).
Proof.
  intros Hcur Hs. revert cur Hcur.
  induction Hs as [|c s Hc _ IH]; intros cur Hcur; simpl.
  - destruct cur as [|c0 cur]; [done|]. constructor; [|done]. split.
    + by apply reverse_not_nil.
    + by apply Forall_reverse.
  - destruct (isspace c) eqn:Hsp.
    + destruct cur as [|c0 cur]; [by apply IH|].
      constructor; [|by apply IH]. split.
      * by apply reverse_not_nil.
      * by apply Forall_reverse.
    + apply IH. by constructor.
Qed.

Lemma capitalize_letters w :
  w <> [] ->
  Forall (fun c => isalpha c = true /\ letter_case_closed c) w ->
  capitalize w <> [] /\ Forall (fun c => isalpha c = true) (capitalize w).
Proof.
  intros Hne Hw. destruct Hw as [|c rest [Hc Hclosed] Hrest]; [done|].
  destruct (Hclosed Hc) as (Htitle & Htitle_letters & _). simpl. split.
  - intros [? _]%app_eq_nil. done.
  - apply Forall_app. split; [done|].
    apply Forall_join, Forall_forall. intros l (i & y & -> & Hy)%elem_of_lookup_imap.
    destruct (Forall_lookup_1 _ _ _ _ Hrest Hy) as [Hyalpha Hyclosed].
    by apply Hyclosed.
Qed.

(** What [parse_handwriting] guarantees: whenever title case and lower
    case turn the letters of the input into letters, an accepted input
    yields a non-empty string of letter-only words with one space between
    any two of them. *)
Lemma parse_handwriting_shape s r :
  isalpha space = false ->
  Forall letter_case_closed s ->
  parse_handwriting s = Some r ->
  r <> [] /\ letters_and_single_spaces r.
Proof.
  intros Hspace Hclosed. unfold parse_handwriting.
  destruct (_ || _); [done|]. cbv zeta.
  set (replaced := replace underscore space (replace hyphen space s)).
  set (filtered := List.filter (fun c => isalpha c || isspace c) replaced).
  assert (Forall (fun c => isalpha c = true -> letter_case_closed c) replaced) as Hrep.
  { unfold replaced, replace. rewrite <- list_fmap_compose. apply Forall_fmap.
    eapply Forall_impl; [exact Hclosed|]. intros c Hc. simpl.
    destruct (c =? hyphen)%N; simpl.
    - intros Ha Ha'. change (32%N) with space in Ha'. congruence.
    - destruct (c =? underscore)%N; [|done].
      intros Ha Ha'. congruence. }
  assert (Forall (fun c => (isalpha c = true -> letter_case_closed c) /\
                           isalpha c || isspace c = true) filtered) as Hfil.
  { unfold filtered. clear -Hrep. induction Hrep as [|c l Hc _ IH]; simpl; [done|].
    destruct (isalpha c || isspace c) eqn:Hkeep; [by constructor | done]. }
  pose proof (split_from_words _ [] (strip filtered) (Forall_nil_2 _)
                (Forall_strip _ _ Hfil)) as Hwords.
  unfold split. revert Hwords.
  destruct (split_from [] (strip filtered)) as [|w ws]; intros Hwords; [done|].
  intros [= <-].
  assert (Forall (fun w => capitalize w <> [] /\
                           Forall (fun c => isalpha c = true) (capitalize w))
            (w :: ws)) as Hcap.
  { eapply Forall_impl; [exact Hwords|]. intros w' [Hne Hw'].
    apply capitalize_letters; [done|].
    eapply Forall_impl; [exact Hw'|]. intros c [[Hc Hor] Hsp].
    rewrite Hsp, orb_false_r in Hor. auto. }
  split.
  - apply Forall_cons in Hcap as [[Hw _] _].
    exact (join_not_nil [space] (capitalize w) (fmap (M:=list) capitalize ws) Hw).
  - exists (capitalize <$> w :: ws). split; [done|]. split; [|done].
    by apply Forall_fmap.
Qed.

End WellFormed.

(** Basic Latin letters have Basic Latin letters as their case mappings. *)
Lemma ascii_letter_case_closed (U : UnicodeData) c :
  ascii_compatible U -> is_ascii c = true -> letter_case_closed c.
Proof.
  intros HU Hc Halpha. rewrite (compat_isalpha U HU c Hc) in Halpha.
  assert (is_ascii (ascii_upper c) = true /\ ascii_isalpha (ascii_upper c) = true /\
          is_ascii (ascii_lower c) = true /\ ascii_isalpha (ascii_lower c) = true)
    as (Hu1 & Hu2 & Hl1 & Hl2).
  { unfold ascii_isalpha, ascii_upper, ascii_lower, ascii_isupper, ascii_islower,
      is_ascii in *.
    destruct (N.leb_spec 65 c), (N.leb_spec c 90), (N.leb_spec 97 c),
      (N.leb_spec c 122); simpl in *; try done;
      repeat split; try apply N.ltb_lt; try lia;
      apply orb_true_iff; rewrite !andb_true_iff, !N.leb_le; lia. }
  rewrite (compat_totitle U HU c Hc). split; [done|]. split.
  - constructor; [|done]. by rewrite (compat_isalpha U HU _ Hu1).
  - intros w i. rewrite (compat_lower U HU w i c Hc).
    constructor; [|done]. by rewrite (compat_isalpha U HU _ Hl1).
Qed.

(** So the guarantee holds for every accepted Basic Latin input. *)
Lemma parse_handwriting_ascii_shape (U : UnicodeData) s r :
  ascii_compatible U ->
  Forall (fun c => is_ascii c = true) s ->
  parse_handwriting s = Some r ->
  r <> [] /\ letters_and_single_spaces r.
Proof.
  intros HU Hs. apply parse_handwriting_shape.
  { by rewrite (compat_isalpha U HU space eq_refl). }
  eapply Forall_impl; [exact Hs|]. intros c. by apply ascii_letter_case_closed.
Qed.

(** C7 breaks on letters whose lower case is longer than one code point:
    for the input of the two characters U+0061 U+0130 the function returns
    U+0041 U+0069 U+0307, and the combining mark U+0307 is neither a letter
    nor a space. *)
Theorem dotted_I_leaves_a_mark (U : UnicodeData) :
  ascii_compatible U ->
  knows_dotted_I U ->
  parse_handwriting [97%N; dotted_I] = Some [65%N; 105%N; combining_dot_above] /\
  ~ letters_and_single_spaces [65%N; 105%N; combining_dot_above] /\
  ~ Forall (fun c => isalpha c = true \/ c = space) [65%N; 105%N; combining_dot_above].
Proof.
  intros HU HI.
  pose proof (compat_isspace U HU 97%N eq_refl) as Hs97.
  pose proof (compat_isalpha U HU 97%N eq_refl) as Ha97.
  pose proof (compat_totitle U HU 97%N eq_refl) as Ht97.
  change (ascii_isspace 97) with false in Hs97.
  change (ascii_isalpha 97) with true in Ha97.
  change (ascii_upper 97) with 65%N in Ht97.
  destruct HI as [HIa HIs HIl Hmark].
  assert (~ Forall (fun c => isalpha c = true \/ c = space)
              [65%N; 105%N; combining_dot_above]) as Hbad.
  { intros H. apply Forall_cons in H as [_ H]. apply Forall_cons in H as [_ H].
    apply Forall_cons in H as [[H|H] _]; [congruence | discriminate]. }
  split; [|split; [|done]].
  - unfold parse_handwriting, strip, split, replace. simpl.
    rewrite ?Hs97, ?HIs. simpl. rewrite ?Hs97, ?HIs. simpl.
    rewrite ?Ha97, ?HIa, ?Hs97, ?HIs. simpl.
    rewrite ?Hs97, ?HIs. simpl. rewrite ?Hs97, ?HIs. simpl.
    rewrite ?Hs97, ?HIs. simpl.
    rewrite Ht97, HIl. reflexivity.
  - intros (words & _ & Hwords & Hjoin). apply Hbad.
    rewrite Hjoin. clear Hjoin Hbad.
    induction Hwords as [|w ws [_ Hw] _ IH]; [done|].
    assert (Forall (fun c => isalpha c = true \/ c = space) w) as Hw'
      by (eapply Forall_impl; [exact Hw|]; auto).
    destruct ws as [|w' ws]; [done|].
    change (join [space] (w :: w' :: ws)) with (w ++ [space] ++ join [space] (w' :: ws)).
    apply Forall_app. split; [done|]. apply Forall_app. split; [|done].
    constructor; [by right | done].
Qed.

(** ** Creating entries *)

Section CreateEntry.
Context {U : UnicodeData}.

Lemma dict_get_truthy key d v : dict_get key d = Some v -> truthy (JObj d) = true.
Proof. destruct d; [discriminate | reflexivity]. Qed.

(** [create_entry] answers 400 and keeps the store whenever the validator
    returns [None] or raises [TypeError]. *)
Lemma create_entry_none recipe_store body :
  validate_entry_data recipe_store body = Ret None ->
  create_entry recipe_store body = (recipe_store, Bad_Request_400).
Proof. intros H. unfold create_entry. rewrite H. reflexivity. Qed.

Lemma create_entry_type_error recipe_store body :
  validate_entry_data recipe_store body = Raise TypeError ->
  create_entry recipe_store body = (recipe_store, Bad_Request_400).
Proof. intros H. unfold create_entry. rewrite H. reflexivity. Qed.

Lemma eq_str_false v s : v <> JStr s -> eq_str v s = false.
Proof.
  destruct v; simpl; try reflexivity.
  intros Hne. case_bool_decide; [congruence | reflexivity].
Qed.

Lemma eq_str_true s : eq_str (JStr s) s = true.
Proof. simpl. by case_bool_decide. Qed.

Lemma hash_key_raises v e : hash_key v = Raise e -> e = TypeError.
Proof. destruct v; simpl; congruence. Qed.

(** The validator on a dictionary that has both fields and a hashable
    name: the name check, then the dispatch on the type. *)
Lemma validate_entry_data_dict recipe_store d ty raw k :
  dict_get (u "type") d = Some ty ->
  dict_get (u "name") d = Some raw ->
  hash_key raw = Ret k ->
  validate_entry_data recipe_store (JObj d) =
    if bool_decide (is_Some (recipe_store !! k)) then Ret None
    else if eq_str ty (u "ingredient") then process_ingredient (JObj d)
    else if eq_str ty (u "recipe") then process_recipe (JObj d)
    else Ret None.
Proof.
  intros Hty Hname Hk. unfold validate_entry_data.
  rewrite (dict_get_truthy _ _ _ Hty). simpl.
  rewrite Hty, Hname. simpl. rewrite Hk. reflexivity.
Qed.

(** A request whose name is already a key is answered 400. *)
Lemma name_taken_rejected recipe_store d raw k :
  dict_get (u "name") d = Some raw ->
  hash_key raw = Ret k ->
  is_Some (recipe_store !! k) ->
  create_entry recipe_store (JObj d) = (recipe_store, Bad_Request_400).
Proof.
  intros Hname Hk Hin. apply create_entry_none.
  unfold validate_entry_data.
  rewrite (dict_get_truthy _ _ _ Hname). simpl.
  destruct (dict_get (u "type") d); simpl; [|reflexivity].
  rewrite Hname. simpl. rewrite Hk. simpl.
  by rewrite bool_decide_eq_true_2.
Qed.

(** What an accepted request looks like. *)
Lemma process_ingredient_some data ed :
  process_ingredient data = Ret (Some ed) ->
  py_getitem data (u "name") = Ret (raw_name ed).
Proof.
  unfold process_ingredient.
  destruct (py_get data (u "cookTime")) as [c|]; simpl; [|discriminate].
  destruct (as_int c); [|discriminate].
  destruct (_ <? 0); [discriminate|].
  destruct (py_getitem data (u "name")) as [raw|]; simpl; [|discriminate].
  destruct (display_name raw); simpl; [|discriminate].
  intros [= <-]. reflexivity.
Qed.

Lemma process_recipe_some data ed :
  process_recipe data = Ret (Some ed) ->
  py_getitem data (u "name") = Ret (raw_name ed).
Proof.
  unfold process_recipe.
  destruct (py_get data (u "requiredItems")) as [r|]; simpl; [|discriminate].
  destruct r; try discriminate.
  destruct (process_required_items _ _ _) as [[ris|]|]; simpl; try discriminate.
  destruct (py_getitem data (u "name")) as [raw|]; simpl; [|discriminate].
  destruct (display_name raw); simpl; [|discriminate].
  intros [= <-]. reflexivity.
Qed.

Lemma validate_entry_data_some recipe_store data ed :
  validate_entry_data recipe_store data = Ret (Some ed) ->
  py_getitem data (u "name") = Ret (raw_name ed).
Proof.
  unfold validate_entry_data.
  destruct (negb (truthy data)); [discriminate|].
  destruct (py_in (u "type") data) as [[]|]; simpl; try discriminate.
  destruct (py_in (u "name") data) as [[]|]; simpl; try discriminate.
  destruct (py_getitem data (u "name")) as [raw|] eqn:Hraw; simpl; [|discriminate].
  destruct (hash_key raw) as [k|]; simpl; [|discriminate].
  case_bool_decide; [discriminate|].
  destruct (py_getitem data (u "type")) as [ty|]; simpl; [|discriminate].
  destruct (eq_str ty (u "ingredient")).
  { intros Hp. apply process_ingredient_some in Hp. congruence. }
  destruct (eq_str ty (u "recipe")); [|discriminate].
  intros Hp. apply process_recipe_some in Hp. congruence.
Qed.

(** The store changes only with a 200, and then by one insertion under
    the key of the raw name. *)
Lemma create_entry_inv recipe_store body store' st :
  create_entry recipe_store body = (store', st) ->
  (st <> OK_200 /\ store' = recipe_store) \/
  (exists ed k, st = OK_200 /\
     validate_entry_data recipe_store body = Ret (Some ed) /\
     hash_key (raw_name ed) = Ret k /\
     store' = <[k := entry ed]> recipe_store).
Proof.
  unfold create_entry.
  destruct (validate_entry_data recipe_store body) as [[ed|]|e] eqn:Hv; simpl.
  - destruct (hash_key (raw_name ed)) as [k|e] eqn:Hk; simpl.
    + intros [= <- <-]. right. eauto 10.
    + destruct (caught_by_create_entry e); intros [= <- <-]; by left.
  - intros [= <- <-]. by left.
  - destruct (caught_by_create_entry e); intros [= <- <-]; by left.
Qed.

(** C8: once a request has been accepted, every later request with the
    same raw name is answered 400 and leaves the store as it is, whatever
    the types of the two requests. *)
Theorem same_name_twice_rejected recipe_store d1 d2 raw store1 :
  dict_get (u "name") d1 = Some raw ->
  dict_get (u "name") d2 = Some raw ->
  create_entry recipe_store (JObj d1) = (store1, OK_200) ->
  create_entry store1 (JObj d2) = (store1, Bad_Request_400).
Proof.
  intros H1 H2 Hfirst.
  apply create_entry_inv in Hfirst as [[? _]|(ed & k & _ & Hv & Hk & ->)]; [done|].
  apply validate_entry_data_some in Hv. simpl in Hv. rewrite H1 in Hv.
  injection Hv as Hraw. rewrite <- Hraw in Hk.
  apply (name_taken_rejected _ _ raw k); [done | done |].
  rewrite lookup_insert_eq. eauto.
Qed.

(** C10: a request whose [type] is present but is neither ["ingredient"]
    nor ["recipe"] is answered 400 and the store is unchanged. *)
Theorem unknown_type_rejected recipe_store d ty :
  dict_get (u "type") d = Some ty ->
  ty <> JStr (u "ingredient") ->
  ty <> JStr (u "recipe") ->
  create_entry recipe_store (JObj d) = (recipe_store, Bad_Request_400).
Proof.
  intros Hty Hi%eq_str_false Hr%eq_str_false.
  assert (validate_entry_data recipe_store (JObj d) = Ret None
          \/ validate_entry_data recipe_store (JObj d) = Raise TypeError) as [H|H].
  { destruct (dict_get (u "name") d) as [raw|] eqn:Hname.
    - destruct (hash_key raw) as [k|e] eqn:Hk.
      + rewrite (validate_entry_data_dict _ _ _ _ _ Hty Hname Hk), Hi, Hr.
        left. by case_bool_decide.
      + right. unfold validate_entry_data.
        rewrite (dict_get_truthy _ _ _ Hty). simpl.
        rewrite Hty, Hname. simpl. rewrite Hk.
        by rewrite (hash_key_raises _ _ Hk).
    - left. unfold validate_entry_data.
      rewrite (dict_get_truthy _ _ _ Hty). simpl.
      by rewrite Hty, Hname. }
  - by apply create_entry_none.
  - by apply create_entry_type_error.
Qed.

(** *** Required items *)

Lemma blocked_mono seen seen' item :
  seen ⊆ seen' -> blocked seen item -> blocked seen' item.
Proof.
  intros Hsub (d & n & -> & Hn & Hk). exists d, n. repeat split; [done|].
  destruct (hash_key n); [set_solver | done].
Qed.

Lemma process_required_items_blocked items seen acc :
  Exists (blocked seen) items ->
  items_rejected (process_required_items items seen acc).
Proof.
  intros Hex. revert seen acc Hex.
  induction items as [|item items IH]; intros seen acc Hex; [by inversion Hex|].
  simpl. destruct item as [| | | | |d]; try by left.
  destruct (dict_get (u "name") d) as [n|] eqn:Hn; [|by left].
  destruct (dict_get (u "quantity") d) as [q|]; [|by left].
  destruct (as_int q) as [qz|]; [|by left].
  destruct (qz <=? 0); [by left|].
  destruct (hash_key n) as [k|e] eqn:Hk; simpl.
  - case_bool_decide; [by left|].
    apply IH. inversion Hex as [? ? Hb|? ? Hb]; subst.
    + destruct Hb as (d' & n' & [= <-] & Hn' & Hk').
      rewrite Hn in Hn'. injection Hn' as <-. rewrite Hk in Hk'. done.
    + eapply Exists_impl; [exact Hb|]. intros x. apply blocked_mono. set_solver.
  - right. by rewrite (hash_key_raises _ _ Hk).
Qed.

Lemma process_required_items_duplicate items seen acc i j di dj n :
  (i < j)%nat ->
  items !! i = Some (JObj di) -> items !! j = Some (JObj dj) ->
  dict_get (u "name") di = Some n -> dict_get (u "name") dj = Some n ->
  items_rejected (process_required_items items seen acc).
Proof.
  revert seen acc i j.
  induction items as [|item items IH]; intros seen acc i j Hij Hi Hj Hni Hnj;
    [by rewrite lookup_nil in Hi|].
  destruct j as [|j]; [lia|]. simpl in Hj.
  simpl. destruct item as [| | | | |d]; try by left.
  destruct (dict_get (u "name") d) as [n0|] eqn:Hn; [|by left].
  destruct (dict_get (u "quantity") d) as [q|]; [|by left].
  destruct (as_int q) as [qz|]; [|by left].
  destruct (qz <=? 0); [by left|].
  destruct (hash_key n0) as [k|e] eqn:Hk; simpl;
    [|right; by rewrite (hash_key_raises _ _ Hk)].
  case_bool_decide; [by left|].
  destruct i as [|i].
  - simpl in Hi. injection Hi as <-. rewrite Hn in Hni. injection Hni as ->.
    apply process_required_items_blocked.
    apply Exists_exists. exists (JObj dj). split.
    + eapply list_elem_of_lookup_2. exact Hj.
    + exists dj, n. repeat split; [done|]. rewrite Hk. set_solver.
  - simpl in Hi. apply (IH _ _ i j); [lia | done..].
Qed.

(** The validator consults the store only to see whether the name of the
    request is taken. *)
Lemma validate_entry_data_store (store1 store2 : store) d raw k :
  dict_get (u "name") d = Some raw ->
  hash_key raw = Ret k ->
  (is_Some (store1 !! k) <-> is_Some (store2 !! k)) ->
  validate_entry_data store1 (JObj d) = validate_entry_data store2 (JObj d).
Proof.
  intros Hname Hk Hiff. unfold validate_entry_data.
  destruct (negb (truthy (JObj d))); [done|].
  destruct (py_in (u "type") (JObj d)) as [[]|]; simpl; try done.
  rewrite Hname. simpl. rewrite Hk. simpl.
  by rewrite (bool_decide_ext _ _ Hiff).
Qed.

Lemma recipe_is_not_ingredient : eq_str (JStr (u "recipe")) (u "ingredient") = false.
Proof. reflexivity. Qed.

(** C9: a recipe request in which two required items carry the same name
    is answered 400, whatever their quantities and whatever the store
    holds; the store enters the verdict only through the test on the name
    of the request itself. *)
Theorem duplicate_required_item_rejected recipe_store d items i j di dj n :
  dict_get (u "type") d = Some (JStr (u "recipe")) ->
  dict_get (u "requiredItems") d = Some (JList items) ->
  i <> j ->
  items !! i = Some (JObj di) -> items !! j = Some (JObj dj) ->
  dict_get (u "name") di = Some n -> dict_get (u "name") dj = Some n ->
  create_entry recipe_store (JObj d) = (recipe_store, Bad_Request_400) /\
  (forall (store' : store) raw k,
      dict_get (u "name") d = Some raw -> hash_key raw = Ret k ->
      (is_Some (recipe_store !! k) <-> is_Some (store' !! k)) ->
      validate_entry_data recipe_store (JObj d) = validate_entry_data store' (JObj d)).
Proof.
  intros Hty Hreq Hij Hi Hj Hni Hnj. split.
  2:{ intros store' raw k Hraw Hk Hiff.
      by apply (validate_entry_data_store _ _ _ raw k). }
  assert (items_rejected (process_required_items items ∅ [])) as Hrej.
  { destruct (decide (i < j)%nat).
    - by apply (process_required_items_duplicate _ _ _ i j di dj n).
    - apply (process_required_items_duplicate _ _ _ j i dj di n); [lia | done..]. }
  assert (validate_entry_data recipe_store (JObj d) = Ret None
          \/ validate_entry_data recipe_store (JObj d) = Raise TypeError) as [H|H].
  { destruct (dict_get (u "name") d) as [raw|] eqn:Hname.
    - destruct (hash_key raw) as [k|e] eqn:Hk.
      + rewrite (validate_entry_data_dict _ _ _ _ _ Hty Hname Hk).
        case_bool_decide; [by left|].
        rewrite recipe_is_not_ingredient, eq_str_true.
        unfold process_recipe. simpl. rewrite Hreq. simpl.
        destruct Hrej as [-> | ->]; [by left | by right].
      + right. unfold validate_entry_data.
        rewrite (dict_get_truthy _ _ _ Hty). simpl.
        rewrite Hty, Hname. simpl. rewrite Hk.
        by rewrite (hash_key_raises _ _ Hk).
    - left. unfold validate_entry_data.
      rewrite (dict_get_truthy _ _ _ Hty). simpl.
      by rewrite Hty, Hname. }
  - by apply create_entry_none.
  - by apply create_entry_type_error.
Qed.

(** *** Names that do not normalize *)

Lemma display_name_fallback raw :
  parse_handwriting_any raw = Ret None -> display_name raw = Ret raw.
Proof. intros H. unfold display_name. rewrite H. reflexivity. Qed.

(** An empty or whitespace-only string is rejected by [parse_handwriting]
    in its first test. *)
Lemma parse_handwriting_blank s :
  s = [] \/ strip s = [] -> parse_handwriting s = None.
Proof.
  intros H. unfold parse_handwriting.
  destruct H as [-> | ->]; [reflexivity|].
  by rewrite (bool_decide_eq_true_2 ([] = [])), orb_true_r.
Qed.

Lemma create_ingredient_fallback recipe_store d raw k c t :
  dict_get (u "type") d = Some (JStr (u "ingredient")) ->
  dict_get (u "name") d = Some raw ->
  hash_key raw = Ret k ->
  recipe_store !! k = None ->
  dict_get (u "cookTime") d = Some c ->
  as_int c = Some t ->
  0 <= t ->
  parse_handwriting_any raw = Ret None ->
  create_entry recipe_store (JObj d)
    = (<[k := Ingredient raw t]> recipe_store, OK_200).
Proof.
  intros Hty Hname Hk Hfree Hc Ht Hpos Hparse.
  unfold create_entry.
  rewrite (validate_entry_data_dict _ _ _ _ _ Hty Hname Hk).
  rewrite bool_decide_eq_false_2 by (rewrite Hfree; by intros [? ?]).
  rewrite eq_str_true.
  unfold process_ingredient. simpl. rewrite Hc. simpl. rewrite Ht.
  destruct (t <? 0) eqn:Hlt; [lia|].
  rewrite Hname. simpl. rewrite (display_name_fallback _ Hparse). simpl.
  rewrite Hk. reflexivity.
Qed.

Lemma create_recipe_fallback recipe_store d raw k items required_items :
  dict_get (u "type") d = Some (JStr (u "recipe")) ->
  dict_get (u "name") d = Some raw ->
  hash_key raw = Ret k ->
  recipe_store !! k = None ->
  dict_get (u "requiredItems") d = Some (JList items) ->
  process_required_items items ∅ [] = Ret (Some required_items) ->
  parse_handwriting_any raw = Ret None ->
  create_entry recipe_store (JObj d)
    = (<[k := Recipe raw required_items]> recipe_store, OK_200).
Proof.
  intros Hty Hname Hk Hfree Hreq Hitems Hparse.
  unfold create_entry.
  rewrite (validate_entry_data_dict _ _ _ _ _ Hty Hname Hk).
  rewrite bool_decide_eq_false_2 by (rewrite Hfree; by intros [? ?]).
  rewrite recipe_is_not_ingredient, eq_str_true.
  unfold process_recipe. simpl. rewrite Hreq. simpl. rewrite Hitems. simpl.
  rewrite Hname. simpl. rewrite (display_name_fallback _ Hparse). simpl.
  rewrite Hk. reflexivity.
Qed.

(** C4: when [parse_handwriting] rejects the name of a request that is
    valid otherwise (both fields present, name not taken, a non-negative
    integer cook time or a list of required items that validates), the
    entry is created all the same and carries the raw name as its display
    name. *)
Theorem normalization_failure_keeps_raw_name recipe_store d raw k :
  dict_get (u "name") d = Some raw ->
  hash_key raw = Ret k ->
  recipe_store !! k = None ->
  parse_handwriting_any raw = Ret None ->
  (forall c t,
      dict_get (u "type") d = Some (JStr (u "ingredient")) ->
      dict_get (u "cookTime") d = Some c -> as_int c = Some t -> 0 <= t ->
      create_entry recipe_store (JObj d)
        = (<[k := Ingredient raw t]> recipe_store, OK_200)) /\
  (forall items required_items,
      dict_get (u "type") d = Some (JStr (u "recipe")) ->
      dict_get (u "requiredItems") d = Some (JList items) ->
      process_required_items items ∅ [] = Ret (Some required_items) ->
      create_entry recipe_store (JObj d)
        = (<[k := Recipe raw required_items]> recipe_store, OK_200)).
Proof.
  intros Hname Hk Hfree Hparse. split.
  - intros c t Hty Hc Ht Hpos. by apply (create_ingredient_fallback _ _ _ _ c).
  - intros items ris Hty Hreq Hitems. by apply (create_recipe_fallback _ _ _ _ items).
Qed.

(** C5, as the code has it: a rejected request never changes the store,
    but a name that is empty, whitespace-only or without any word after
    filtering is no ground for rejection.  A request with such a name is
    accepted as soon as its other fields validate, and the entry is stored
    under the raw name. *)
Theorem blank_name_is_accepted recipe_store d s :
  (forall body store' st,
      create_entry recipe_store body = (store', st) ->
      st <> OK_200 -> store' = recipe_store) /\
  (dict_get (u "name") d = Some (JStr s) ->
   s = [] \/ strip s = [] \/ parse_handwriting s = None ->
   recipe_store !! KStr s = None ->
   (forall c t,
       dict_get (u "type") d = Some (JStr (u "ingredient")) ->
       dict_get (u "cookTime") d = Some c -> as_int c = Some t -> 0 <= t ->
       exists store', create_entry recipe_store (JObj d) = (store', OK_200) /\
                      store' !! KStr s = Some (Ingredient (JStr s) t)) /\
   (forall items required_items,
       dict_get (u "type") d = Some (JStr (u "recipe")) ->
       dict_get (u "requiredItems") d = Some (JList items) ->
       process_required_items items ∅ [] = Ret (Some required_items) ->
       exists store', create_entry recipe_store (JObj d) = (store', OK_200) /\
                      store' !! KStr s = Some (Recipe (JStr s) required_items))).
Proof.
  split.
  { intros body store' st Hc Hst.
    apply create_entry_inv in Hc as [[_ ->]|(? & ? & -> & _)]; done. }
  intros Hname Hblank Hfree.
  assert (parse_handwriting_any (JStr s) = Ret None) as Hparse.
  { simpl. f_equal. destruct Hblank as [H|[H|H]]; [| |done];
      apply parse_handwriting_blank; auto. }
  split.
  - intros c t Hty Hc Ht Hpos. eexists. split.
    + by apply (create_ingredient_fallback _ _ (JStr s) (KStr s) c t).
    + apply lookup_insert_eq.
  - intros items ris Hty Hreq Hitems. eexists. split.
    + by apply (create_recipe_fallback _ _ (JStr s) (KStr s) items ris).
    + apply lookup_insert_eq.
Qed.

(** *** The invariants of the data model *)

Lemma display_name_hashable raw n :
  hashable raw -> display_name raw = Ret n -> hashable n.
Proof.
  intros Hraw. unfold display_name.
  destruct (parse_handwriting_any raw) as [[s|]|]; cbn -[truthy]; [| |done].
  - destruct (truthy (JStr s)); intros [= <-]; [by eexists | done].
  - by intros [= <-].
Qed.

Lemma process_required_items_valid items seen acc required_items :
  Forall valid_item acc ->
  NoDup ((fun req_item => hash_key (item_name req_item)) <$> acc) ->
  (forall k, Ret k ∈ (fun req_item => hash_key (item_name req_item)) <$> acc ->
             k ∈ seen) ->
  process_required_items items seen acc = Ret (Some required_items) ->
  Forall valid_item required_items /\
  NoDup ((fun req_item => hash_key (item_name req_item)) <$> required_items).
Proof.
  revert seen acc.
  induction items as [|item items IH]; intros seen acc Hvalid Hnd Hseen; simpl.
  { by intros [= <-]. }
  destruct item as [| | | | |d]; try done.
  destruct (dict_get (u "name") d) as [n|]; [|done].
  destruct (dict_get (u "quantity") d) as [q|]; [|done].
  destruct (as_int q) as [qz|]; [|done].
  destruct (qz <=? 0) eqn:Hq; [done|].
  destruct (hash_key n) as [k|] eqn:Hk; simpl; [|done].
  case_bool_decide as Hfresh; [done|].
  apply IH.
  - apply Forall_app. split; [done|]. constructor; [|done].
    split; simpl; [by exists k | lia].
  - rewrite fmap_app. apply NoDup_app. split; [done|]. split.
    + intros r Hr [->|[]%elem_of_nil]%elem_of_cons. simpl in Hr.
      rewrite Hk in Hr. by apply Hfresh, Hseen.
    + simpl. apply NoDup_singleton.
  - intros k'. rewrite fmap_app, elem_of_app. simpl. rewrite Hk.
    intros [Hin|[[= ->]|[]%elem_of_nil]%elem_of_cons].
    + apply elem_of_union. right. by apply Hseen.
    + apply elem_of_union. left. by apply elem_of_singleton.
Qed.

(** What the validator lets through satisfies the invariants. *)
Lemma validate_entry_data_valid recipe_store data ed :
  validate_entry_data recipe_store data = Ret (Some ed) ->
  valid_entry (entry ed).
Proof.
  unfold validate_entry_data.
  destruct (negb (truthy data)); [done|].
  destruct (py_in (u "type") data) as [[]|]; simpl; try done.
  destruct (py_in (u "name") data) as [[]|]; simpl; try done.
  destruct (py_getitem data (u "name")) as [raw|] eqn:Hraw; simpl; [|done].
  destruct (hash_key raw) as [k|] eqn:Hk; simpl; [|done].
  assert (hashable raw) as Hhash by (by exists k).
  case_bool_decide; [done|].
  destruct (py_getitem data (u "type")) as [ty|]; simpl; [|done].
  destruct (eq_str ty (u "ingredient")).
  { unfold process_ingredient.
    destruct (py_get data (u "cookTime")) as [c|]; simpl; [|done].
    destruct (as_int c) as [t|]; [|done].
    destruct (t <? 0) eqn:Ht; [done|].
    rewrite Hraw. simpl.
    destruct (display_name raw) as [n|] eqn:Hn; simpl; [|done].
    intros [= <-]. simpl. split; [by eapply display_name_hashable | lia]. }
  destruct (eq_str ty (u "recipe")); [|done].
  unfold process_recipe.
  destruct (py_get data (u "requiredItems")) as [r|]; simpl; [|done].
  destruct r as [| | | |items|]; try done.
  destruct (process_required_items items ∅ []) as [[ris|]|] eqn:Hitems; simpl; try done.
  rewrite Hraw. simpl.
  destruct (display_name raw) as [n|] eqn:Hn; simpl; [|done].
  intros [= <-]. simpl. split; [by eapply display_name_hashable|].
  apply (process_required_items_valid items ∅ []); [done | constructor | | done].
  intros k' []%elem_of_nil.
Qed.

(** [create_entry] keeps the invariants of the store. *)
Lemma create_entry_valid recipe_store body store' st :
  valid_store recipe_store ->
  create_entry recipe_store body = (store', st) ->
  valid_store store'.
Proof.
  intros Hvalid [[_ ->]|(ed & k & _ & Hv & _ & ->)]%create_entry_inv; [done|].
  intros k' e. rewrite lookup_insert. case_decide.
  - intros [= <-]. by eapply validate_entry_data_valid.
  - apply Hvalid.
Qed.

End CreateEntry.

(** ** The traversal *)

Section Traversal.
Variable recipe_store : store.

(** More fuel does not change a result. *)
Lemma while_stack_more fuel extra st r :
  while_stack recipe_store fuel st = Some r ->
  while_stack recipe_store (fuel + extra) st = Some r.
Proof.
  revert st. induction fuel as [|fuel IH]; intros st; simpl; [discriminate|].
  destruct (stack st) as [|[e m] rest]; [done|].
  destruct (iteration recipe_store e m rest st); [apply IH | done].
Qed.

Lemma while_stack_le fuel fuel' st r :
  (fuel <= fuel')%nat ->
  while_stack recipe_store fuel st = Some r ->
  while_stack recipe_store fuel' st = Some r.
Proof.
  intros Hle H. replace fuel' with (fuel + (fuel' - fuel))%nat by lia.
  by apply while_stack_more.
Qed.

Lemma while_stack_deterministic fuel fuel' st r r' :
  while_stack recipe_store fuel st = Some r ->
  while_stack recipe_store fuel' st = Some r' ->
  r = r'.
Proof.
  intros H H'. destruct (decide (fuel <= fuel')%nat).
  - apply (while_stack_le _ fuel') in H; [congruence | done].
  - apply (while_stack_le _ fuel) in H'; [congruence | lia].
Qed.

(** The loop picks up where [after] stopped. *)
Lemma while_stack_after n fuel st st' :
  after recipe_store n st = Some st' ->
  while_stack recipe_store (n + fuel) st = while_stack recipe_store fuel st'.
Proof.
  revert st. induction n as [|n IH]; intros st; simpl; [by intros [= ->]|].
  destruct (stack st) as [|[e m] rest]; [done|].
  destruct (iteration recipe_store e m rest st); [apply IH | done].
Qed.

Lemma while_stack_running n fuel st st' :
  after recipe_store n st = Some st' -> (fuel <= n)%nat ->
  while_stack recipe_store fuel st = None.
Proof.
  revert n st. induction fuel as [|fuel IH]; intros n st Hn Hle; [done|].
  destruct n as [|n]; [lia|]. simpl in *.
  destruct (stack st) as [|[e m] rest]; [done|].
  destruct (iteration recipe_store e m rest st); [|done].
  apply (IH n); [done | lia].
Qed.

Lemma after_add n1 n2 st st' :
  after recipe_store n1 st = Some st' ->
  after recipe_store (n1 + n2) st = after recipe_store n2 st'.
Proof.
  revert st. induction n1 as [|n IH]; intros st; simpl; [by intros [= ->]|].
  destruct (stack st) as [|[e m] rest]; [done|].
  destruct (iteration recipe_store e m rest st); [apply IH | done].
Qed.

Lemma while_stack_raise fuel st e m rest x :
  stack st = (e, m) :: rest ->
  iteration recipe_store e m rest st = Raise x ->
  while_stack recipe_store (S fuel) st = Some (Raise x).
Proof. intros Hs Hi. simpl. by rewrite Hs, Hi. Qed.

(** A required item that does not resolve makes the [for] loop raise. *)
Lemma push_required_unresolved m items stk req_item :
  req_item ∈ items -> resolve recipe_store req_item = None ->
  exists e, push_required recipe_store m items stk = Raise e.
Proof.
  intros Hin Hres. revert stk.
  induction items as [|x items IH]; intros stk; [by apply not_elem_of_nil in Hin|].
  simpl. unfold resolve in *.
  destruct (hash_key (item_name x)) as [k|e] eqn:Hk; simpl; [|eauto].
  destruct (recipe_store !! k) as [entry|] eqn:Hl; [|eauto].
  apply elem_of_cons in Hin as [->|Hin].
  - rewrite Hk in Hres. congruence.
  - by apply IH.
Qed.

Lemma iteration_unresolved n items m rest st req_item :
  req_item ∈ items -> resolve recipe_store req_item = None ->
  exists e, iteration recipe_store (Recipe n items) m rest st = Raise e.
Proof.
  intros Hin Hres. simpl.
  destruct (push_required_unresolved m (reverse items) rest req_item) as [e He];
    [by apply elem_of_reverse | done |].
  rewrite He. eauto.
Qed.

End Traversal.

(** ** The [/summary] route *)

Section SummaryRoute.
Variable recipe_store : store.

Lemma summary_more fuel extra recipe_name r :
  summary recipe_store fuel recipe_name = Some r ->
  summary recipe_store (fuel + extra) recipe_name = Some r.
Proof.
  unfold summary. destruct recipe_name as [s|]; [|done].
  destruct (negb _); [done|].
  destruct (recipe_store !! KStr s) as [[|n items]|]; try done.
  unfold calculate_recipe_summary.
  destruct (while_stack recipe_store fuel _) as [r0|] eqn:Hw; [|done].
  by rewrite (while_stack_more _ _ extra _ _ Hw).
Qed.

(** C1: the pancake example.  In every store that holds the four entries
    under their names, the summary of Pancake is ready after five tests
    of the loop condition and reads cook time 36, Egg 6, Flour 3, in that
    order. *)
Theorem pancake_summary extra :
  recipe_store !! KStr (u "Egg") = Some (Ingredient (JStr (u "Egg")) 5) ->
  recipe_store !! KStr (u "Flour") = Some (Ingredient (JStr (u "Flour")) 2) ->
  recipe_store !! KStr (u "Batter") =
    Some (Recipe (JStr (u "Batter"))
            [mkRequiredItem (JStr (u "Egg")) 2; mkRequiredItem (JStr (u "Flour")) 1]) ->
  recipe_store !! KStr (u "Pancake") =
    Some (Recipe (JStr (u "Pancake")) [mkRequiredItem (JStr (u "Batter")) 3]) ->
  summary recipe_store (5 + extra) (Some (u "Pancake")) =
    Some (Summary_200
            (mkSummary (JStr (u "Pancake")) 36
               [(KStr (u "Egg"), 6); (KStr (u "Flour"), 3)])).
Proof.
  intros HEgg HFlour HBatter HPancake.
  apply summary_more.
  unfold summary. change (negb (truthy (JStr (u "Pancake")))) with false.
  cbv iota. rewrite HPancake.
  unfold calculate_recipe_summary, initial_state.
  simpl. rewrite HBatter. simpl. rewrite HFlour. simpl. rewrite HEgg. simpl.
  vm_compute. reflexivity.
Qed.

(** C2: [summary] answers 400 when the name is not a key of the store,
    when the key holds an ingredient, and when the traversal pops a
    recipe one of whose required names is not a key of the store; until
    the loop gets there it is still running, so no summary is returned
    for any amount of fuel.  The Soup example is the case where the
    first recipe popped is the one with the missing name. *)
Theorem summary_rejects recipe_name :
  (recipe_store !! KStr recipe_name = None ->
   forall fuel, summary recipe_store fuel (Some recipe_name) = Some Summary_400) /\
  (forall n t, recipe_store !! KStr recipe_name = Some (Ingredient n t) ->
   forall fuel, summary recipe_store fuel (Some recipe_name) = Some Summary_400) /\
  (forall root steps st n items m rest req_item k,
      recipe_store !! KStr recipe_name = Some root ->
      after recipe_store steps (initial_state root) = Some st ->
      stack st = (Recipe n items, m) :: rest ->
      req_item ∈ items ->
      hash_key (item_name req_item) = Ret k ->
      recipe_store !! k = None ->
      (forall fuel, (steps < fuel)%nat ->
         summary recipe_store fuel (Some recipe_name) = Some Summary_400) /\
      (forall fuel data,
         summary recipe_store fuel (Some recipe_name) <> Some (Summary_200 data))) /\
  (recipe_name = u "Soup" ->
   recipe_store !! KStr (u "Soup") =
     Some (Recipe (JStr (u "Soup")) [mkRequiredItem (JStr (u "Stock")) 1]) ->
   recipe_store !! KStr (u "Stock") = None ->
   forall fuel, summary recipe_store (S fuel) (Some recipe_name) = Some Summary_400).
Proof.
  split; [|split; [|split]].
  - intros Hnone fuel. unfold summary. destruct (negb _); [done|]. by rewrite Hnone.
  - intros n t Hing fuel. unfold summary. destruct (negb _); [done|]. by rewrite Hing.
  - intros root steps st n items m rest req_item k Hroot Hafter Hstack Hin Hk Hnone.
    assert (forall fuel, summary recipe_store fuel (Some recipe_name) =
              if decide (recipe_name <> [] /\ fuel <= steps)%nat
              then None else Some Summary_400) as Hsum.
    { intros fuel. unfold summary.
      destruct (decide (recipe_name = [])) as [->|Hne].
      { change (negb (truthy (JStr []))) with true. cbv iota.
        destruct (decide _) as [[Hc _]|_]; [by destruct Hc | done]. }
      replace (negb (truthy (JStr recipe_name))) with false
        by (simpl; by rewrite bool_decide_eq_false_2).
      rewrite Hroot.
      destruct root as [n0 t0|n0 items0].
      { (* an ingredient on the stack never leaves a recipe there *)
        exfalso. destruct steps as [|steps]; simpl in Hafter.
        - injection Hafter as <-. simpl in Hstack. congruence.
        - destruct (hash_key n0); simpl in Hafter; [|done].
          destruct steps; simpl in Hafter; [|done].
          injection Hafter as <-. simpl in Hstack. congruence. }
      unfold calculate_recipe_summary.
      case_decide as Hfuel.
      + destruct Hfuel as [_ Hfuel].
        by rewrite (while_stack_running _ steps fuel _ _ Hafter Hfuel).
      + assert (steps < fuel)%nat as Hlt
          by (destruct (decide (fuel <= steps)%nat); [by destruct Hfuel | lia]).
        replace fuel with (steps + S (fuel - steps - 1))%nat by lia.
        rewrite (while_stack_after _ _ _ _ _ Hafter).
        destruct (iteration_unresolved recipe_store n items m rest st req_item) as [e He].
        * done.
        * unfold resolve. by rewrite Hk.
        * by rewrite (while_stack_raise _ _ _ _ _ _ _ Hstack He). }
    split.
    + intros fuel Hfuel. rewrite Hsum. case_decide; [lia | done].
    + intros fuel data. rewrite Hsum. by case_decide.
  - intros -> HSoup HStock fuel. unfold summary.
    change (negb (truthy (JStr (u "Soup")))) with false. cbv iota.
    rewrite HSoup. unfold calculate_recipe_summary. simpl. by rewrite HStock.
Qed.

End SummaryRoute.

(** ** Expansion *)

Section Expansion.
Variable recipe_store : store.

Lemma resolve_some req_item e :
  resolve recipe_store req_item = Some e <->
  exists k, hash_key (item_name req_item) = Ret k /\ recipe_store !! k = Some e.
Proof.
  unfold resolve. destruct (hash_key (item_name req_item)) as [k|x].
  - split; [eauto | by intros (? & [= <-] & ?)].
  - split; [done | by intros (? & ? & ?)].
Qed.

(** The [for] loop ends normally exactly when every item resolves, and
    then it has pushed the resolved entries, the last one visited on top. *)
Lemma push_required_ret m items stk stk' :
  push_required recipe_store m items stk = Ret stk' <->
  exists l, Forall2 (pushed recipe_store m) items l /\ stk' = reverse l ++ stk.
Proof.
  revert stk. induction items as [|x items IH]; intros stk; simpl.
  - split.
    + intros [= <-]. exists []. split; [constructor | done].
    + intros (l & Hl & ->). apply Forall2_nil_inv_l in Hl as ->. done.
  - split.
    + destruct (hash_key (item_name x)) as [k|] eqn:Hk; simpl; [|done].
      destruct (recipe_store !! k) as [e|] eqn:He; [|done].
      intros (l & Hl & ->)%IH. exists ((e, m * quantity x) :: l). split.
      * constructor; [|done]. split; [|done].
        apply resolve_some. eauto.
      * by rewrite reverse_cons, <- app_assoc.
    + intros (l & Hl & ->).
      apply Forall2_cons_inv_l in Hl as ([e q] & l' & [Hres Hq] & Hl' & ->).
      simpl in *. apply resolve_some in Hres as (k & -> & He). simpl.
      rewrite He. apply IH. exists l'. split; [done|].
      by rewrite reverse_cons, <- app_assoc, Hq.
Qed.

Lemma push_required_reverse m items stk stk' :
  push_required recipe_store m (reverse items) stk = Ret stk' <->
  exists l, Forall2 (pushed recipe_store m) items l /\ stk' = l ++ stk.
Proof.
  rewrite push_required_ret. split.
  - intros (l & Hl & ->). exists (reverse l). split; [|done].
    apply Forall2_reverse in Hl. by rewrite reverse_involutive in Hl.
  - intros (l & Hl & ->). exists (reverse l). split.
    + by apply Forall2_reverse.
    + by rewrite reverse_involutive.
Qed.

(** One iteration on a recipe. *)
Lemma iteration_recipe n items m rest st l :
  Forall2 (pushed recipe_store m) items l ->
  iteration recipe_store (Recipe n items) m rest st
    = Ret (mkState (l ++ rest) (ingredient_counts st) (total_cooking_time st)).
Proof.
  intros Hl. simpl.
  assert (push_required recipe_store m (reverse items) rest = Ret (l ++ rest)) as ->
    by (apply push_required_reverse; eauto).
  reflexivity.
Qed.

Lemma iteration_recipe_inv n items m rest st st' :
  iteration recipe_store (Recipe n items) m rest st = Ret st' ->
  exists l, Forall2 (pushed recipe_store m) items l /\
    st' = mkState (l ++ rest) (ingredient_counts st) (total_cooking_time st).
Proof.
  simpl.
  destruct (push_required recipe_store m (reverse items) rest) as [stk|] eqn:Hp;
    simpl; [|done].
  apply push_required_reverse in Hp as (l & Hl & ->).
  intros [= <-]. eauto.
Qed.

Lemma pushed_exists m items :
  Forall (fun req_item => is_Some (resolve recipe_store req_item)) items ->
  exists l, Forall2 (pushed recipe_store m) items l.
Proof.
  induction 1 as [|x items [e He] _ [l Hl]]; [by exists []|].
  exists ((e, m * quantity x) :: l). by constructor.
Qed.

Lemma counter_get_add c k m k' :
  counter_get (counter_add c k m) k' =
  counter_get c k' + (if decide (k' = k) then m else 0).
Proof.
  unfold counter_add, counter_get. case_decide as Hk.
  - subst. by rewrite lookup_insert_eq.
  - rewrite lookup_insert_ne by done. lia.
Qed.

(** An ingredient takes one iteration and counts once under its name. *)
Lemma expands_ingredient n cook_time k :
  hash_key n = Ret k ->
  expands_to recipe_store (Ingredient n cook_time) 1 {[k]}
    (fun k' => if decide (k' = k) then 1 else 0) cook_time.
Proof.
  intros Hk m rest c t. exists (counter_add c k m). split; [|split].
  - simpl. rewrite Hk. simpl. by rewrite (Z.mul_comm cook_time m).
  - unfold counter_add. by rewrite dom_insert_L.
  - intros k'. rewrite counter_get_add. case_decide; lia.
Qed.

(** The entries pushed for a list of required items are consumed one after
    the other; their contributions add up, each weighted by the quantity
    of its item. *)
Lemma expands_items items :
  Forall (fun req_item => exists e n keys cnt time,
            resolve recipe_store req_item = Some e /\
            expands_to recipe_store e n keys cnt time) items ->
  exists n keys cnt time, forall m l rest c t,
    Forall2 (pushed recipe_store m) items l ->
    exists c',
      after recipe_store n (mkState (l ++ rest) c t)
        = Some (mkState rest c' (t + m * time)) /\
      dom c' = keys ∪ dom c /\
      forall k, counter_get c' k = counter_get c k + m * cnt k.
Proof.
  induction 1 as [|x items (e & n1 & keys1 & cnt1 & time1 & Hres & Hexp) _
                    (n2 & keys2 & cnt2 & time2 & IH)].
  - exists 0%nat, ∅, (fun _ => 0), 0. intros m l rest c t Hl.
    apply Forall2_nil_inv_l in Hl as ->. exists c. split; [|split].
    + simpl. by rewrite Z.mul_0_r, Z.add_0_r.
    + by rewrite (left_id_L ∅ (∪)).
    + intros k. lia.
  - exists (n1 + n2)%nat, (keys1 ∪ keys2), (fun k => quantity x * cnt1 k + cnt2 k),
      (quantity x * time1 + time2).
    intros m l rest c t Hl.
    apply Forall2_cons_inv_l in Hl as ([e' m'] & l' & [Hres' Hm'] & Hl' & ->).
    simpl in Hres', Hm'. rewrite Hres in Hres'. injection Hres' as <-. subst m'.
    destruct (Hexp (m * quantity x) (l' ++ rest) c t) as (c1 & Hrun1 & Hd1 & Hc1).
    destruct (IH m l' rest c1 (t + m * quantity x * time1) Hl')
      as (c2 & Hrun2 & Hd2 & Hc2).
    exists c2. split; [|split].
    + simpl. rewrite (after_add _ _ _ _ _ Hrun1), Hrun2.
      do 2 f_equal. ring.
    + by rewrite Hd2, Hd1, (assoc_L (∪)), (comm_L (∪) keys2 keys1).
    + intros k. rewrite Hc2, Hc1. ring.
Qed.

(** A recipe takes one iteration to push its items and then what the items
    take. *)
Lemma expands_recipe nm items :
  Forall (fun req_item => exists e n keys cnt time,
            resolve recipe_store req_item = Some e /\
            expands_to recipe_store e n keys cnt time) items ->
  exists n keys cnt time, expands_to recipe_store (Recipe nm items) n keys cnt time.
Proof.
  intros Hitems.
  destruct (expands_items items Hitems) as (n & keys & cnt & time & Hrun).
  exists (S n), keys, cnt, time. intros m rest c t.
  destruct (pushed_exists m items) as [l Hl].
  { eapply Forall_impl; [exact Hitems|]. intros x (e & _ & _ & _ & _ & -> & _). eauto. }
  destruct (Hrun m l rest c t Hl) as (c' & Hafter & Hc').
  exists c'. split; [|done].
  change (after recipe_store (S n) ?st) with
    (match iteration recipe_store (Recipe nm items) m rest
             (mkState ((Recipe nm items, m) :: rest) c t) with
     | Raise _ => None
     | Ret st' => after recipe_store n st'
     end).
  by rewrite (iteration_recipe _ _ _ _ _ _ Hl).
Qed.

(** Entries of bounded depth expand. *)
Lemma depth_expands d e :
  depth_at_most recipe_store hashable d e ->
  exists n keys cnt time, expands_to recipe_store e n keys cnt time.
Proof.
  revert e. induction d as [|d IH]; intros [n ct|nm items] Hd; simpl in Hd.
  - destruct Hd as [k Hk]. eauto 10 using expands_ingredient.
  - done.
  - destruct Hd as [k Hk]. eauto 10 using expands_ingredient.
  - apply expands_recipe. eapply Forall_impl; [exact Hd|].
    intros x (e' & Hres & Hd'). destruct (IH e' Hd') as (n & keys & cnt & time & He).
    eauto 10.
Qed.

(** *** Acyclic stores have bounded depth *)

Lemma requires_resolved nm items req_item e' :
  req_item ∈ items -> resolve recipe_store req_item = Some e' ->
  requires recipe_store (Recipe nm items) e'.
Proof. intros. exists nm, items, req_item. done. Qed.

(** [visited] holds keys of the store whose entries lead to [e]; an
    acyclic traversal cannot come back to any of them, and the store has
    only [n] more keys to offer. *)
Lemma acyclic_depth (ok : json -> Prop) root :
  acyclic recipe_store root ->
  resolvable recipe_store root ->
  (forall n t, rtc (requires recipe_store) root (Ingredient n t) -> ok n) ->
  forall n (visited : gset pykey) e,
    rtc (requires recipe_store) root e ->
    visited ⊆ dom recipe_store ->
    (size (dom recipe_store) <= size visited + n)%nat ->
    (forall k, k ∈ visited ->
       exists ek, recipe_store !! k = Some ek /\ rtc (requires recipe_store) ek e) ->
    depth_at_most recipe_store ok (S n) e.
Proof.
  intros Hacyc Hres Hok.
  assert (forall (visited : gset pykey) e nm items x,
    e = Recipe nm items ->
    rtc (requires recipe_store) root e ->
    visited ⊆ dom recipe_store ->
    (forall k, k ∈ visited ->
       exists ek, recipe_store !! k = Some ek /\ rtc (requires recipe_store) ek e) ->
    x ∈ items ->
    exists e' k', resolve recipe_store x = Some e' /\
      rtc (requires recipe_store) root e' /\
      {[k']} ∪ visited ⊆ dom recipe_store /\
      size ({[k']} ∪ visited) = S (size visited) /\
      (forall k, k ∈ {[k']} ∪ visited ->
         exists ek, recipe_store !! k = Some ek /\ rtc (requires recipe_store) ek e'))
    as Hstep.
  { intros visited e nm items x -> Hreach Hsub Hvis Hx.
    destruct (Hres nm items x Hreach Hx) as [e' He'].
    pose proof (requires_resolved nm items x e' Hx He') as Hedge.
    apply resolve_some in He' as Hk. destruct Hk as (k' & Hk' & Hlook).
    assert (k' ∉ visited) as Hfresh.
    { intros Hin. destruct (Hvis k' Hin) as (ek & Hek & Hback).
      rewrite Hlook in Hek. injection Hek as <-.
      apply (Hacyc _ Hreach). eapply tc_rtc_r; [by apply tc_once | done]. }
    exists e', k'. repeat split.
    - done.
    - by eapply rtc_r.
    - apply union_subseteq. split; [|done].
      apply singleton_subseteq_l, elem_of_dom. eauto.
    - rewrite size_union by set_solver. by rewrite size_singleton.
    - intros k [->%elem_of_singleton|Hin]%elem_of_union.
      + eauto using rtc_refl.
      + destruct (Hvis k Hin) as (ek & Hek & Hback).
        exists ek. split; [done|]. by eapply rtc_r. }
  induction n as [|n IH]; intros visited e Hreach Hsub Hsize Hvis;
    destruct e as [nm ct|nm items]; simpl; eauto.
  - apply Forall_forall. intros x Hx.
    destruct (Hstep visited _ nm items x eq_refl Hreach Hsub Hvis Hx)
      as (e' & k' & _ & _ & Hsub' & Hsize' & _).
    apply subseteq_size in Hsub'. lia.
  - apply Forall_forall. intros x Hx.
    destruct (Hstep visited _ nm items x eq_refl Hreach Hsub Hvis Hx)
      as (e' & k' & He' & Hreach' & Hsub' & Hsize' & Hvis').
    exists e'. split; [done|].
    apply (IH ({[k']} ∪ visited)); [done | done | lia | done].
Qed.

Lemma acyclic_bounded (ok : json -> Prop) root :
  acyclic recipe_store root ->
  resolvable recipe_store root ->
  (forall n t, rtc (requires recipe_store) root (Ingredient n t) -> ok n) ->
  depth_at_most recipe_store ok (S (size (dom recipe_store))) root.
Proof.
  intros Hacyc Hres Hok.
  apply (acyclic_depth ok root Hacyc Hres Hok _ ∅).
  - apply rtc_refl.
  - set_solver.
  - rewrite size_empty. lia.
  - set_solver.
Qed.

(** *** Termination *)

Lemma halts_ingredient n cook_time : halts_by recipe_store (Ingredient n cook_time) 1.
Proof.
  intros m rest c t. simpl.
  destruct (hash_key n) as [k|x]; simpl; [left | right]; eauto.
Qed.

Lemma halts_items items :
  Forall (fun req_item => exists e n,
            resolve recipe_store req_item = Some e /\ halts_by recipe_store e n) items ->
  exists n, forall m l rest c t,
    Forall2 (pushed recipe_store m) items l ->
    (exists c' t',
        after recipe_store n (mkState (l ++ rest) c t) = Some (mkState rest c' t')) \/
    (exists x, while_stack recipe_store n (mkState (l ++ rest) c t) = Some (Raise x)).
Proof.
  induction 1 as [|x items (e & n1 & Hres & Hhalt) _ (n2 & IH)].
  - exists 0%nat. intros m l rest c t Hl.
    apply Forall2_nil_inv_l in Hl as ->. left. by exists c, t.
  - exists (n1 + n2)%nat. intros m l rest c t Hl.
    apply Forall2_cons_inv_l in Hl as ([e' m'] & l' & [Hres' Hm'] & Hl' & ->).
    simpl in Hres'. rewrite Hres in Hres'. injection Hres' as <-.
    destruct (Hhalt m' (l' ++ rest) c t) as [(c1 & t1 & Hrun1)|[x1 Hraise]].
    + destruct (IH m l' rest c1 t1 Hl') as [(c2 & t2 & Hrun2)|[x2 Hraise]].
      * left. exists c2, t2. simpl. by rewrite (after_add _ _ _ _ _ Hrun1).
      * right. exists x2. simpl. by rewrite (while_stack_after _ _ _ _ _ Hrun1).
    + right. exists x1. simpl. by apply while_stack_more.
Qed.

Lemma halts_recipe nm items :
  Forall (fun req_item => exists e n,
            resolve recipe_store req_item = Some e /\ halts_by recipe_store e n) items ->
  exists n, halts_by recipe_store (Recipe nm items) n.
Proof.
  intros Hitems. destruct (halts_items items Hitems) as (n & Hrun).
  exists (S n). intros m rest c t.
  destruct (pushed_exists m items) as [l Hl].
  { eapply Forall_impl; [exact Hitems|]. intros x (e & _ & -> & _). eauto. }
  pose proof (iteration_recipe nm items m rest
                (mkState ((Recipe nm items, m) :: rest) c t) l Hl) as Hit.
  destruct (Hrun m l rest c t Hl) as [(c' & t' & Hafter)|[x Hraise]].
  - left. exists c', t'.
    change (after recipe_store (S n) ?st) with
      (match iteration recipe_store (Recipe nm items) m rest
               (mkState ((Recipe nm items, m) :: rest) c t) with
       | Raise _ => None
       | Ret st' => after recipe_store n st'
       end).
    by rewrite Hit.
  - right. exists x.
    change (while_stack recipe_store (S n) ?st) with
      (match iteration recipe_store (Recipe nm items) m rest
               (mkState ((Recipe nm items, m) :: rest) c t) with
       | Raise e => Some (Raise e)
       | Ret st' => while_stack recipe_store n st'
       end).
    by rewrite Hit.
Qed.

Lemma depth_halts d e :
  depth_at_most recipe_store (fun _ => True) d e ->
  exists n, halts_by recipe_store e n.
Proof.
  revert e. induction d as [|d IH]; intros [n ct|nm items] Hd; simpl in Hd.
  - eauto using halts_ingredient.
  - done.
  - eauto using halts_ingredient.
  - apply halts_recipe. eapply Forall_impl; [exact Hd|].
    intros x (e' & Hres & Hd'). destruct (IH e' Hd') as (n & He). eauto.
Qed.

(** The loop of an acyclic, resolvable traversal ends: normally, or with
    the exception of a name that cannot be hashed. *)
Lemma acyclic_terminates root :
  acyclic recipe_store root ->
  resolvable recipe_store root ->
  exists fuel r, while_stack recipe_store fuel (initial_state root) = Some r.
Proof.
  intros Hacyc Hres.
  destruct (depth_halts _ root (acyclic_bounded (fun _ => True) root Hacyc Hres
                                  (fun _ _ _ => I))) as [n Hn].
  destruct (Hn 1 [] ∅ 0) as [(c' & t' & Hafter)|[x Hraise]].
  - exists (n + 1)%nat, (Ret (mkState [] c' t')).
    by rewrite (while_stack_after _ _ _ _ _ Hafter).
  - eauto.
Qed.

(** When the names of the ingredients are hashable as well, it ends
    normally, with the work list empty. *)
Lemma acyclic_completes root :
  acyclic recipe_store root ->
  resolvable recipe_store root ->
  hashable_names recipe_store root ->
  exists n keys cnt time, expands_to recipe_store root n keys cnt time.
Proof.
  intros Hacyc Hres Hhash.
  by apply (depth_expands _ root (acyclic_bounded hashable root Hacyc Hres Hhash)).
Qed.

Lemma expands_finishes root n keys cnt time :
  expands_to recipe_store root n keys cnt time ->
  exists st, while_stack recipe_store (S n) (initial_state root) = Some (Ret st) /\
             stack st = [] /\
             total_cooking_time st = time /\
             dom (ingredient_counts st) = keys /\
             forall k, counter_get (ingredient_counts st) k = cnt k.
Proof.
  intros Hexp. destruct (Hexp 1 [] ∅ 0) as (c' & Hafter & Hdom & Hc').
  exists (mkState [] c' (0 + 1 * time)). split; [|split; [|split; [|split]]].
  - replace (S n) with (n + 1)%nat by lia.
    by rewrite (while_stack_after _ _ _ _ _ Hafter).
  - done.
  - simpl. lia.
  - simpl. by rewrite Hdom, dom_empty_L, (right_id_L ∅ (∪)).
  - intros k. simpl. rewrite Hc'. unfold counter_get. rewrite lookup_empty. simpl. lia.
Qed.

(** *** Cycles *)

Lemma pushed_requires nm items m l p :
  Forall2 (pushed recipe_store m) items l -> p ∈ l ->
  requires recipe_store (Recipe nm items) p.1.
Proof.
  intros Hl Hp. apply list_elem_of_lookup in Hp as [i Hi].
  destruct (Forall2_lookup_r _ _ _ _ _ Hl Hi) as (x & Hx & Hres & _).
  eapply requires_resolved; [|done]. by eapply list_elem_of_lookup_2.
Qed.

(** With every reachable name resolvable and hashable the loop does not
    raise. *)
Lemma while_stack_no_raise root :
  resolvable recipe_store root ->
  hashable_names recipe_store root ->
  forall fuel st x,
    Forall (fun p => rtc (requires recipe_store) root p.1) (stack st) ->
    while_stack recipe_store fuel st <> Some (Raise x).
Proof.
  intros Hres Hhash. induction fuel as [|fuel IH]; intros st x Hstack; simpl; [done|].
  destruct (stack st) as [|[e m] rest]; [done|].
  apply Forall_cons in Hstack as [Hreach Hrest]. simpl in Hreach.
  destruct e as [n ct|nm items].
  - destruct (Hhash n ct Hreach) as [k Hk]. simpl. rewrite Hk. simpl. by apply IH.
  - destruct (pushed_exists m items) as [l Hl].
    { apply Forall_forall. intros y Hy. by eapply Hres. }
    rewrite (iteration_recipe _ _ _ _ _ _ Hl). apply IH. simpl.
    apply Forall_app. split; [|done].
    apply Forall_forall. intros p Hp.
    eapply rtc_r; [exact Hreach|]. by eapply pushed_requires.
Qed.

Lemma while_stack_ret_finishes fuel st st' :
  while_stack recipe_store fuel st = Some (Ret st') ->
  exists n, after recipe_store n st = Some st' /\ stack st' = [].
Proof.
  revert st. induction fuel as [|fuel IH]; intros st; simpl; [done|].
  destruct (stack st) as [|[e m] rest] eqn:Hs.
  - intros [= <-]. by exists 0%nat.
  - destruct (iteration recipe_store e m rest st) as [st1|] eqn:Hi; [|done].
    intros (n & Hn & Hempty)%IH. exists (S n). simpl. by rewrite Hs, Hi.
Qed.

Lemma after_cons n e m rest c t :
  after recipe_store (S n) (mkState ((e, m) :: rest) c t) =
  match iteration recipe_store e m rest (mkState ((e, m) :: rest) c t) with
  | Ret st' => after recipe_store n st'
  | Raise _ => None
  end.
Proof. reflexivity. Qed.

(** The entries above [s] are used up before the loop can end. *)
Lemma finishes_drop l :
  forall N,
    (forall N0 e m s c t, (N0 <= N)%nat ->
       finishes recipe_store N0 (mkState ((e, m) :: s) c t) ->
       exists N' c' t', (N' < N0)%nat /\ finishes recipe_store N' (mkState s c' t')) ->
    forall s c t,
      finishes recipe_store N (mkState (l ++ s) c t) ->
      exists N' c' t', (N' <= N)%nat /\ finishes recipe_store N' (mkState s c' t').
Proof.
  induction l as [|[e m] l IH]; intros N HP s c t Hfin.
  - exists N, c, t. done.
  - destruct (HP N e m (l ++ s) c t (le_n _) Hfin) as (N1 & c1 & t1 & HN1 & Hfin1).
    destruct (IH N1) with (s := s) (c := c1) (t := t1) as (N' & c' & t' & HN' & Hfin').
    + intros N0 e0 m0 s0 c0 t0 Hle. apply HP. lia.
    + done.
    + exists N', c', t'. split; [lia | done].
Qed.

Lemma finishes_pop N :
  forall e m s c t,
    finishes recipe_store N (mkState ((e, m) :: s) c t) ->
    exists N' c' t', (N' < N)%nat /\ finishes recipe_store N' (mkState s c' t').
Proof.
  induction (lt_wf N) as [N _ IH]. intros e m s c t (st' & Hafter & Hempty).
  destruct N as [|N]; simpl in Hafter.
  { injection Hafter as <-. done. }
  destruct (iteration recipe_store e m s _) as [st1|] eqn:Hi; [|done].
  destruct e as [n ct|nm items].
  - simpl in Hi. destruct (hash_key n) as [k|]; simpl in Hi; [|done].
    injection Hi as <-. exists N. do 2 eexists. split; [lia|]. by exists st'.
  - apply iteration_recipe_inv in Hi as (l & Hl & ->). simpl in Hafter.
    destruct (finishes_drop l N) with (s := s) (c := c) (t := t)
      as (N' & c' & t' & HN' & Hfin').
    + intros N0 e0 m0 s0 c0 t0 Hle. apply IH. lia.
    + by exists st'.
    + exists N', c', t'. split; [lia | done].
Qed.

(** The loop cannot end before it has dealt with every entry a popped
    recipe requires. *)
Lemma finishes_descend N e e' m s c t :
  requires recipe_store e e' ->
  finishes recipe_store N (mkState ((e, m) :: s) c t) ->
  exists N' m' s' c' t',
    (N' < N)%nat /\ finishes recipe_store N' (mkState ((e', m') :: s') c' t').
Proof.
  intros (nm & items & x & -> & Hx & Hres) (st' & Hafter & Hempty).
  destruct N as [|N].
  { simpl in Hafter. injection Hafter as <-. done. }
  rewrite after_cons in Hafter.
  destruct (iteration recipe_store _ m s _) as [st1|] eqn:Hi; [|done].
  apply iteration_recipe_inv in Hi as (l & Hl & ->). simpl in Hafter.
  apply list_elem_of_split in Hx as (i1 & i2 & ->).
  apply Forall2_app_inv_l in Hl as (l1 & l2 & Hl1 & Hl2 & ->).
  apply Forall2_cons_inv_l in Hl2 as ([e0 m0] & l2' & [Hres0 _] & _ & ->).
  simpl in Hres0. rewrite Hres in Hres0. injection Hres0 as <-.
  rewrite <- app_assoc in Hafter.
  destruct (finishes_drop l1 N) with (s := (e', m0) :: l2' ++ s) (c := c) (t := t)
    as (N' & c' & t' & HN' & Hfin').
  - intros N0 e0 m1 s0 c0 t0 _. apply finishes_pop.
  - by exists st'.
  - exists N', m0, (l2' ++ s), c', t'. split; [lia | done].
Qed.

Lemma finishes_descend_tc e e' :
  tc (requires recipe_store) e e' ->
  forall N m s c t,
    finishes recipe_store N (mkState ((e, m) :: s) c t) ->
    exists N' m' s' c' t',
      (N' < N)%nat /\ finishes recipe_store N' (mkState ((e', m') :: s') c' t').
Proof.
  induction 1 as [x y Hxy|x y z Hxy _ IH]; intros N m s c t Hfin.
  - by eapply finishes_descend.
  - destruct (finishes_descend _ _ _ _ _ _ _ Hxy Hfin)
      as (N1 & m1 & s1 & c1 & t1 & HN1 & Hfin1).
    destruct (IH _ _ _ _ _ Hfin1) as (N' & m' & s' & c' & t' & HN' & Hfin').
    exists N', m', s', c', t'. split; [lia | done].
Qed.

(** A recipe that requires itself, directly or not, is never done. *)
Lemma cycle_never_finishes e :
  tc (requires recipe_store) e e ->
  forall N m s c t, ~ finishes recipe_store N (mkState ((e, m) :: s) c t).
Proof.
  intros Hcyc N. induction (lt_wf N) as [N _ IH]. intros m s c t Hfin.
  destruct (finishes_descend_tc e e Hcyc _ _ _ _ _ Hfin)
    as (N' & m' & s' & c' & t' & HN' & Hfin').
  by apply (IH N' HN' m' s' c' t').
Qed.

Lemma cycle_reached_never_finishes root e :
  rtc (requires recipe_store) root e ->
  tc (requires recipe_store) e e ->
  forall N m s c t, ~ finishes recipe_store N (mkState ((root, m) :: s) c t).
Proof.
  intros Hreach Hcyc. apply rtc_tc in Hreach as [->|Hreach].
  - by apply cycle_never_finishes.
  - intros N m s c t Hfin.
    destruct (finishes_descend_tc root e Hreach _ _ _ _ _ Hfin)
      as (N' & m' & s' & c' & t' & _ & Hfin').
    by apply (cycle_never_finishes e Hcyc N' m' s' c' t').
Qed.

(** A loop that ends normally has hashed the name of every ingredient
    within reach. *)
Lemma finishes_hashable root N :
  finishes recipe_store N (initial_state root) -> hashable_names recipe_store root.
Proof.
  intros Hfin n ct Hreach.
  assert (exists N' m s c t,
            finishes recipe_store N' (mkState ((Ingredient n ct, m) :: s) c t))
    as (N' & m & s & c & t & st' & Hafter & Hempty).
  { apply rtc_tc in Hreach as [->|Hreach]; [by eauto 10|].
    destruct (finishes_descend_tc _ _ Hreach _ _ _ _ _ Hfin)
      as (N' & m' & s' & c' & t' & _ & Hfin').
    eauto 10. }
  destruct N' as [|N'].
  { simpl in Hafter. injection Hafter as <-. done. }
  rewrite after_cons in Hafter. simpl in Hafter.
  destruct (hash_key n) as [k|] eqn:Hk; [by exists k | done].
Qed.

(** With a cycle within reach, and every name resolvable and hashable,
    the loop is still running after any number of iterations. *)
Lemma cyclic_diverges root e :
  rtc (requires recipe_store) root e ->
  tc (requires recipe_store) e e ->
  resolvable recipe_store root ->
  hashable_names recipe_store root ->
  forall fuel, while_stack recipe_store fuel (initial_state root) = None.
Proof.
  intros Hreach Hcyc Hres Hhash fuel.
  destruct (while_stack recipe_store fuel (initial_state root)) as [[st|x]|] eqn:Hw.
  - exfalso. apply while_stack_ret_finishes in Hw as (n & Hn & Hempty).
    apply (cycle_reached_never_finishes root e Hreach Hcyc n 1 [] ∅ 0).
    by exists st.
  - exfalso. revert Hw. apply (while_stack_no_raise root Hres Hhash).
    simpl. constructor; [apply rtc_refl | constructor].
  - done.
Qed.

End Expansion.

(** ** The response *)

Section Response.

Lemma insert_sorted_perm x l l' : insert_sorted x l = Ret l' -> l' ≡ₚ x :: l.
Proof.
  revert l'. induction l as [|y l IH]; intros l'; simpl.
  - by intros [= <-].
  - destruct (item_lt x y) as [[]|]; simpl; [by intros [= <-]| |done].
    destruct (insert_sorted x l) as [l''|]; simpl; [|done].
    intros [= <-]. rewrite (IH l'' eq_refl). apply Permutation_swap.
Qed.

Lemma sorted_perm l l' : sorted l = Ret l' -> l' ≡ₚ l.
Proof.
  revert l'. induction l as [|x l IH]; intros l'; simpl.
  - by intros [= <-].
  - destruct (sorted l) as [s|]; simpl; [|done].
    intros ->%insert_sorted_perm. by rewrite (IH s eq_refl).
Qed.

Lemma quantity_in_elem l k v :
  NoDup l.*1 -> (k, v) ∈ l -> quantity_in l k = v.
Proof.
  induction l as [|[k' v'] l IH]; simpl; intros Hnd Hin.
  - by apply not_elem_of_nil in Hin.
  - apply NoDup_cons in Hnd as [Hfresh Hnd].
    apply elem_of_cons in Hin as [[= -> ->]|Hin].
    + by rewrite bool_decide_eq_true_2.
    + rewrite bool_decide_eq_false_2; [by apply IH|].
      intros ->. apply Hfresh. apply list_elem_of_fmap. by exists (k, v).
Qed.

Lemma quantity_in_absent l k : k ∉ l.*1 -> quantity_in l k = 0.
Proof.
  induction l as [|[k' v'] l IH]; simpl; intros Hk; [done|].
  apply not_elem_of_cons in Hk as [Hne Hk].
  rewrite bool_decide_eq_false_2 by done. by apply IH.
Qed.

(** *** When [sorted] raises *)

Lemma key_lt_ret a b r :
  key_lt a b = Ret r -> (int_key a /\ int_key b) \/ (str_key a /\ str_key b).
Proof.
  destruct a, b; simpl; try discriminate; intros _;
    [left | right]; split; by eexists.
Qed.

Lemma insert_sorted_ret (P : pykey -> Prop) x s :
  (forall a b, P a -> P b -> exists r, key_lt a b = Ret r) ->
  P x.1 -> Forall P s.*1 ->
  exists l, insert_sorted x s = Ret l.
Proof.
  intros HP Hx Hs. induction s as [|y s IH]; simpl; [eauto|].
  apply Forall_cons in Hs as [Hy Hs].
  assert (exists r, item_lt x y = Ret r) as [r ->].
  { unfold item_lt. case_bool_decide; eauto. }
  simpl. destruct r; [eauto|].
  destruct (IH Hs) as [l ->]. simpl. eauto.
Qed.

Lemma sorted_ret_uniform (P : pykey -> Prop) l :
  (forall a b, P a -> P b -> exists r, key_lt a b = Ret r) ->
  Forall P l.*1 -> exists l', sorted l = Ret l'.
Proof.
  intros HP. induction l as [|x l IH]; simpl; [eauto|].
  intros [Hx Hl]%Forall_cons. destruct (IH Hl) as [s Hs]. rewrite Hs. simpl.
  apply (insert_sorted_ret P); [done | done |].
  by rewrite (sorted_perm _ _ Hs).
Qed.

(** [sorted] returns exactly when the keys are orderable. *)
Lemma orderable_sorted l : orderable l.*1 -> exists l', sorted l = Ret l'.
Proof.
  intros [Hlen|[Hint|Hstr]].
  - destruct l as [|x [|y l]]; simpl in *; [eauto | eauto | lia].
  - apply (sorted_ret_uniform int_key); [|done].
    intros a b [za ->] [zb ->]. simpl. eauto.
  - apply (sorted_ret_uniform str_key); [|done].
    intros a b [sa ->] [sb ->]. simpl. eauto.
Qed.

Lemma sorted_orderable l l' : NoDup l.*1 -> sorted l = Ret l' -> orderable l.*1.
Proof.
  revert l'. induction l as [|x l IH]; intros l' Hnd; simpl.
  { intros _. left. simpl. lia. }
  apply NoDup_cons in Hnd as [Hfresh Hnd].
  destruct (sorted l) as [s|] eqn:Hs; simpl; [|done].
  specialize (IH s Hnd eq_refl). pose proof (sorted_perm _ _ Hs) as Hperm.
  destruct s as [|y s]; simpl.
  { apply Permutation_nil_l in Hperm as <-. intros _. left. simpl. lia. }
  assert (y ∈ l) as Hy by (rewrite <- Hperm; by left).
  assert (x.1 <> y.1) as Hne.
  { intros Heq. apply Hfresh. rewrite Heq. apply list_elem_of_fmap. by exists y. }
  unfold item_lt. rewrite bool_decide_eq_false_2 by done.
  destruct (key_lt x.1 y.1) as [r|] eqn:Hlt; simpl; [|done].
  intros _. apply key_lt_ret in Hlt.
  assert (y.1 ∈ l.*1) as Hy1 by (apply list_elem_of_fmap; by exists y).
  right. destruct IH as [Hlen|[Hint|Hstr]].
  - destruct l as [|z [|z' l]]; simpl in *; [by apply elem_of_nil in Hy | | lia].
    apply list_elem_of_singleton in Hy as <-.
    destruct Hlt as [[Hx Hy']|[Hx Hy']]; [left | right]; by repeat constructor.
  - left. constructor; [|done].
    destruct Hlt as [[Hx _]|[_ [sy Hsy]]]; [done|].
    rewrite Forall_forall in Hint. destruct (Hint _ Hy1) as [zy Hzy]. congruence.
  - right. constructor; [|done].
    destruct Hlt as [[_ [zy Hzy]]|[Hx _]]; [|done].
    rewrite Forall_forall in Hstr. destruct (Hstr _ Hy1) as [sy Hsy]. congruence.
Qed.

(** A counter with fewer keys sorts when the larger one does. *)
Lemma sorted_subset (c1 c2 : gmap pykey Z) l2 :
  dom c1 ⊆ dom c2 ->
  sorted (map_to_list c2) = Ret l2 ->
  exists l1, sorted (map_to_list c1) = Ret l1.
Proof.
  intros Hsub Hsorted. apply orderable_sorted.
  apply sorted_orderable in Hsorted; [|apply NoDup_fst_map_to_list].
  assert (forall k, k ∈ (map_to_list c1).*1 -> k ∈ (map_to_list c2).*1) as Hkeys.
  { intros k ([k1 v1] & -> & Hin)%list_elem_of_fmap.
    apply elem_of_map_to_list in Hin.
    assert (k1 ∈ dom c2) as [v2 Hv2]%elem_of_dom
      by (apply Hsub, elem_of_dom; eauto).
    apply list_elem_of_fmap. exists (k1, v2). split; [done|].
    by apply elem_of_map_to_list. }
  destruct Hsorted as [Hlen|[Hint|Hstr]].
  - left. rewrite length_fmap, length_map_to_list in *.
    rewrite <- !size_dom in *. apply subseteq_size in Hsub. lia.
  - right. left. rewrite Forall_forall in *. auto.
  - right. right. rewrite Forall_forall in *. auto.
Qed.

(** A summary exists exactly when the loop ends normally and the keys are
    orderable. *)
Lemma calculate_recipe_summary_sorted recipe_store fuel recipe st items :
  while_stack recipe_store fuel (initial_state recipe) = Some (Ret st) ->
  sorted (map_to_list (ingredient_counts st)) = Ret items ->
  calculate_recipe_summary recipe_store fuel recipe
    = Some (Ret (mkSummary (name recipe) (total_cooking_time st) items)).
Proof.
  intros Hw Hs. unfold calculate_recipe_summary, format_response.
  rewrite Hw, Hs. reflexivity.
Qed.

(** The sorted items list every count of the counter. *)
Lemma quantity_in_sorted (c : gmap pykey Z) items k :
  sorted (map_to_list c) = Ret items -> quantity_in items k = counter_get c k.
Proof.
  intros Hperm%sorted_perm. unfold counter_get.
  assert (NoDup items.*1) as Hnd
    by (rewrite Hperm; apply NoDup_fst_map_to_list).
  destruct (c !! k) as [v|] eqn:Hk; simpl.
  - apply quantity_in_elem; [done|]. rewrite Hperm. by apply elem_of_map_to_list.
  - apply quantity_in_absent. intros ([k' v] & -> & Hin)%list_elem_of_fmap.
    rewrite Hperm in Hin. apply elem_of_map_to_list in Hin. simpl in Hk. congruence.
Qed.

(** A summary reports the total time and the counts the loop ended with. *)
Lemma calculate_recipe_summary_ret recipe_store fuel recipe data :
  calculate_recipe_summary recipe_store fuel recipe = Some (Ret data) ->
  exists st,
    while_stack recipe_store fuel (initial_state recipe) = Some (Ret st) /\
    sorted (map_to_list (ingredient_counts st)) = Ret (ingredients data) /\
    cookTime data = total_cooking_time st /\
    forall k, quantity_in (ingredients data) k = counter_get (ingredient_counts st) k.
Proof.
  unfold calculate_recipe_summary, format_response.
  destruct (while_stack recipe_store fuel (initial_state recipe)) as [[st|]|]; try done.
  destruct (sorted (map_to_list (ingredient_counts st))) as [items|] eqn:Hs;
    simpl; [|done].
  intros [= <-]. exists st. simpl.
  split; [done|]. split; [done|]. split; [done|].
  intros k. by apply quantity_in_sorted.
Qed.

End Response.

(** ** Acyclic and cyclic composition *)

Section Composition.
Variable recipe_store : store.

(** What holds from a recipe holds from the entries it requires. *)
Lemma acyclic_step root e :
  requires recipe_store root e -> acyclic recipe_store root -> acyclic recipe_store e.
Proof. intros Hedge Hacyc e' Hreach. apply Hacyc. by eapply rtc_l. Qed.

Lemma resolvable_step root e :
  requires recipe_store root e ->
  resolvable recipe_store root -> resolvable recipe_store e.
Proof.
  intros Hedge Hres n items x Hreach Hx.
  apply (Hres n items x); [by eapply rtc_l | done].
Qed.

Lemma hashable_names_step root e :
  requires recipe_store root e ->
  hashable_names recipe_store root -> hashable_names recipe_store e.
Proof. intros Hedge Hhash n t Hreach. apply (Hhash n t). by eapply rtc_l. Qed.

(** In a store that satisfies the invariants every name within reach is
    hashable. *)
Lemma valid_store_hashable_names root :
  valid_store recipe_store -> valid_entry root ->
  hashable_names recipe_store root.
Proof.
  intros Hstore Hroot n t [->|(y & _ & Hy)]%rtc_inv_r.
  - apply Hroot.
  - destruct Hy as (ny & items & x & _ & _ & (k & _ & Hk)%resolve_some).
    apply (Hstore _ _ Hk).
Qed.

(** C3, as the code has it: from a root whose required names all resolve,
    the loop ends when the composition graph within reach has no cycle
    (normally, with the work list empty, when the ingredient names are
    hashable); when a recipe within reach requires itself, directly or
    through others, the loop never ends and nothing guards against it.
    The work list itself need not grow. *)
Theorem traversal_terminates_when_acyclic root :
  resolvable recipe_store root ->
  (acyclic recipe_store root ->
     (exists fuel r, while_stack recipe_store fuel (initial_state root) = Some r) /\
     (hashable_names recipe_store root ->
        exists fuel st,
          while_stack recipe_store fuel (initial_state root) = Some (Ret st) /\
          stack st = [])) /\
  (forall e,
      rtc (requires recipe_store) root e -> tc (requires recipe_store) e e ->
      hashable_names recipe_store root ->
      forall fuel, while_stack recipe_store fuel (initial_state root) = None).
Proof.
  intros Hres. split.
  - intros Hacyc. split; [by apply acyclic_terminates|].
    intros Hhash.
    destruct (acyclic_completes _ root Hacyc Hres Hhash)
      as (n & keys & cnt & time & Hexp).
    destruct (expands_finishes _ _ _ _ _ _ Hexp) as (st & Hw & Hempty & _).
    eauto.
  - intros e Hreach Hcyc Hhash. by apply (cyclic_diverges _ root e).
Qed.

(** C6: let recipe P require recipe R with quantity q, in a store where
    the composition graph from P is acyclic and every name resolves, and
    let P have a summary.  The traversal of P reaches a state with [(R, q)]
    on top of the work list and later the state where that entry and all
    it pushed are gone, and then runs to the end, where the summary of P
    is read off.  R has a summary of its own, the same for every amount of
    fuel that suffices, and between the two states every count has grown
    by q times the quantity R's summary lists for it, and the total time by
    q times the cook time of R's summary. *)
Theorem required_recipe_contributes_linearly
    pn items before x later rn ritems fuelP dataP :
  items = before ++ x :: later ->
  resolve recipe_store x = Some (Recipe rn ritems) ->
  acyclic recipe_store (Recipe pn items) ->
  resolvable recipe_store (Recipe pn items) ->
  calculate_recipe_summary recipe_store fuelP (Recipe pn items) = Some (Ret dataP) ->
  exists n1 n2 n3 s1 s2 s3 rest fuelR dataR,
    after recipe_store n1 (initial_state (Recipe pn items)) = Some s1 /\
    stack s1 = (Recipe rn ritems, quantity x) :: rest /\
    after recipe_store n2 s1 = Some s2 /\
    stack s2 = rest /\
    after recipe_store n3 s2 = Some s3 /\
    stack s3 = [] /\
    (cookTime dataP = total_cooking_time s3 /\
     forall k,
       quantity_in (ingredients dataP) k = counter_get (ingredient_counts s3) k) /\
    calculate_recipe_summary recipe_store fuelR (Recipe rn ritems) = Some (Ret dataR) /\
    (forall fuel r,
        calculate_recipe_summary recipe_store fuel (Recipe rn ritems) = Some r ->
        r = Ret dataR) /\
    (forall k,
        counter_get (ingredient_counts s2) k =
        counter_get (ingredient_counts s1) k
        + quantity x * quantity_in (ingredients dataR) k) /\
    total_cooking_time s2 = total_cooking_time s1 + quantity x * cookTime dataR.
Proof.
  intros -> HR Hacyc Hres HdataP.
  set (P := Recipe pn (before ++ x :: later)) in *.
  set (R := Recipe rn ritems) in *.
  apply calculate_recipe_summary_ret in HdataP
    as (stP & HwP & HsortedP & HtimeP & HcountsP).
  assert (hashable_names recipe_store P) as Hhash.
  { destruct (while_stack_ret_finishes _ _ _ _ HwP) as (N & HN & Hempty).
    apply (finishes_hashable _ _ N). by exists stP. }
  (* every required entry of P expands *)
  assert (forall y, y ∈ before ++ x :: later ->
            exists e n keys cnt time,
              resolve recipe_store y = Some e /\
              expands_to recipe_store e n keys cnt time) as Hchild.
  { intros y Hy. destruct (Hres pn _ y (rtc_refl _ _) Hy) as [e He].
    pose proof (requires_resolved recipe_store pn _ y e Hy He) as Hedge.
    destruct (acyclic_completes recipe_store e) as (n & keys & cnt & time & Hexp);
      eauto 10 using acyclic_step, resolvable_step, hashable_names_step. }
  destruct (Hchild x) as (R' & nR & keysR & cntR & timeR & HR' & HexpR);
    [apply elem_of_app; right; by left|].
  rewrite HR in HR'. injection HR' as <-.
  destruct (expands_items recipe_store before) as (nb & keysb & cntb & timeb & Hb).
  { apply Forall_forall. intros y Hy. apply Hchild. apply elem_of_app. by left. }
  destruct (expands_items recipe_store later) as (nl & keysl & cntl & timel & Hl).
  { apply Forall_forall. intros y Hy. apply Hchild. apply elem_of_app.
    right. by right. }
  (* the entries pushed by the first iteration *)
  destruct (pushed_exists recipe_store 1 (before ++ x :: later)) as [l Hpushed].
  { apply Forall_forall. intros y Hy.
    destruct (Hchild y Hy) as (e & _ & _ & _ & _ & -> & _). eauto. }
  apply Forall2_app_inv_l in Hpushed as Hsplit.
  destruct Hsplit as (l1 & l2 & Hl1 & Hl2 & ->).
  apply Forall2_cons_inv_l in Hl2 as ([e0 m0] & l2' & [He0 Hm0] & Hl2' & ->).
  simpl in He0, Hm0. rewrite HR in He0. injection He0 as <-.
  rewrite Z.mul_1_l in Hm0. subst m0.
  destruct (Hb 1 l1 ((R, quantity x) :: l2') ∅ 0 Hl1) as (c1 & Hrun1 & Hd1 & Hc1).
  destruct (HexpR (quantity x) l2' c1 (0 + 1 * timeb)) as (c2 & Hrun2 & Hd2 & Hc2).
  destruct (Hl 1 l2' [] c2 (0 + 1 * timeb + quantity x * timeR) Hl2')
    as (c3 & Hrun3 & Hd3 & Hc3).
  rewrite app_nil_r in Hrun3.
  assert (after recipe_store (S nb) (initial_state P)
          = Some (mkState ((R, quantity x) :: l2') c1 (0 + 1 * timeb))) as Hrun0.
  { unfold initial_state, P. rewrite after_cons.
    rewrite (iteration_recipe _ _ _ _ _ _ _ Hpushed). simpl.
    rewrite app_nil_r. exact Hrun1. }
  (* the summary of P is read off the last state *)
  assert (stP = mkState [] c3 (0 + 1 * timeb + quantity x * timeR + 1 * timel)) as ->.
  { assert (while_stack recipe_store (S nb + (nR + (nl + 1))) (initial_state P)
            = Some (Ret (mkState [] c3
                           (0 + 1 * timeb + quantity x * timeR + 1 * timel)))) as Hend.
    { rewrite (while_stack_after _ _ _ _ _ Hrun0).
      rewrite (while_stack_after _ _ _ _ _ Hrun2).
      by rewrite (while_stack_after _ _ _ _ _ Hrun3). }
    by pose proof (while_stack_deterministic _ _ _ _ _ _ HwP Hend) as [= ->]. }
  simpl in HsortedP, HtimeP, HcountsP.
  (* the summary of R *)
  destruct (expands_finishes _ _ _ _ _ _ HexpR)
    as (stR & HwR & _ & HtimeR & HdomR & HcntR).
  destruct (sorted_subset (ingredient_counts stR) c3 (ingredients dataP))
    as [itemsR HsortedR]; [|done|].
  { rewrite HdomR, Hd3, Hd2. apply union_subseteq_r', union_subseteq_l. }
  pose proof (calculate_recipe_summary_sorted _ _ _ _ _ HwR HsortedR) as HdataR.
  exists (S nb), nR, nl.
  exists (mkState ((R, quantity x) :: l2') c1 (0 + 1 * timeb)).
  exists (mkState l2' c2 (0 + 1 * timeb + quantity x * timeR)).
  exists (mkState [] c3 (0 + 1 * timeb + quantity x * timeR + 1 * timel)).
  exists l2', (S nR), (mkSummary (name R) (total_cooking_time stR) itemsR).
  split; [done|]. split; [done|]. split; [done|]. split; [done|].
  split; [done|]. split; [done|]. split; [done|]. split; [done|].
  split; [|split].
  - intros fuel r Hr. unfold calculate_recipe_summary in Hr.
    destruct (while_stack recipe_store fuel (initial_state R)) as [x0|] eqn:Hw; [|done].
    pose proof (while_stack_deterministic _ _ _ _ _ _ Hw HwR) as ->.
    unfold calculate_recipe_summary in HdataR. rewrite HwR in HdataR. congruence.
  - intros k. simpl. rewrite Hc2, (quantity_in_sorted _ _ _ HsortedR), HcntR. done.
  - simpl. by rewrite HtimeR.
Qed.

End Composition.

(** ** The example stores *)

Section Examples.

(** A rank that decreases along every edge within reach rules out
    cycles. *)
Lemma ranked_acyclic recipe_store root (rank : CookbookEntry -> nat) :
  (forall e e', rtc (requires recipe_store) root e ->
                requires recipe_store e e' -> (rank e' < rank e)%nat) ->
  acyclic recipe_store root.
Proof.
  intros Hrank e Hreach Hcyc.
  assert (forall a b, tc (requires recipe_store) a b ->
                      rtc (requires recipe_store) root a -> (rank b < rank a)%nat) as Hlt.
  { induction 1 as [a b Hab|a b c Hab Hbc IH]; intros Ha; [by apply Hrank|].
    pose proof (Hrank a b Ha Hab). pose proof (IH (rtc_r _ _ _ Ha Hab)). lia. }
  pose proof (Hlt e e Hcyc Hreach). lia.
Qed.

Lemma pancake_requires e e' :
  e ∈ [Pancake; Batter; Egg; Flour] ->
  requires pancake_store e e' ->
  e' ∈ [Pancake; Batter; Egg; Flour] /\ (pancake_rank e' < pancake_rank e)%nat.
Proof.
  rewrite !elem_of_cons.
  intros [->|[->|[->|[->|[]%elem_of_nil]]]] (n & items & x & Heq & Hx & Hres);
    try discriminate Heq; injection Heq as ? ?; subst.
  - apply list_elem_of_singleton in Hx as ->.
    vm_compute in Hres. injection Hres as <-.
    split; [|vm_compute; lia]. right. left. reflexivity.
  - apply elem_of_cons in Hx as [->|Hx]; [|apply list_elem_of_singleton in Hx as ->];
      vm_compute in Hres; injection Hres as <-; (split; [|vm_compute; lia]).
    + do 2 right. left. reflexivity.
    + do 3 right. left. reflexivity.
Qed.

Lemma pancake_reach e :
  rtc (requires pancake_store) Pancake e -> e ∈ [Pancake; Batter; Egg; Flour].
Proof.
  intros H. apply rtc_inv_r in H. revert e H.
  assert (forall e, rtc (requires pancake_store) Pancake e ->
                    e ∈ [Pancake; Batter; Egg; Flour]) as Hall.
  { apply rtc_ind_r; [by left|].
    intros y z _ Hyz Hy. by destruct (pancake_requires y z Hy Hyz). }
  intros e [<-|(y & Hy & Hyz)]; [by left|].
  by destruct (pancake_requires y e (Hall y Hy) Hyz).
Qed.

Lemma pancake_acyclic : acyclic pancake_store Pancake.
Proof.
  apply (ranked_acyclic _ _ pancake_rank). intros e e' He Hee'.
  by destruct (pancake_requires e e' (pancake_reach e He) Hee').
Qed.

Lemma pancake_resolvable : resolvable pancake_store Pancake.
Proof.
  intros n items x Hreach Hx. apply pancake_reach in Hreach.
  revert Hreach. rewrite !elem_of_cons.
  intros [Heq|[Heq|[Heq|[Heq|[]%elem_of_nil]]]];
    try discriminate Heq; injection Heq as ? ?; subst.
  - apply list_elem_of_singleton in Hx as ->. vm_compute. eauto.
  - apply elem_of_cons in Hx as [->|Hx]; [|apply list_elem_of_singleton in Hx as ->];
      vm_compute; eauto.
Qed.

Lemma pancake_hashable_names : hashable_names pancake_store Pancake.
Proof.
  intros n t Hreach. apply pancake_reach in Hreach.
  revert Hreach. rewrite !elem_of_cons.
  intros [Heq|[Heq|[Heq|[Heq|[]%elem_of_nil]]]];
    try discriminate Heq; injection Heq as ? ?; subst; by eexists.
Qed.

(** Sourdough requires itself, and nothing else. *)
Lemma sourdough_requires_itself : requires sourdough_store Sourdough Sourdough.
Proof.
  exists (JStr (u "Sourdough")), [mkRequiredItem (JStr (u "Sourdough")) 1],
    (mkRequiredItem (JStr (u "Sourdough")) 1).
  split; [reflexivity|]. split; [by left | reflexivity].
Qed.

Lemma sourdough_requires e : requires sourdough_store Sourdough e -> e = Sourdough.
Proof.
  intros (n & items & x & Heq & Hx & Hres). injection Heq as ? ?; subst.
  apply list_elem_of_singleton in Hx as ->.
  vm_compute in Hres. injection Hres as <-. reflexivity.
Qed.

Lemma sourdough_reach e : rtc (requires sourdough_store) Sourdough e -> e = Sourdough.
Proof.
  revert e. apply rtc_ind_r; [done|].
  intros y z _ Hyz ->. by apply sourdough_requires.
Qed.

Lemma sourdough_resolvable : resolvable sourdough_store Sourdough.
Proof.
  intros n items x Hreach%sourdough_reach Hx. injection Hreach as ? ?; subst.
  apply list_elem_of_singleton in Hx as ->. vm_compute. eauto.
Qed.

Lemma sourdough_hashable_names : hashable_names sourdough_store Sourdough.
Proof. intros n t Hreach%sourdough_reach. discriminate. Qed.

End Examples.

(** ** The theorems at work *)

(** The pancake store is what four accepted requests build. *)
Lemma pancake_store_created :
  let U := basic_latin in
  let s1 := (create_entry ∅ (ingredient_request (u "Egg") 5)).1 in
  let s2 := (create_entry s1 (ingredient_request (u "Flour") 2)).1 in
  let s3 := (create_entry s2 (recipe_request (u "Batter")
                                [required (u "Egg") 2; required (u "Flour") 1])).1 in
  (create_entry s3 (recipe_request (u "Pancake") [required (u "Batter") 3]))
  = (pancake_store, OK_200).
Proof. vm_compute. reflexivity. Qed.

Lemma pancake_summary_witness :
  summary pancake_store 5 (Some (u "Pancake")) =
    Some (Summary_200
            (mkSummary (JStr (u "Pancake")) 36
               [(KStr (u "Egg"), 6); (KStr (u "Flour"), 3)])).
Proof. apply (pancake_summary pancake_store 0); reflexivity. Defined.

Lemma summary_rejects_witness :
  summary soup_store 1 (Some (u "Stock")) = Some Summary_400 /\
  summary pancake_store 1 (Some (u "Egg")) = Some Summary_400 /\
  (summary stew_store 2 (Some (u "Stew")) = Some Summary_400 /\
   forall data, summary stew_store 1 (Some (u "Stew")) <> Some (Summary_200 data)) /\
  summary soup_store 1 (Some (u "Soup")) = Some Summary_400.
Proof.
  split; [|split; [|split]].
  - apply (proj1 (summary_rejects soup_store (u "Stock"))). reflexivity.
  - apply (proj1 (proj2 (summary_rejects pancake_store (u "Egg"))) (JStr (u "Egg")) 5).
    reflexivity.
  - destruct (proj1 (proj2 (proj2 (summary_rejects stew_store (u "Stew"))))
               Stew 1%nat (mkState [(Soup, 2)] ∅ 0)
               (JStr (u "Soup")) [mkRequiredItem (JStr (u "Stock")) 1] 2 []
               (mkRequiredItem (JStr (u "Stock")) 1) (KStr (u "Stock")))
      as [Hreject Hnever]; try reflexivity.
    + by left.
    + split; [apply Hreject; lia | apply Hnever].
  - apply (proj2 (proj2 (proj2 (summary_rejects soup_store (u "Soup"))))); reflexivity.
Defined.

Lemma traversal_terminates_when_acyclic_witness :
  (exists fuel st,
      while_stack pancake_store fuel (initial_state Pancake) = Some (Ret st) /\
      stack st = []) /\
  (forall fuel, while_stack sourdough_store fuel (initial_state Sourdough) = None).
Proof.
  split.
  - destruct (traversal_terminates_when_acyclic pancake_store Pancake
                pancake_resolvable) as [Hacyclic _].
    destruct (Hacyclic pancake_acyclic) as [_ Hends].
    exact (Hends pancake_hashable_names).
  - apply (proj2 (traversal_terminates_when_acyclic sourdough_store Sourdough
                    sourdough_resolvable) Sourdough).
    + apply rtc_refl.
    + apply tc_once, sourdough_requires_itself.
    + apply sourdough_hashable_names.
Defined.

(** The recipe that requires itself: the request is accepted, every name
    resolves, the loop goes round for ever, and the work list holds one
    entry all the time. *)
Lemma sourdough_work_list_does_not_grow :
  @create_entry basic_latin ∅
    (recipe_request (u "Sourdough") [required (u "Sourdough") 1])
    = (sourdough_store, OK_200) /\
  tc (requires sourdough_store) Sourdough Sourdough /\
  resolvable sourdough_store Sourdough /\
  (forall n, after sourdough_store n (initial_state Sourdough)
             = Some (initial_state Sourdough)) /\
  ~ (forall bound, exists n st,
        after sourdough_store n (initial_state Sourdough) = Some st /\
        (bound < length (stack st))%nat).
Proof.
  assert (forall n, after sourdough_store n (initial_state Sourdough)
                    = Some (initial_state Sourdough)) as Hloop.
  { induction n as [|n IH]; [reflexivity|].
    change (after sourdough_store (S n) (initial_state Sourdough))
      with (after sourdough_store n (initial_state Sourdough)).
    exact IH. }
  split; [vm_compute; reflexivity|].
  split; [apply tc_once, sourdough_requires_itself|].
  split; [apply sourdough_resolvable|].
  split; [exact Hloop|].
  intros Hgrow. destruct (Hgrow 1%nat) as (n & st & Hafter & Hlen).
  rewrite Hloop in Hafter. injection Hafter as <-. simpl in Hlen. lia.
Qed.

Lemma normalization_failure_keeps_raw_name_witness :
  @create_entry basic_latin ∅ (ingredient_request (u "123") 4)
    = (<[KStr (u "123") := Ingredient (JStr (u "123")) 4]> ∅, OK_200) /\
  @create_entry basic_latin ∅ (recipe_request (u "123") [required (u "Egg") 1])
    = (<[KStr (u "123") :=
           Recipe (JStr (u "123")) [mkRequiredItem (JStr (u "Egg")) 1]]> ∅,
       OK_200).
Proof.
  split.
  - destruct (@normalization_failure_keeps_raw_name basic_latin ∅
                [(u "type", JStr (u "ingredient")); (u "name", JStr (u "123"));
                 (u "cookTime", JInt 4)]
                (JStr (u "123")) (KStr (u "123"))) as [Hingredient _];
      [reflexivity | reflexivity | apply lookup_empty | reflexivity |].
    apply (Hingredient (JInt 4) 4); [reflexivity | reflexivity | reflexivity | lia].
  - destruct (@normalization_failure_keeps_raw_name basic_latin ∅
                [(u "type", JStr (u "recipe")); (u "name", JStr (u "123"));
                 (u "requiredItems", JList [required (u "Egg") 1])]
                (JStr (u "123")) (KStr (u "123"))) as [_ Hrecipe];
      [reflexivity | reflexivity | apply lookup_empty | reflexivity |].
    apply (Hrecipe [required (u "Egg") 1]); reflexivity.
Defined.

(** Requests with an empty name, a whitespace-only name and a name without
    letters are all answered 200, and each adds an entry to the store. *)
Lemma blank_names_are_created :
  @create_entry basic_latin ∅ (ingredient_request [] 1)
    = (<[KStr [] := Ingredient (JStr []) 1]> ∅, OK_200) /\
  @create_entry basic_latin ∅ (ingredient_request (u "   ") 1)
    = (<[KStr (u "   ") := Ingredient (JStr (u "   ")) 1]> ∅, OK_200) /\
  @create_entry basic_latin ∅ (ingredient_request (u "42") 1)
    = (<[KStr (u "42") := Ingredient (JStr (u "42")) 1]> ∅, OK_200) /\
  (@create_entry basic_latin ∅ (ingredient_request [] 1)).1 <> ∅.
Proof.
  split; [vm_compute; reflexivity|].
  split; [vm_compute; reflexivity|].
  split; [vm_compute; reflexivity|].
  intros H. apply (f_equal (fun m : store => m !! KStr [])) in H.
  vm_compute in H. discriminate H.
Qed.

Lemma blank_name_is_accepted_witness :
  (exists store',
      @create_entry basic_latin ∅ (ingredient_request (u "   ") 1) = (store', OK_200) /\
      store' !! KStr (u "   ") = Some (Ingredient (JStr (u "   ")) 1)) /\
  (forall store' st,
      @create_entry basic_latin ∅ (ingredient_request (u "Egg") (-1)) = (store', st) ->
      st <> OK_200 -> store' = ∅).
Proof.
  split.
  - destruct (@blank_name_is_accepted basic_latin ∅
                [(u "type", JStr (u "ingredient")); (u "name", JStr (u "   "));
                 (u "cookTime", JInt 1)] (u "   ")) as [_ Hblank].
    destruct Hblank as [Hingredient _];
      [reflexivity | right; left; reflexivity | apply lookup_empty |].
    apply (Hingredient (JInt 1) 1); [reflexivity | reflexivity | reflexivity | lia].
  - apply (proj1 (@blank_name_is_accepted basic_latin ∅ [] [])).
Defined.

Lemma same_name_twice_rejected_witness :
  @create_entry basic_latin ∅ (ingredient_request (u "Egg") 5)
    = (<[KStr (u "Egg") := Egg]> ∅, OK_200) /\
  @create_entry basic_latin (<[KStr (u "Egg") := Egg]> ∅) (recipe_request (u "Egg") [])
    = (<[KStr (u "Egg") := Egg]> ∅, Bad_Request_400).
Proof.
  split; [vm_compute; reflexivity|].
  apply (@same_name_twice_rejected basic_latin ∅
           [(u "type", JStr (u "ingredient")); (u "name", JStr (u "Egg"));
            (u "cookTime", JInt 5)]
           [(u "type", JStr (u "recipe")); (u "name", JStr (u "Egg"));
            (u "requiredItems", JList [])]
           (JStr (u "Egg"))); [reflexivity | reflexivity |].
  vm_compute. reflexivity.
Defined.

Lemma duplicate_required_item_rejected_witness :
  @create_entry basic_latin ∅
    (recipe_request (u "Omelette") [required (u "Egg") 1; required (u "Egg") 2])
    = (∅, Bad_Request_400).
Proof.
  apply (proj1 (@duplicate_required_item_rejected basic_latin ∅
                  [(u "type", JStr (u "recipe")); (u "name", JStr (u "Omelette"));
                   (u "requiredItems",
                     JList [required (u "Egg") 1; required (u "Egg") 2])]
                  [required (u "Egg") 1; required (u "Egg") 2] 0%nat 1%nat
                  [(u "name", JStr (u "Egg")); (u "quantity", JInt 1)]
                  [(u "name", JStr (u "Egg")); (u "quantity", JInt 2)]
                  (JStr (u "Egg"))
                  eq_refl eq_refl (O_S 0) eq_refl eq_refl eq_refl eq_refl)).
Defined.

Lemma unknown_type_rejected_witness :
  @create_entry basic_latin ∅
    (JObj [(u "type", JStr (u "drink")); (u "name", JStr (u "Cola"))])
    = (∅, Bad_Request_400).
Proof.
  apply (@unknown_type_rejected basic_latin ∅ _ (JStr (u "drink")));
    [reflexivity | discriminate | discriminate].
Defined.

Lemma latin_with_dotted_I_knows : knows_dotted_I latin_with_dotted_I.
Proof. split; reflexivity. Qed.

Lemma dotted_I_leaves_a_mark_witness :
  @parse_handwriting latin_with_dotted_I [97%N; dotted_I]
    = Some [65%N; 105%N; combining_dot_above] /\
  @isalpha latin_with_dotted_I combining_dot_above = false.
Proof.
  split; [|reflexivity].
  apply (dotted_I_leaves_a_mark latin_with_dotted_I
           latin_with_dotted_I_compatible latin_with_dotted_I_knows).
Defined.

Lemma required_recipe_contributes_linearly_witness :
  exists n1 n2 n3 s1 s2 s3 rest fuelR dataR,
    after pancake_store n1 (initial_state Pancake) = Some s1 /\
    stack s1 = (Batter, 3) :: rest /\
    after pancake_store n2 s1 = Some s2 /\
    stack s2 = rest /\
    after pancake_store n3 s2 = Some s3 /\
    stack s3 = [] /\
    calculate_recipe_summary pancake_store fuelR Batter = Some (Ret dataR) /\
    (forall k,
        counter_get (ingredient_counts s2) k =
        counter_get (ingredient_counts s1) k + 3 * quantity_in (ingredients dataR) k) /\
    total_cooking_time s2 = total_cooking_time s1 + 3 * cookTime dataR.
Proof.
  destruct (required_recipe_contributes_linearly pancake_store
              (JStr (u "Pancake")) [mkRequiredItem (JStr (u "Batter")) 3]
              [] (mkRequiredItem (JStr (u "Batter")) 3) []
              (JStr (u "Batter"))
              [mkRequiredItem (JStr (u "Egg")) 2; mkRequiredItem (JStr (u "Flour")) 1]
              5%nat
              (mkSummary (JStr (u "Pancake")) 36
                 [(KStr (u "Egg"), 6); (KStr (u "Flour"), 3)]))
    as (n1 & n2 & n3 & s1 & s2 & s3 & rest & fuelR & dataR
        & H1 & H2 & H3 & H4 & H5 & H6 & _ & HR & _ & Hcounts & Htime).
  - reflexivity.
  - reflexivity.
  - apply pancake_acyclic.
  - apply pancake_resolvable.
  - vm_compute. reflexivity.
  - exists n1, n2, n3, s1, s2, s3, rest, fuelR, dataR. repeat split; assumption.
Defined.

(** ** More on [parse_handwriting] *)

Section Words.
Context {U : UnicodeData}.

Lemma lstrip_all_space s :
  lstrip s = [] <-> Forall (fun c => isspace c = true) s.
Proof.
  induction s as [|c s IH]; simpl; [done|].
  destruct (isspace c) eqn:Hc.
  - rewrite IH. split; [by constructor | by intros [_ ?]%Forall_cons].
  - split; [done | intros [? _]%Forall_cons; congruence].
Qed.

Lemma lstrip_head c s t : lstrip s = c :: t -> isspace c = false.
Proof.
  induction s as [|c0 s IH]; simpl; [done|].
  destruct (isspace c0) eqn:Hc; [done|]. by intros [= <- <-].
Qed.

Lemma lstrip_space_nil s :
  Forall (fun c => isspace c = true) (lstrip s) -> lstrip s = [].
Proof.
  destruct (lstrip s) as [|c t] eqn:Hs; [done|].
  intros [Hc _]%Forall_cons. apply lstrip_head in Hs. congruence.
Qed.

Lemma strip_all_space s :
  strip s = [] <-> Forall (fun c => isspace c = true) s.
Proof.
  unfold strip. split.
  - intros H. apply (f_equal reverse) in H. rewrite reverse_involutive in H.
    simpl in H. apply lstrip_all_space, Forall_reverse, lstrip_space_nil in H.
    by apply lstrip_all_space.
  - intros H. apply lstrip_all_space in H. by rewrite H.
Qed.

Lemma strip_space_nil s :
  Forall (fun c => isspace c = true) (strip s) -> strip s = [].
Proof.
  unfold strip. intros H%Forall_reverse%lstrip_space_nil. by rewrite H.
Qed.

Lemma split_from_nil cur s :
  split_from cur s = [] <-> cur = [] /\ Forall (fun c => isspace c = true) s.
Proof.
  revert cur. induction s as [|c s IH]; intros cur; simpl.
  - destruct cur; split; try done. by intros [? _].
  - destruct (isspace c) eqn:Hc.
    + destruct cur as [|c0 cur].
      * rewrite IH. split; [intros [_ ?]; by split; [|constructor]|].
        intros [_ [_ ?]%Forall_cons]. done.
      * split; [done | by intros [? _]].
    + rewrite IH. split; [by intros [? _] | intros [_ [? _]%Forall_cons]; congruence].
Qed.

Lemma Forall_filter_iff (f : char -> bool) (P : char -> Prop) s :
  Forall P (List.filter f s) <-> Forall (fun c => f c = true -> P c) s.
Proof.
  induction s as [|c s IH]; simpl; [done|].
  destruct (f c) eqn:Hc; rewrite !Forall_cons, ?IH.
  - split; intros [? ?]; split; auto.
  - split; [intros ?; split; [congruence | done] | by intros [_ ?]].
Qed.

Lemma parse_handwriting_none s :
  isspace space = true ->
  parse_handwriting s = None <-> Forall (fun c => word_char c = false) s.
Proof.
  intros Hspace.
  assert (Forall (fun c => isspace c = true) s ->
          Forall (fun c => word_char c = false) s) as Hblank.
  { intros H. eapply Forall_impl; [exact H|]. intros c Hc. unfold word_char.
    rewrite Hc. by rewrite andb_false_r. }
  assert (split (strip (List.filter (fun c => isalpha c || isspace c)
                          (replace underscore space (replace hyphen space s)))) = []
          <-> Forall (fun c => word_char c = false) s) as Hwords.
  { unfold split. rewrite split_from_nil. split.
    - intros [_ H]. apply strip_space_nil, strip_all_space in H.
      apply Forall_filter_iff in H. unfold replace in H.
      rewrite <- list_fmap_compose, Forall_fmap in H.
      eapply Forall_impl; [exact H|]. intros c. simpl. unfold word_char.
      destruct (c =? hyphen)%N eqn:Hh; simpl.
      { intros _. by rewrite andb_false_r. }
      destruct (c =? underscore)%N eqn:Hu; simpl.
      { intros _. by rewrite andb_false_r. }
      rewrite !andb_true_r. intros Hkeep.
      destruct (isalpha c), (isspace c); simpl in *; auto.
      symmetry. by apply Hkeep.
    - intros H. split; [done|]. apply strip_all_space.
      assert (Forall (fun c => isspace c = true)
                (List.filter (fun c => isalpha c || isspace c)
                   (replace underscore space (replace hyphen space s)))) as H'.
      { apply Forall_filter_iff. unfold replace.
        rewrite <- list_fmap_compose, Forall_fmap.
        eapply Forall_impl; [exact H|]. intros c. simpl. unfold word_char.
        destruct (c =? hyphen)%N eqn:Hh; simpl; [done|].
        destruct (c =? underscore)%N eqn:Hu; simpl; [done|].
        rewrite !andb_true_r. destruct (isalpha c), (isspace c); simpl; auto;
          discriminate. }
      apply strip_all_space in H'. rewrite H'. constructor. }
  unfold parse_handwriting.
  destruct (bool_decide (s = [])) eqn:Hnil; simpl.
  { apply bool_decide_eq_true in Hnil as ->. done. }
  destruct (bool_decide (strip s = [])) eqn:Hstrip; simpl.
  { apply bool_decide_eq_true, strip_all_space in Hstrip. split; auto. }
  rewrite <- Hwords.
  destruct (split _); split; try done.
Qed.

(** X1: [parse_handwriting] returns [None] exactly on the inputs without a
    word character. *)
Theorem parse_handwriting_rejects_iff s :
  isspace space = true ->
  parse_handwriting s = None <-> Forall (fun c => word_char c = false) s.
Proof. apply parse_handwriting_none. Qed.

(** *** Whitespace at the ends *)

Lemma lstrip_decompose s :
  exists sp, Forall (fun c => isspace c = true) sp /\ s = sp ++ lstrip s.
Proof.
  induction s as [|c s (sp & Hsp & IH)]; simpl; [by exists []|].
  destruct (isspace c) eqn:Hc.
  - exists (c :: sp). split; [by constructor|]. simpl. by rewrite <- IH.
  - by exists [].
Qed.

Lemma split_from_spaces cur sp :
  Forall (fun c => isspace c = true) sp ->
  split_from cur sp = match cur with [] => [] | _ => [reverse cur] end.
Proof.
  intros Hsp. revert cur. induction Hsp as [|c sp Hc _ IH]; intros cur; simpl; [done|].
  rewrite Hc. destruct cur; rewrite IH; done.
Qed.

Lemma split_from_app_spaces cur s sp :
  Forall (fun c => isspace c = true) sp ->
  split_from cur (s ++ sp) = split_from cur s.
Proof.
  intros Hsp. revert cur. induction s as [|c s IH]; intros cur; simpl.
  - by apply split_from_spaces.
  - destruct (isspace c); [|by rewrite IH]. destruct cur; by rewrite IH.
Qed.

Lemma split_from_lstrip s : split_from [] (lstrip s) = split_from [] s.
Proof.
  induction s as [|c s IH]; simpl; [done|].
  destruct (isspace c) eqn:Hc; [done|]. simpl. by rewrite Hc.
Qed.

(** [split] does its own stripping. *)
Lemma split_strip s : split (strip s) = split s.
Proof.
  unfold split, strip.
  destruct (lstrip_decompose (reverse (lstrip s))) as (sp & Hsp & Hdec).
  apply (f_equal reverse) in Hdec. rewrite reverse_involutive, reverse_app in Hdec.
  rewrite <- (split_from_lstrip s).
  transitivity (split_from [] (reverse (lstrip (reverse (lstrip s))) ++ reverse sp)).
  - symmetry. apply split_from_app_spaces. by apply Forall_reverse.
  - by rewrite <- Hdec.
Qed.

(** The two early exits of [parse_handwriting] and its call of [strip] do
    not change the result: a string they stop has no words. *)
Lemma parse_handwriting_words s :
  isspace space = true ->
  parse_handwriting s =
    match split (List.filter (fun c => isalpha c || isspace c)
                   (replace underscore space (replace hyphen space s))) with
    | [] => None
    | words => Some (join [space] (capitalize <$> words))
    end.
Proof.
  intros Hspace. unfold parse_handwriting. cbv zeta. rewrite split_strip.
  destruct (bool_decide (s = []) || bool_decide (strip s = [])) eqn:Hblank;
    [|by destruct (split _)].
  assert (Forall (fun c => isspace c = true) s) as Hs.
  { apply orb_true_iff in Hblank as [->%bool_decide_eq_true | Hb%bool_decide_eq_true];
      [constructor | by apply strip_all_space]. }
  assert (Forall (fun c => isspace c = true)
            (List.filter (fun c => isalpha c || isspace c)
               (replace underscore space (replace hyphen space s)))) as Hf.
  { apply Forall_filter_iff. unfold replace. rewrite <- list_fmap_compose, Forall_fmap.
    eapply Forall_impl; [exact Hs|]. intros c Hc _. simpl.
    destruct (c =? hyphen)%N; simpl; [done|]. by destruct (c =? underscore)%N. }
  unfold split. by rewrite split_from_spaces.
Qed.

(** X2: Hyphens, underscores and spaces are interchangeable. *)
Theorem parse_handwriting_separators s :
  isspace space = true ->
  parse_handwriting (replace hyphen space s) = parse_handwriting s /\
  parse_handwriting (replace underscore space s) = parse_handwriting s /\
  parse_handwriting (replace hyphen underscore s) = parse_handwriting s /\
  parse_handwriting (replace underscore hyphen s) = parse_handwriting s.
Proof.
  intros Hspace. rewrite !parse_handwriting_words by done.
  assert (forall old new,
            (old = hyphen \/ old = underscore) ->
            (new = hyphen \/ new = underscore \/ new = space) ->
            replace underscore space (replace hyphen space (replace old new s))
              = replace underscore space (replace hyphen space s)) as Hsame.
  { intros old new Hold Hnew. unfold replace. rewrite <- !list_fmap_compose.
    apply list_fmap_ext. intros _ c _. simpl.
    destruct Hold as [-> | ->], Hnew as [-> | [-> | ->]];
      destruct (c =? hyphen)%N eqn:Hh, (c =? underscore)%N eqn:Hu; simpl;
      rewrite ?Hh, ?Hu; try reflexivity;
      apply N.eqb_eq in Hh; apply N.eqb_eq in Hu; subst; discriminate. }
  rewrite !Hsame by auto. done.
Qed.

Lemma filter_fmap_filter (p keep : char -> bool) (g : char -> char) s :
  (forall c, p c = false -> keep (g c) = false) ->
  List.filter keep (g <$> List.filter p s) = List.filter keep (g <$> s).
Proof.
  intros Hdrop. induction s as [|c s IH]; [done|]. cbn [List.filter].
  destruct (p c) eqn:Hc; rewrite !fmap_cons; cbn [List.filter]; rewrite IH; [done|].
  by rewrite (Hdrop c Hc).
Qed.

(** X3: Characters that are not legible are skipped, and do not end the word
    they stand in. *)
Theorem parse_handwriting_skips_illegible s :
  isspace space = true ->
  parse_handwriting (List.filter legible s) = parse_handwriting s.
Proof.
  intros Hspace. rewrite !parse_handwriting_words by done.
  assert (List.filter (fun c => isalpha c || isspace c)
            (replace underscore space (replace hyphen space (List.filter legible s)))
          = List.filter (fun c => isalpha c || isspace c)
              (replace underscore space (replace hyphen space s))) as ->; [|done].
  unfold replace. rewrite <- !list_fmap_compose.
  apply filter_fmap_filter. intros c. unfold legible. simpl.
  destruct (c =? hyphen)%N; [by rewrite orb_true_r|].
  destruct (c =? underscore)%N; [by rewrite orb_true_r|].
  by rewrite !orb_false_r.
Qed.

End Words.

(** *** Basic Latin input *)

Lemma ascii_letter_cases c :
  ascii_isalpha c = true ->
  is_ascii c = true /\ ascii_isspace c = false /\
  (c =? hyphen)%N = false /\ (c =? underscore)%N = false /\
  ascii_isupper (ascii_upper c) = true /\ ascii_islower (ascii_lower c) = true.
Proof.
  unfold ascii_isalpha, ascii_isspace, ascii_upper, ascii_lower, ascii_isupper,
    ascii_islower, is_ascii, hyphen, underscore.
  intros Hc.
  destruct (N.leb_spec 65 c), (N.leb_spec c 90), (N.leb_spec 97 c),
    (N.leb_spec c 122); simpl in *; try done;
    repeat split;
    rewrite ?andb_true_iff, ?orb_false_iff, ?andb_false_iff, ?N.leb_le, ?N.leb_gt,
      ?N.ltb_lt, ?N.eqb_neq; lia.
Qed.

Lemma ascii_upper_fixed c : ascii_isupper c = true -> ascii_upper c = c.
Proof.
  unfold ascii_upper, ascii_isupper, ascii_islower.
  intros [H1%N.leb_le H2%N.leb_le]%andb_true_iff.
  destruct (N.leb_spec 97 c); simpl; [lia | done].
Qed.

Lemma ascii_lower_fixed c : ascii_islower c = true -> ascii_lower c = c.
Proof.
  unfold ascii_lower, ascii_isupper, ascii_islower.
  intros [H1%N.leb_le H2%N.leb_le]%andb_true_iff.
  destruct (N.leb_spec 65 c), (N.leb_spec c 90); simpl; try done; lia.
Qed.

Lemma title_case_letters w :
  title_case w = true -> w <> [] /\ Forall (fun c => ascii_isalpha c = true) w.
Proof.
  destruct w as [|c rest]; [done|]. simpl.
  intros [Hc Hrest]%andb_true_iff. split; [done|]. constructor.
  - unfold ascii_isalpha. by rewrite Hc.
  - apply Forall_forall. intros c' Hc'.
    rewrite forallb_forall in Hrest. unfold ascii_isalpha.
    rewrite (Hrest c'); [by rewrite orb_true_r|]. by apply list_elem_of_In.
Qed.

Section BasicLatin.
Context {U : UnicodeData}.
Hypothesis HU : ascii_compatible U.

Lemma lower_ascii (f : nat -> char -> str) rest :
  (forall i c, is_ascii c = true -> f i c = [ascii_lower c]) ->
  Forall (fun c => is_ascii c = true) rest ->
  mjoin (imap f rest) = ascii_lower <$> rest.
Proof.
  intros Hf Hrest. revert f Hf.
  induction Hrest as [|c rest Hc _ IH]; intros f Hf; [done|].
  simpl. rewrite (Hf 0%nat c Hc). simpl. f_equal.
  apply IH. intros i c' Hc'. by apply Hf.
Qed.

Lemma capitalize_ascii c rest :
  Forall (fun c => is_ascii c = true) (c :: rest) ->
  capitalize (c :: rest) = ascii_upper c :: (ascii_lower <$> rest).
Proof.
  intros [Hc Hrest]%Forall_cons. simpl.
  rewrite (compat_totitle U HU c Hc). simpl. f_equal.
  apply lower_ascii; [|done]. intros i c' Hc'. by apply (compat_lower U HU).
Qed.

Lemma capitalize_title_case w :
  w <> [] -> Forall (fun c => is_ascii c = true /\ ascii_isalpha c = true) w ->
  title_case (capitalize w) = true.
Proof.
  intros Hne Hw. destruct w as [|c rest]; [done|].
  rewrite capitalize_ascii by (eapply Forall_impl; [exact Hw|]; by intros ? [? _]).
  apply Forall_cons in Hw as [[_ Hc] Hrest]. simpl.
  apply andb_true_iff. split; [by apply ascii_letter_cases|].
  apply forallb_forall. intros c' Hc'%list_elem_of_In.
  apply list_elem_of_fmap in Hc' as (c0 & -> & Hc0).
  rewrite Forall_forall in Hrest. destruct (Hrest c0 Hc0) as [_ Hc0'].
  by apply ascii_letter_cases.
Qed.

Lemma capitalize_fixed w : title_case w = true -> capitalize w = w.
Proof.
  intros Hw. destruct (title_case_letters w Hw) as [_ Hletters].
  destruct w as [|c rest]; [done|].
  rewrite capitalize_ascii
    by (eapply Forall_impl; [exact Hletters|]; intros ? ?; by apply ascii_letter_cases).
  simpl in Hw. apply andb_true_iff in Hw as [Hc Hrest].
  rewrite (ascii_upper_fixed c Hc). f_equal.
  rewrite forallb_forall in Hrest.
  transitivity (id <$> rest); [|by rewrite list_fmap_id].
  apply list_fmap_ext. intros _ c' Hc'%list_elem_of_lookup_2.
  apply ascii_lower_fixed, Hrest. by apply list_elem_of_In.
Qed.

(** The words of an accepted Basic Latin input. *)
Lemma parse_handwriting_ascii_words s r :
  Forall (fun c => is_ascii c = true) s ->
  parse_handwriting s = Some r ->
  exists words,
    words <> [] /\ Forall (fun w => title_case w = true) words /\
    r = join [space] words.
Proof.
  intros Hs. unfold parse_handwriting.
  destruct (_ || _); [done|]. cbv zeta.
  set (replaced := replace underscore space (replace hyphen space s)).
  set (filtered := List.filter (fun c => isalpha c || isspace c) replaced).
  assert (Forall (fun c => is_ascii c = true) replaced) as Hrep
    by (apply replace_ascii; [done|]; by apply replace_ascii).
  assert (Forall (fun c => is_ascii c = true /\ isalpha c || isspace c = true)
            filtered) as Hfil.
  { unfold filtered. clear -Hrep. induction Hrep as [|c l Hc _ IH]; simpl; [done|].
    destruct (isalpha c || isspace c) eqn:Hkeep; [by constructor | done]. }
  pose proof (split_from_words _ [] (strip filtered) (Forall_nil_2 _)
                (Forall_strip _ _ Hfil)) as Hwords.
  unfold split. revert Hwords.
  destruct (split_from [] (strip filtered)) as [|w ws]; intros Hwords; [done|].
  intros [= <-]. exists (capitalize <$> w :: ws). split; [done|]. split; [|done].
  apply Forall_fmap. eapply Forall_impl; [exact Hwords|].
  intros w' [Hne Hw']. apply capitalize_title_case; [done|].
  eapply Forall_impl; [exact Hw'|]. intros c [[Hc Hor] Hsp].
  rewrite Hsp, orb_false_r in Hor. split; [done|].
  by rewrite <- (compat_isalpha U HU c Hc).
Qed.

Lemma split_from_word cur w s :
  Forall (fun c => isspace c = false) w ->
  split_from cur (w ++ s) = split_from (reverse w ++ cur) s.
Proof.
  intros Hw. revert cur. induction Hw as [|c w Hc _ IH]; intros cur; [done|].
  simpl. rewrite Hc, IH, reverse_cons, <- app_assoc. done.
Qed.

Lemma split_from_space cur c s :
  isspace c = true ->
  split_from cur (c :: s) =
    match cur with
    | [] => split_from [] s
    | _ => reverse cur :: split_from [] s
    end.
Proof. intros Hc. simpl. by rewrite Hc. Qed.

Lemma split_join words :
  isspace space = true ->
  Forall (fun w => w <> [] /\ Forall (fun c => isspace c = false) w) words ->
  split (join [space] words) = words.
Proof.
  intros Hspace Hwords. unfold split.
  induction Hwords as [|w ws [Hne Hw] Hws IH]; [done|].
  assert (reverse w <> []) as Hrev by (by apply reverse_not_nil).
  destruct ws as [|w' ws].
  - simpl. rewrite <- (app_nil_r w) at 1. rewrite split_from_word by done.
    rewrite app_nil_r. simpl. destruct (reverse w) eqn:Hr; [done|].
    by rewrite <- Hr, reverse_involutive.
  - change (join [space] (w :: w' :: ws))
      with (w ++ space :: join [space] (w' :: ws)).
    rewrite split_from_word by done. rewrite app_nil_r.
    rewrite (split_from_space _ space) by done.
    destruct (reverse w) eqn:Hr; [done|].
    rewrite <- Hr, reverse_involutive. by rewrite IH.
Qed.

Lemma join_letters words :
  Forall (fun w => title_case w = true) words ->
  Forall (fun c => ascii_isalpha c = true \/ c = space) (join [space] words).
Proof.
  induction 1 as [|w ws Hw _ IH]; [done|].
  assert (Forall (fun c => ascii_isalpha c = true \/ c = space) w) as Hw'.
  { destruct (title_case_letters w Hw) as [_ Hl].
    eapply Forall_impl; [exact Hl|]. auto. }
  destruct ws as [|w' ws]; [done|].
  change (join [space] (w :: w' :: ws)) with (w ++ [space] ++ join [space] (w' :: ws)).
  apply Forall_app. split; [done|]. apply Forall_app. split; [|done].
  constructor; [by right | done].
Qed.

(** Title-case words joined by single spaces are left as they are. *)
Lemma parse_handwriting_title_words words :
  words <> [] -> Forall (fun w => title_case w = true) words ->
  parse_handwriting (join [space] words) = Some (join [space] words).
Proof.
  intros Hne Hwords.
  assert (isspace space = true) as Hspace by (by rewrite (compat_isspace U HU)).
  rewrite parse_handwriting_words by done.
  pose proof (join_letters words Hwords) as Hchars.
  assert (replace underscore space (replace hyphen space (join [space] words))
          = join [space] words) as ->.
  { unfold replace. rewrite <- list_fmap_compose.
    transitivity (id <$> join [space] words); [|by rewrite list_fmap_id].
    apply list_fmap_ext. intros _ c Hc%list_elem_of_lookup_2.
    rewrite Forall_forall in Hchars. simpl.
    destruct (Hchars c Hc) as [Hl | ->]; [|done].
    destruct (ascii_letter_cases c Hl) as (_ & _ & -> & -> & _). done. }
  assert (List.filter (fun c => isalpha c || isspace c) (join [space] words)
          = join [space] words) as ->.
  { clear -Hchars HU Hspace. induction Hchars as [|c l Hc _ IH]; [done|].
    simpl. rewrite IH.
    destruct Hc as [Hl | ->]; [|by rewrite Hspace, orb_true_r].
    destruct (ascii_letter_cases c Hl) as (Ha & _).
    by rewrite (compat_isalpha U HU c Ha), Hl. }
  rewrite split_join; [|done|].
  - destruct words as [|w ws]; [done|]. do 2 f_equal.
    transitivity (id <$> w :: ws); [|by rewrite list_fmap_id].
    apply list_fmap_ext. intros _ w' Hw'%list_elem_of_lookup_2.
    rewrite Forall_forall in Hwords. by apply capitalize_fixed, Hwords.
  - eapply Forall_impl; [exact Hwords|]. intros w Hw.
    destruct (title_case_letters w Hw) as [Hn Hl]. split; [done|].
    eapply Forall_impl; [exact Hl|]. intros c Hc.
    destruct (ascii_letter_cases c Hc) as (Ha & Hsp & _).
    by rewrite (compat_isspace U HU c Ha).
Qed.

End BasicLatin.

(** X4: On Basic Latin input, the result is a list of words, each a capital
    letter followed by small letters, with one space between two words. *)
Theorem parse_handwriting_title_case (U : UnicodeData) s r :
  ascii_compatible U ->
  Forall (fun c => is_ascii c = true) s ->
  parse_handwriting s = Some r ->
  exists words,
    words <> [] /\ Forall (fun w => title_case w = true) words /\
    r = join [space] words.
Proof. intros HU. by apply parse_handwriting_ascii_words. Qed.

(** X5: On Basic Latin input, formatting a formatted name changes nothing. *)
Theorem parse_handwriting_idempotent (U : UnicodeData) s r :
  ascii_compatible U ->
  Forall (fun c => is_ascii c = true) s ->
  parse_handwriting s = Some r ->
  parse_handwriting r = Some r.
Proof.
  intros HU Hs Hr.
  destruct (parse_handwriting_ascii_words HU s r Hs Hr) as (words & Hne & Hwords & ->).
  by apply parse_handwriting_title_words.
Qed.

(** ** The [/parse] route and more on creating entries *)

Section ParseRoute.
Context {U : UnicodeData}.

Lemma parse_handwriting_any_none v :
  isspace space = true ->
  parse_handwriting_any v = Ret None <->
  match v with
  | JStr s => Forall (fun c => word_char c = false) s
  | _ => truthy v = false
  end.
Proof.
  intros Hspace. destruct v; simpl; try done.
  - destruct b; split; congruence.
  - destruct (n =? 0); split; simpl; congruence.
  - rewrite <- parse_handwriting_none by done. split; congruence.
  - destruct (bool_decide _); split; simpl; congruence.
  - destruct (bool_decide _); split; simpl; congruence.
Qed.

(** X6: A JSON object is answered 400 exactly when its [input] is missing, is
    a string without a word character, or is another falsy value. *)
Theorem parse_bad_request d :
  isspace space = true ->
  parse (JObj d) = Parse_400 <->
  match dict_get (u "input") d with
  | None => True
  | Some (JStr s) => Forall (fun c => word_char c = false) s
  | Some v => truthy v = false
  end.
Proof.
  intros Hspace. unfold parse. simpl.
  pose proof (parse_handwriting_any_none
                (default (JStr []) (dict_get (u "input") d)) Hspace) as Hnone.
  destruct (dict_get (u "input") d) as [v|]; simpl in *.
  - destruct (parse_handwriting_any v) as [[r|]|e] eqn:Hv.
    + split; [done|]. intros H. destruct v; apply Hnone in H; done.
    + split; [|done]. intros _. destruct v; by apply Hnone.
    + split; [done|]. intros H. destruct v; apply Hnone in H; done.
  - done.
Qed.

(** X7: A body that is not a JSON object makes the route fail with an
    [AttributeError]; so does an [input] that is neither a string nor
    falsy. *)
Theorem parse_uncaught data e :
  parse data = Parse_uncaught e <->
  e = AttributeError /\
  match data with
  | JObj d =>
      match dict_get (u "input") d with
      | None | Some (JStr _) => False
      | Some v => truthy v = true
      end
  | _ => True
  end.
Proof.
  unfold parse. destruct data as [| | | | |d]; simpl;
    try (split; [by intros [= <-] | by intros [-> _]]).
  destruct (dict_get (u "input") d) as [v|]; simpl.
  - destruct v; simpl.
    + split; [done | by intros [_ ?]].
    + destruct b; simpl; split; try done; try (by intros [= <-]);
        try (by intros [-> _]); by intros [_ ?].
    + destruct (n =? 0); simpl; split; try done; try (by intros [= <-]);
        try (by intros [-> _]); by intros [_ ?].
    + destruct (parse_handwriting s); split; try done; by intros [_ ?].
    + destruct (bool_decide _); simpl; split; try done; try (by intros [= <-]);
        try (by intros [-> _]); by intros [_ ?].
    + destruct (bool_decide _); simpl; split; try done; try (by intros [= <-]);
        try (by intros [-> _]); by intros [_ ?].
  - split; [done | by intros [_ ?]].
Qed.

End ParseRoute.

Section Requests.
Context {U : UnicodeData}.

(** *** Inverting the validators *)

Lemma eq_str_eq v s : eq_str v s = true -> v = JStr s.
Proof. destruct v; simpl; try done. by intros ->%bool_decide_eq_true. Qed.

Lemma validate_entry_data_non_object recipe_store body :
  (forall d, body <> JObj d) ->
  validate_entry_data recipe_store body = Ret None \/
  validate_entry_data recipe_store body = Raise TypeError.
Proof.
  intros Hbody. unfold validate_entry_data. destruct body as [|b|n|s|l|d]; simpl.
  - by left.
  - destruct b; simpl; [by right | by left].
  - destruct (n =? 0); simpl; [by left | by right].
  - destruct (bool_decide (s = [])); simpl; [by left|].
    destruct (is_substring (u "type") s); simpl; [|by left].
    destruct (is_substring (u "name") s); simpl; [by right | by left].
  - destruct (bool_decide (length l = 0%nat)); simpl; [by left|].
    destruct (existsb _ l); simpl; [|by left].
    destruct (existsb _ l); simpl; [by right | by left].
  - by destruct (Hbody d).
Qed.

Lemma validate_entry_data_is_object recipe_store body r :
  validate_entry_data recipe_store body = r ->
  r <> Ret None -> r <> Raise TypeError ->
  exists d, body = JObj d.
Proof.
  intros Hv Hnone Hraise.
  assert ((exists d, body = JObj d) \/ forall d, body <> JObj d) as [|Hbody]
    by (destruct body; eauto). { done. }
  destruct (validate_entry_data_non_object recipe_store body Hbody); congruence.
Qed.

(** The validator on a dictionary, test by test. *)
Lemma validate_entry_data_object recipe_store d :
  validate_entry_data recipe_store (JObj d) =
    match dict_get (u "type") d, dict_get (u "name") d with
    | Some ty, Some raw =>
        k ← hash_key raw;
        if bool_decide (is_Some (recipe_store !! k)) then Ret None
        else if eq_str ty (u "ingredient") then process_ingredient (JObj d)
        else if eq_str ty (u "recipe") then process_recipe (JObj d)
        else Ret None
    | _, _ => Ret None
    end.
Proof.
  unfold validate_entry_data.
  destruct (dict_get (u "type") d) as [ty|] eqn:Hty.
  - rewrite (dict_get_truthy _ _ _ Hty). simpl. rewrite Hty. simpl.
    destruct (dict_get (u "name") d) as [raw|] eqn:Hname; simpl; [|done].
    destruct (hash_key raw); simpl; [|done]. done.
  - destruct (truthy (JObj d)); simpl; [|done]. by rewrite Hty.
Qed.

Lemma process_ingredient_object d :
  process_ingredient (JObj d) =
    match dict_get (u "cookTime") d, dict_get (u "name") d with
    | Some c, Some raw =>
        match as_int c with
        | Some cook_time =>
            if cook_time <? 0 then Ret None
            else n ← display_name raw;
                 Ret (Some (mkEntryData raw (Ingredient n cook_time)))
        | None => Ret None
        end
    | Some c, None =>
        match as_int c with
        | Some cook_time => if cook_time <? 0 then Ret None else Raise KeyError
        | None => Ret None
        end
    | None, _ => Ret None
    end.
Proof.
  unfold process_ingredient. simpl.
  destruct (dict_get (u "cookTime") d) as [c|]; simpl; [|done].
  destruct (as_int c) as [t|]; [|by destruct (dict_get (u "name") d)].
  destruct (t <? 0); [by destruct (dict_get (u "name") d)|].
  by destruct (dict_get (u "name") d).
Qed.

Lemma process_recipe_object d :
  process_recipe (JObj d) =
    match dict_get (u "requiredItems") d with
    | Some (JList items) =>
        checked ← process_required_items items ∅ [];
        match checked with
        | None => Ret None
        | Some required_items =>
            match dict_get (u "name") d with
            | Some raw =>
                n ← display_name raw;
                Ret (Some (mkEntryData raw (Recipe n required_items)))
            | None => Raise KeyError
            end
        end
    | _ => Ret None
    end.
Proof.
  unfold process_recipe. simpl.
  destruct (dict_get (u "requiredItems") d) as [[| | | |items|]|]; simpl; try done.
  destruct (process_required_items items ∅ []) as [[ris|]|]; simpl; try done.
  by destruct (dict_get (u "name") d).
Qed.

(** *** The loop over the required items *)

Lemma process_required_items_raise items seen acc e :
  process_required_items items seen acc = Raise e -> e = TypeError.
Proof.
  revert seen acc. induction items as [|item items IH]; intros seen acc; simpl; [done|].
  destruct item as [| | | | |d]; try done.
  destruct (dict_get (u "name") d) as [n|]; [|done].
  destruct (dict_get (u "quantity") d) as [q|]; [|done].
  destruct (as_int q) as [qz|]; [|done].
  destruct (qz <=? 0); [done|].
  destruct (hash_key n) as [k|x] eqn:Hk; simpl.
  - case_bool_decide; [done|]. apply IH.
  - intros [= <-]. by eapply hash_key_raises.
Qed.

Lemma process_required_items_malformed items seen acc :
  existsb malformed_item items = true ->
  items_rejected (process_required_items items seen acc).
Proof.
  revert seen acc. induction items as [|item items IH]; intros seen acc; simpl; [done|].
  unfold malformed_item at 1.
  destruct item as [| | | | |d]; try (intros _; by left).
  destruct (dict_get (u "name") d) as [n|]; [|intros _; by left].
  destruct (dict_get (u "quantity") d) as [q|]; [|intros _; by left].
  destruct (as_int q) as [qz|]; [|intros _; by left].
  destruct (qz <=? 0); [intros _; by left|]. simpl. intros Hrest.
  destruct (hash_key n) as [k|x] eqn:Hk; simpl.
  - case_bool_decide; [by left|]. by apply IH.
  - right. by rewrite (hash_key_raises _ _ Hk).
Qed.

(** The loop returns a list exactly when every item is a dictionary with
    a name and a positive integer quantity, the names are hashable and no
    name comes twice (or is in [seen_items] already); the list then holds
    the items in the order of the request. *)
Lemma process_required_items_spec items seen acc required_items :
  process_required_items items seen acc = Ret (Some required_items) <->
  exists new,
    required_items = acc ++ new /\
    Forall2 item_of items new /\
    Forall valid_item new /\
    NoDup ((fun req_item => hash_key (item_name req_item)) <$> new) /\
    forall k, Ret k ∈ (fun req_item => hash_key (item_name req_item)) <$> new ->
              k ∉ seen.
Proof.
  revert seen acc. induction items as [|item items IH]; intros seen acc; simpl.
  { split.
    - intros [= <-]. exists []. rewrite app_nil_r.
      repeat split; try constructor. by intros k ?%elem_of_nil.
    - intros (new & -> & ->%Forall2_nil_inv_l & _). by rewrite app_nil_r. }
  split.
  - destruct item as [| | | | |d]; try done.
    destruct (dict_get (u "name") d) as [n|] eqn:Hn; [|done].
    destruct (dict_get (u "quantity") d) as [q|] eqn:Hq; [|done].
    destruct (as_int q) as [qz|] eqn:Hqz; [|done].
    destruct (qz <=? 0) eqn:Hpos; [done|].
    destruct (hash_key n) as [k|] eqn:Hk; simpl; [|done].
    case_bool_decide as Hfresh; [done|].
    intros (new & -> & Hitems & Hvalid & Hnd & Hseen)%IH.
    exists (mkRequiredItem n qz :: new). rewrite <- app_assoc.
    split; [done|]. split; [|split; [|split]].
    + constructor; [|done]. by exists d, q.
    + constructor; [|done]. split; simpl; [by exists k | lia].
    + rewrite fmap_cons. simpl. rewrite Hk. constructor; [|done].
      intros Hin. apply (Hseen k Hin), elem_of_union. left. by apply elem_of_singleton.
    + intros k'. rewrite fmap_cons. simpl. rewrite Hk.
      intros [[= ->]|Hin]%elem_of_cons; [done|].
      intros Hk'. apply (Hseen k' Hin), elem_of_union. by right.
  - intros (new & -> & Hitems & Hvalid & Hnd & Hseen).
    apply Forall2_cons_inv_l in Hitems as (x & new' & Hx & Hitems & ->).
    destruct Hx as (d & q & -> & Hn & Hq & Hqz).
    apply Forall_cons in Hvalid as [[[k Hk] Hpos] Hvalid].
    rewrite fmap_cons in Hnd, Hseen. rewrite Hk in Hnd, Hseen.
    apply NoDup_cons in Hnd as [Hk' Hnd].
    rewrite Hn, Hq, Hqz.
    destruct (quantity x <=? 0) eqn:Hle; [lia|].
    rewrite Hk. simpl.
    rewrite bool_decide_eq_false_2 by (apply Hseen; by left).
    apply IH. exists new'. split.
    + rewrite <- app_assoc. by destruct x.
    + repeat split; try done. intros k0 Hk0 [->%elem_of_singleton|Hin]%elem_of_union.
      * done.
      * apply (Hseen k0); [by right | done].
Qed.

(** *** What is accepted *)

Lemma create_entry_ok_inv recipe_store body store' :
  create_entry recipe_store body = (store', OK_200) ->
  exists d raw k e,
    body = JObj d /\
    dict_get (u "name") d = Some raw /\
    hash_key raw = Ret k /\
    recipe_store !! k = None /\
    entry_of d raw e /\
    valid_entry e /\
    store' = <[k := e]> recipe_store.
Proof.
  intros [[? _]|(ed & k & _ & Hv & Hk & ->)]%create_entry_inv; [done|].
  pose proof (validate_entry_data_valid _ _ _ Hv) as Hvalid.
  destruct (validate_entry_data_is_object _ _ _ Hv) as [d ->]; [done..|].
  exists d. rewrite validate_entry_data_object in Hv.
  destruct (dict_get (u "type") d) as [ty|] eqn:Hty; [|done].
  destruct (dict_get (u "name") d) as [raw|] eqn:Hname; [|done].
  destruct (hash_key raw) as [k0|] eqn:Hk0; simpl in Hv; [|done].
  case_bool_decide as Hfree; [done|].
  assert (recipe_store !! k0 = None) as Hnone.
  { destruct (recipe_store !! k0) eqn:Hl; [|done]. destruct Hfree. eauto. }
  destruct (eq_str ty (u "ingredient")) eqn:Hi.
  { apply eq_str_eq in Hi as ->. rewrite process_ingredient_object, Hname in Hv.
    destruct (dict_get (u "cookTime") d) as [c|] eqn:Hc; [|done].
    destruct (as_int c) as [t|] eqn:Ht; [|done].
    destruct (t <? 0); [done|].
    destruct (display_name raw) as [n|] eqn:Hn; simpl in Hv; [|done].
    injection Hv as <-. simpl in *. rewrite Hk0 in Hk. injection Hk as <-.
    exists raw, k0, (Ingredient n t). destruct Hvalid as [? ?].
    repeat split; eauto. }
  destruct (eq_str ty (u "recipe")) eqn:Hr; [|done].
  apply eq_str_eq in Hr as ->. rewrite process_recipe_object, Hname in Hv.
  destruct (dict_get (u "requiredItems") d) as [[| | | |items|]|] eqn:Hitems; try done.
  destruct (process_required_items items ∅ []) as [[ris|]|] eqn:Hris;
    simpl in Hv; try done.
  destruct (display_name raw) as [n|] eqn:Hn; simpl in Hv; [|done].
  injection Hv as <-. simpl in *. rewrite Hk0 in Hk. injection Hk as <-.
  apply process_required_items_spec in Hris as (new & -> & Hof & _).
  exists raw, k0, (Recipe n new). destruct Hvalid as (? & ? & ?).
  repeat split; eauto.
Qed.



(** X9: A request never replaces or removes an entry: the store after it holds
    every entry it held before, one more after a 200 and no other
    otherwise. *)
Theorem create_entry_only_adds recipe_store body :
  recipe_store ⊆ (create_entry recipe_store body).1 /\
  ((create_entry recipe_store body).2 = OK_200 ->
   size (create_entry recipe_store body).1 = S (size recipe_store)) /\
  ((create_entry recipe_store body).2 <> OK_200 ->
   (create_entry recipe_store body).1 = recipe_store).
Proof.
  destruct (create_entry recipe_store body) as [store' st] eqn:Hc. simpl.
  destruct (create_entry_inv _ _ _ _ Hc) as [[Hst ->]|(ed & k0 & -> & _)].
  - done.
  - apply create_entry_ok_inv in Hc
      as (d & raw & k & e & _ & _ & _ & Hnone & _ & _ & ->).
    split; [by apply insert_subseteq|]. split; [|done].
    intros _. by apply map_size_insert_None.
Qed.

(** *** What is rejected *)

(** X10: A body that is not a dictionary, or that lacks [type] or [name], is
    answered 400 and leaves the store as it is. *)
Theorem incomplete_body_rejected recipe_store body :
  match body with
  | JObj d => dict_get (u "type") d = None \/ dict_get (u "name") d = None
  | _ => True
  end ->
  create_entry recipe_store body = (recipe_store, Bad_Request_400).
Proof.
  intros Hbody.
  assert (validate_entry_data recipe_store body = Ret None \/
          validate_entry_data recipe_store body = Raise TypeError) as [Hv|Hv].
  { destruct body as [| | | | |d];
      try (apply validate_entry_data_non_object; intros; discriminate).
    left. rewrite validate_entry_data_object.
    destruct Hbody as [-> | ->]; [done|]. by destruct (dict_get (u "type") d). }
  - by apply create_entry_none.
  - by apply create_entry_type_error.
Qed.

(** X11: An ingredient whose [cookTime] is missing, is not an integer or is
    negative is answered 400 and leaves the store as it is. *)
Theorem invalid_cook_time_rejected recipe_store d :
  dict_get (u "type") d = Some (JStr (u "ingredient")) ->
  invalid_cook_time d = true ->
  create_entry recipe_store (JObj d) = (recipe_store, Bad_Request_400).
Proof.
  intros Hty Hbad.
  assert (process_ingredient (JObj d) = Ret None) as Hp.
  { rewrite process_ingredient_object. unfold invalid_cook_time in Hbad.
    destruct (dict_get (u "cookTime") d) as [c|]; [|done].
    destruct (as_int c) as [t|]; [|by destruct (dict_get (u "name") d)].
    rewrite Hbad. by destruct (dict_get (u "name") d). }
  assert (validate_entry_data recipe_store (JObj d) = Ret None \/
          validate_entry_data recipe_store (JObj d) = Raise TypeError) as [Hv|Hv].
  { rewrite validate_entry_data_object, Hty.
    destruct (dict_get (u "name") d) as [raw|]; [|by left].
    destruct (hash_key raw) as [k|e] eqn:Hk; bind_step.
    - left. case_bool_decide; [done|]. by rewrite eq_str_true.
    - right. by rewrite (hash_key_raises _ _ Hk). }
  - by apply create_entry_none.
  - by apply create_entry_type_error.
Qed.

(** X12: A recipe whose [requiredItems] is missing or is not a list, or holds
    an item that is not a dictionary with a name and a positive integer
    quantity, is answered 400 and leaves the store as it is. *)
Theorem malformed_required_items_rejected recipe_store d :
  dict_get (u "type") d = Some (JStr (u "recipe")) ->
  match dict_get (u "requiredItems") d with
  | Some (JList items) => existsb malformed_item items = true
  | _ => True
  end ->
  create_entry recipe_store (JObj d) = (recipe_store, Bad_Request_400).
Proof.
  intros Hty Hbad.
  assert (process_recipe (JObj d) = Ret None \/
          process_recipe (JObj d) = Raise TypeError) as Hp.
  { rewrite process_recipe_object.
    destruct (dict_get (u "requiredItems") d) as [[| | | |items|]|]; try by left.
    destruct (process_required_items_malformed items ∅ [] Hbad) as [-> | ->];
      [by left | by right]. }
  assert (validate_entry_data recipe_store (JObj d) = Ret None \/
          validate_entry_data recipe_store (JObj d) = Raise TypeError) as [Hv|Hv].
  { rewrite validate_entry_data_object, Hty.
    destruct (dict_get (u "name") d) as [raw|]; [|by left].
    destruct (hash_key raw) as [k|e] eqn:Hk; bind_step.
    - case_bool_decide; [by left|].
      by rewrite recipe_is_not_ingredient, eq_str_true.
    - right. by rewrite (hash_key_raises _ _ Hk). }
  - by apply create_entry_none.
  - by apply create_entry_type_error.
Qed.

(** *** What is not caught *)

Lemma parse_handwriting_any_raise v e :
  parse_handwriting_any v = Raise e <->
  e = AttributeError /\ truthy v = true /\ forall s, v <> JStr s.
Proof.
  destruct v; simpl.
  - split; [done | by intros (_ & ? & _)].
  - destruct b; split; try done; try (by intros [= <-]); try (by intros (-> & _));
      by intros (_ & ? & _).
  - destruct (n =? 0); simpl; split; try done; try (by intros [= <-]);
      try (by intros (-> & _)); by intros (_ & ? & _).
  - split; [done|]. intros (_ & _ & Hs). by destruct (Hs s).
  - destruct (bool_decide _); simpl; split; try done; try (by intros [= <-]);
      try (by intros (-> & _)); by intros (_ & ? & _).
  - destruct (bool_decide _); simpl; split; try done; try (by intros [= <-]);
      try (by intros (-> & _)); by intros (_ & ? & _).
Qed.

Lemma display_name_raise raw e :
  display_name raw = Raise e <-> parse_handwriting_any raw = Raise e.
Proof.
  unfold display_name.
  destruct (parse_handwriting_any raw) as [[s|]|]; cbn -[truthy];
    [|split; congruence..].
  destruct (truthy (JStr s)); split; congruence.
Qed.

(** X13: The only exception that escapes [create_entry] is the [AttributeError]
    of [parse_handwriting] on a name that is neither a string nor falsy;
    the store is then left as it is.  It does escape for every ingredient
    with such a name, a free key and a valid cooking time. *)
Theorem create_entry_uncaught recipe_store :
  (forall body store' e,
      create_entry recipe_store body = (store', Uncaught e) ->
      store' = recipe_store /\ e = AttributeError /\
      exists d raw, body = JObj d /\ dict_get (u "name") d = Some raw /\
                    truthy raw = true /\ forall s, raw <> JStr s) /\
  (forall d raw k c t,
      dict_get (u "type") d = Some (JStr (u "ingredient")) ->
      dict_get (u "name") d = Some raw ->
      truthy raw = true -> (forall s, raw <> JStr s) ->
      hash_key raw = Ret k -> recipe_store !! k = None ->
      dict_get (u "cookTime") d = Some c -> as_int c = Some t -> 0 <= t ->
      create_entry recipe_store (JObj d) = (recipe_store, Uncaught AttributeError)).
Proof.
  split.
  - intros body store' e. unfold create_entry.
    destruct (validate_entry_data recipe_store body) as [[ed|]|x] eqn:Hv; simpl.
    { destruct (hash_key (raw_name ed)) as [k|x] eqn:Hk; simpl; [done|].
      by rewrite (hash_key_raises _ _ Hk). }
    { done. }
    destruct (caught_by_create_entry x) eqn:Hx; [done|]. intros [= <- <-].
    split; [done|].
    destruct (validate_entry_data_is_object _ _ _ Hv) as [d ->];
      [done | by intros [= ->] |].
    rewrite validate_entry_data_object in Hv.
    destruct (dict_get (u "type") d) as [ty|]; [|done].
    destruct (dict_get (u "name") d) as [raw|] eqn:Hname; [|done].
    destruct (hash_key raw) as [k|y] eqn:Hk; simpl in Hv;
      [|injection Hv as <-; by rewrite (hash_key_raises _ _ Hk) in Hx].
    case_bool_decide; [done|].
    assert (display_name raw = Raise x) as Hd.
    { destruct (eq_str ty (u "ingredient")).
      - rewrite process_ingredient_object, Hname in Hv.
        destruct (dict_get (u "cookTime") d) as [c|]; [|done].
        destruct (as_int c) as [t|]; [|done]. destruct (t <? 0); [done|].
        destruct (display_name raw); simpl in Hv; [done | by injection Hv as ->].
      - destruct (eq_str ty (u "recipe")); [|done].
        rewrite process_recipe_object, Hname in Hv.
        destruct (dict_get (u "requiredItems") d) as [[| | | |items|]|]; try done.
        destruct (process_required_items items ∅ []) as [[ris|]|y] eqn:Hris;
          simpl in Hv; try done.
        + destruct (display_name raw); simpl in Hv; [done | by injection Hv as ->].
        + injection Hv as <-.
          by rewrite (process_required_items_raise _ _ _ _ Hris) in Hx. }
    apply display_name_raise, parse_handwriting_any_raise in Hd as (-> & Ht & Hs).
    split; [done|]. by exists d, raw.
  - intros d raw k c t Hty Hname Htruthy Hstr Hk Hnone Hc Ht Hpos.
    unfold create_entry.
    rewrite (validate_entry_data_dict _ _ _ _ _ Hty Hname Hk).
    rewrite bool_decide_eq_false_2 by (rewrite Hnone; by intros [? ?]).
    rewrite eq_str_true, process_ingredient_object, Hc, Hname. bind_step. rewrite Ht.
    destruct (t <? 0) eqn:Hneg; [lia|].
    assert (display_name raw = Raise AttributeError) as ->; [|done].
    by apply display_name_raise, parse_handwriting_any_raise.
Qed.

(** *** Sequences of requests *)

Lemma after_requests_valid recipe_store bodies :
  valid_store recipe_store -> valid_store (after_requests recipe_store bodies).
Proof.
  revert recipe_store. induction bodies as [|body bodies IH]; intros rs Hvalid; [done|].
  simpl. apply IH.
  destruct (create_entry rs body) as [store' st] eqn:Hc. simpl.
  by eapply create_entry_valid.
Qed.

(** X14: Whatever requests are made, starting from the empty store, every name
    in the store is hashable, no cooking time is negative, every quantity
    is positive and no recipe requires a name twice. *)
Theorem store_always_valid bodies : valid_store (after_requests ∅ bodies).
Proof. apply after_requests_valid. by intros k e ?%lookup_empty_Some. Qed.

End Requests.

(** ** More on summaries *)

(** *** The order of the ingredients *)

Lemma str_lt_total s t : str_lt s t = false -> s <> t -> str_lt t s = true.
Proof.
  revert t. induction s as [|x s IH]; intros [|y t]; simpl; try done.
  destruct (N.ltb_spec x y), (N.ltb_spec y x), (N.eqb_spec x y), (N.eqb_spec y x);
    simpl; try done; try lia.
  intros Hlt Hne. apply IH; [done|]. congruence.
Qed.

Lemma key_lt_total a b : key_lt a b = Ret false -> a <> b -> key_lt b a = Ret true.
Proof.
  destruct a as [|x|s], b as [|y|t]; simpl; try done.
  - intros [= H] Hne. f_equal. apply Z.ltb_lt. apply Z.ltb_ge in H.
    assert (x <> y) by congruence. lia.
  - intros [= H] Hne. f_equal. apply str_lt_total; [done | congruence].
Qed.

Lemma insert_sorted_ascending x l l' :
  ascending l -> x.1 ∉ l.*1 -> insert_sorted x l = Ret l' ->
  ascending l' /\ (head l' = Some x \/ (head l' = head l /\ l <> [])).
Proof.
  revert l'. induction l as [|y l IH]; intros l' Hasc Hx; simpl.
  { intros [= <-]. split; [done | by left]. }
  unfold item_lt. rewrite fmap_cons, not_elem_of_cons in Hx. destruct Hx as [Hxy Hx].
  rewrite bool_decide_eq_false_2 by done.
  destruct (key_lt x.1 y.1) as [[]|] eqn:Hlt; simpl; [| |done].
  - intros [= <-]. split; [|by left]. simpl. split; [done|]. exact Hasc.
  - destruct (insert_sorted x l) as [l''|] eqn:Hins; simpl; [|done].
    intros [= <-]. destruct Hasc as [Hhead Hasc].
    destruct (IH l'' Hasc Hx eq_refl) as [Hasc'' Hhd].
    split; [|by right]. simpl. split; [|done].
    destruct l'' as [|z l'']; [done|]. simpl in Hhd.
    destruct Hhd as [[= ->]|[Hz Hl]].
    + by apply key_lt_total.
    + destruct l as [|z' l]; [done|]. simpl in Hz. by injection Hz as ->.
Qed.

Lemma sorted_ascending l l' : NoDup l.*1 -> sorted l = Ret l' -> ascending l'.
Proof.
  revert l'. induction l as [|x l IH]; intros l' Hnd; simpl.
  { by intros [= <-]. }
  rewrite fmap_cons in Hnd. apply NoDup_cons in Hnd as [Hx Hnd].
  destruct (sorted l) as [s|] eqn:Hs; simpl; [|done].
  intros Hins. eapply insert_sorted_ascending; [by apply IH | | exact Hins].
  by rewrite (sorted_perm _ _ Hs).
Qed.

Lemma sorted_NoDup l l' : NoDup l.*1 -> sorted l = Ret l' -> NoDup l'.*1.
Proof. intros Hnd Hs. by rewrite (sorted_perm _ _ Hs). Qed.

(** What a 200 of the [/summary] route stands on. *)
Lemma summary_200_inv recipe_store fuel recipe_name data :
  summary recipe_store fuel recipe_name = Some (Summary_200 data) ->
  exists s n items,
    recipe_name = Some s /\ s <> [] /\
    recipe_store !! KStr s = Some (Recipe n items) /\
    calculate_recipe_summary recipe_store fuel (Recipe n items) = Some (Ret data).
Proof.
  unfold summary. destruct recipe_name as [s|]; [|done].
  destruct (negb (truthy (JStr s))) eqn:Hs; [done|].
  destruct (recipe_store !! KStr s) as [[|n items]|] eqn:Hl; try done.
  destruct (calculate_recipe_summary _ _ _) as [[d|]|] eqn:Hc; try done.
  intros [= <-]. exists s, n, items. repeat split; try done.
  intros ->. by vm_compute in Hs.
Qed.

Lemma summary_200_intro recipe_store fuel s n items data :
  s <> [] ->
  recipe_store !! KStr s = Some (Recipe n items) ->
  calculate_recipe_summary recipe_store fuel (Recipe n items) = Some (Ret data) ->
  summary recipe_store fuel (Some s) = Some (Summary_200 data).
Proof.
  intros Hs Hl Hc. unfold summary. simpl.
  rewrite bool_decide_eq_false_2 by done. simpl. by rewrite Hl, Hc.
Qed.

(** X15: The ingredients of a summary are listed in strictly ascending order
    of their names, each name once. *)
Theorem summary_ingredients_ascending recipe_store fuel recipe_name data :
  summary recipe_store fuel recipe_name = Some (Summary_200 data) ->
  ascending (ingredients data) /\ NoDup (ingredients data).*1.
Proof.
  intros (s & n & items & _ & _ & _ & Hc)%summary_200_inv.
  apply calculate_recipe_summary_ret in Hc as (st & _ & Hsorted & _).
  pose proof (NoDup_fst_map_to_list (ingredient_counts st)) as Hnd.
  split; [by eapply sorted_ascending | by eapply sorted_NoDup].
Qed.

(** *** What a valid store guarantees *)

Section Positive.
Variable recipe_store : store.
Hypothesis Hstore : valid_store recipe_store.


Lemma iteration_positive e m rest st st' :
  stack st = (e, m) :: rest ->
  positive_state st ->
  iteration recipe_store e m rest st = Ret st' ->
  positive_state st'.
Proof.
  intros Hs (Hstack & Hcounts & Htime). rewrite Hs in Hstack.
  apply Forall_cons in Hstack as [[Hvalid Hm] Hrest]. simpl in Hvalid, Hm.
  destruct e as [n ct|nm items].
  - simpl. destruct (hash_key n) as [k|]; simpl; [|done]. intros [= <-].
    destruct Hvalid as [_ Hct]. split; [done|]. simpl. split; [|nia].
    intros k' q. unfold counter_add, counter_get.
    rewrite lookup_insert. case_decide; [|by apply Hcounts].
    intros [= <-]. destruct (ingredient_counts st !! k) as [q0|] eqn:Hq0; simpl; [|lia].
    specialize (Hcounts k q0 Hq0). lia.
  - intros (l & Hl & ->)%iteration_recipe_inv. split; [|done]. simpl.
    apply Forall_app. split; [|done].
    destruct Hvalid as (_ & Hitems & _).
    apply Forall_forall. intros p Hp.
    apply list_elem_of_lookup in Hp as [i Hi].
    destruct (Forall2_lookup_r _ _ _ _ _ Hl Hi) as (x & Hx & Hres & Hq).
    apply resolve_some in Hres as (k & _ & Hk).
    split; [by eapply Hstore|].
    pose proof (Forall_lookup_1 _ _ _ _ Hitems Hx) as [_ Hpos]. rewrite Hq. nia.
Qed.

Lemma after_positive n st st' :
  positive_state st -> after recipe_store n st = Some st' -> positive_state st'.
Proof.
  revert st. induction n as [|n IH]; intros st Hst; simpl.
  { by intros [= <-]. }
  destruct (stack st) as [|[e m] rest] eqn:Hs; [done|].
  destruct (iteration recipe_store e m rest st) as [st1|] eqn:Hi; [|done].
  apply IH. by eapply iteration_positive.
Qed.

Lemma positive_summary_data fuel root data :
  valid_entry root ->
  calculate_recipe_summary recipe_store fuel root = Some (Ret data) ->
  0 <= cookTime data /\ Forall (fun p => 0 < p.2) (ingredients data).
Proof.
  intros Hroot (st & Hw & Hsorted & Htime & _)%calculate_recipe_summary_ret.
  apply while_stack_ret_finishes in Hw as (n & Hn & _).
  assert (positive_state (initial_state root)) as Hinit.
  { split; [|split]; simpl; [|done|done].
    constructor; [|done]. split; [done | simpl; lia]. }
  destruct (after_positive _ _ _ Hinit Hn) as (_ & Hcounts & Ht).
  split; [lia|]. apply Forall_forall. intros [k q] Hkq.
  rewrite (sorted_perm _ _ Hsorted) in Hkq.
  apply elem_of_map_to_list in Hkq. by eapply Hcounts.
Qed.

End Positive.

(** X16: In a store that keeps the invariants of the data model, a summary has
    a cooking time that is not negative and lists positive quantities
    only. *)
Theorem summary_positive recipe_store fuel recipe_name data :
  valid_store recipe_store ->
  summary recipe_store fuel recipe_name = Some (Summary_200 data) ->
  0 <= cookTime data /\ Forall (fun p => 0 < p.2) (ingredients data).
Proof.
  intros Hstore (s & n & items & _ & _ & Hl & Hc)%summary_200_inv.
  eapply positive_summary_data; [done | | exact Hc].
  by eapply Hstore.
Qed.

(** *** When the traversal completes *)

Section Completes.
Variable recipe_store : store.

(** A loop that ends normally has found every name within reach in the
    store. *)
Lemma finishes_resolvable root N :
  finishes recipe_store N (initial_state root) -> resolvable recipe_store root.
Proof.
  intros Hfin n items x Hreach Hx.
  assert (exists N' m s c t,
            finishes recipe_store N' (mkState ((Recipe n items, m) :: s) c t))
    as (N' & m & s & c & t & st' & Hafter & Hempty).
  { apply rtc_tc in Hreach as [->|Hreach]; [by eauto 10|].
    destruct (finishes_descend_tc _ _ _ Hreach _ _ _ _ _ Hfin)
      as (N' & m' & s' & c' & t' & _ & Hfin').
    eauto 10. }
  destruct N' as [|N'].
  { simpl in Hafter. injection Hafter as <-. done. }
  rewrite after_cons in Hafter.
  destruct (iteration recipe_store _ m s _) as [st1|] eqn:Hi; [|done].
  apply iteration_recipe_inv in Hi as (l & Hl & _).
  apply list_elem_of_lookup in Hx as [i Hi].
  destruct (Forall2_lookup_l _ _ _ _ _ Hl Hi) as (p & _ & Hres & _). eauto.
Qed.

Lemma finishes_acyclic root N :
  finishes recipe_store N (initial_state root) -> acyclic recipe_store root.
Proof.
  intros Hfin e Hreach Hcyc.
  by apply (cycle_reached_never_finishes _ root e Hreach Hcyc N 1 [] ∅ 0).
Qed.

(** X17: The loop of [calculate_recipe_summary] ends without an exception
    exactly when no recipe within reach requires itself, every required
    name within reach is a key of the store, and the name of every
    ingredient within reach is hashable. *)
Theorem traversal_completes_iff root :
  (exists fuel st,
      while_stack recipe_store fuel (initial_state root) = Some (Ret st)) <->
  acyclic recipe_store root /\ resolvable recipe_store root /\
  hashable_names recipe_store root.
Proof.
  split.
  - intros (fuel & st & (n & Hn & Hempty)%while_stack_ret_finishes).
    assert (finishes recipe_store n (initial_state root)) as Hfin by (by exists st).
    split; [by eapply finishes_acyclic|].
    split; [by eapply finishes_resolvable | by eapply finishes_hashable].
  - intros (Hacyc & Hres & Hhash).
    destruct (acyclic_completes _ root Hacyc Hres Hhash) as (n & keys & cnt & time & He).
    destruct (expands_finishes _ _ _ _ _ _ He) as (st & Hw & _).
    eauto.
Qed.

(** *** Names that are strings *)



End Completes.

(** *** A larger store *)

Section Larger.
Context (store1 store2 : store).
Hypothesis Hsub : store1 ⊆ store2.

Lemma push_required_larger m items stk stk' :
  push_required store1 m items stk = Ret stk' ->
  push_required store2 m items stk = Ret stk'.
Proof.
  revert stk. induction items as [|x items IH]; intros stk; simpl; [done|].
  destruct (hash_key (item_name x)) as [k|]; simpl; [|done].
  destruct (store1 !! k) as [e|] eqn:He; [|done].
  rewrite (lookup_weaken _ _ _ _ He Hsub). apply IH.
Qed.

Lemma iteration_larger e m rest st st' :
  iteration store1 e m rest st = Ret st' -> iteration store2 e m rest st = Ret st'.
Proof.
  destruct e as [n t|n items]; simpl; [done|].
  destruct (push_required store1 m (reverse items) rest) as [stk|] eqn:Hp;
    simpl; [|done].
  by rewrite (push_required_larger _ _ _ _ Hp).
Qed.

Lemma while_stack_larger fuel st st' :
  while_stack store1 fuel st = Some (Ret st') ->
  while_stack store2 fuel st = Some (Ret st').
Proof.
  revert st. induction fuel as [|fuel IH]; intros st; simpl; [done|].
  destruct (stack st) as [|[e m] rest]; [done|].
  destruct (iteration store1 e m rest st) as [st1|] eqn:Hi; [|done].
  rewrite (iteration_larger _ _ _ _ _ Hi). apply IH.
Qed.

Lemma summary_larger fuel recipe_name data :
  summary store1 fuel recipe_name = Some (Summary_200 data) ->
  summary store2 fuel recipe_name = Some (Summary_200 data).
Proof.
  intros (s & n & items & -> & Hs & Hl & Hc)%summary_200_inv.
  apply (summary_200_intro _ _ _ n items); [done | by eapply lookup_weaken |].
  revert Hc. unfold calculate_recipe_summary.
  destruct (while_stack store1 fuel _) as [[st|]|] eqn:Hw; try done.
  by rewrite (while_stack_larger _ _ _ Hw).
Qed.

End Larger.

Lemma create_entry_subseteq {U : UnicodeData} (recipe_store : store) body :
  recipe_store ⊆ (create_entry recipe_store body).1.
Proof.
  destruct (create_entry recipe_store body) as [store' st] eqn:Hc. simpl.
  destruct (create_entry_inv _ _ _ _ Hc) as [[Hst ->]|(ed & k0 & -> & _)]; [done|].
  apply create_entry_ok_inv in Hc
    as (d & raw & k & e & _ & _ & _ & Hnone & _ & _ & ->).
  by apply insert_subseteq.
Qed.

Lemma after_requests_subseteq {U : UnicodeData} (recipe_store : store) bodies :
  recipe_store ⊆ after_requests recipe_store bodies.
Proof.
  revert recipe_store. induction bodies as [|body bodies IH]; intros rs; [done|].
  simpl. etrans; [apply (create_entry_subseteq rs body) | apply IH].
Qed.

(** X19: A summary that has been given stays the same whatever requests add to
    the store afterwards. *)
Theorem summary_survives_requests {U : UnicodeData} (recipe_store : store)
    fuel recipe_name data bodies :
  summary recipe_store fuel recipe_name = Some (Summary_200 data) ->
  summary (after_requests recipe_store bodies) fuel recipe_name
    = Some (Summary_200 data).
Proof. apply summary_larger, after_requests_subseteq. Qed.

(** *** The traversal and the recursive expansion *)

Section Recursive.
Variable recipe_store : store.

Lemma expands_items_sum (timef : RequiredItem -> Z) (cntf : RequiredItem -> pykey -> Z)
    items :
  Forall (fun req_item => exists e n keys,
            resolve recipe_store req_item = Some e /\
            expands_to recipe_store e n keys (cntf req_item) (timef req_item)) items ->
  exists n keys, forall m l rest c t,
    Forall2 (pushed recipe_store m) items l ->
    exists c',
      after recipe_store n (mkState (l ++ rest) c t)
        = Some (mkState rest c'
                  (t + m * foldr (fun x acc => quantity x * timef x + acc) 0 items)) /\
      dom c' = keys ∪ dom c /\
      forall k, counter_get c' k =
                counter_get c k
                + m * foldr (fun x acc => quantity x * cntf x k + acc) 0 items.
Proof.
  induction 1 as [|x items (e & n1 & keys1 & Hres & Hexp) _ (n2 & keys2 & IH)].
  - exists 0%nat, ∅. intros m l rest c t Hl.
    apply Forall2_nil_inv_l in Hl as ->. exists c. split; [|split].
    + simpl. by rewrite Z.mul_0_r, Z.add_0_r.
    + by rewrite (left_id_L ∅ (∪)).
    + intros k. simpl. lia.
  - exists (n1 + n2)%nat, (keys1 ∪ keys2). intros m l rest c t Hl.
    apply Forall2_cons_inv_l in Hl as ([e' m'] & l' & [Hres' Hm'] & Hl' & ->).
    simpl in Hres', Hm'. rewrite Hres in Hres'. injection Hres' as <-. subst m'.
    destruct (Hexp (m * quantity x) (l' ++ rest) c t) as (c1 & Hrun1 & Hd1 & Hc1).
    destruct (IH m l' rest c1 (t + m * quantity x * timef x) Hl')
      as (c2 & Hrun2 & Hd2 & Hc2).
    exists c2. split; [|split].
    + simpl. rewrite (after_add _ _ _ _ _ Hrun1), Hrun2.
      do 2 f_equal. ring.
    + by rewrite Hd2, Hd1, (assoc_L (∪)), (comm_L (∪) keys2 keys1).
    + intros k. rewrite Hc2, Hc1. simpl. ring.
Qed.

Lemma depth_expands_to d e :
  depth_at_most recipe_store hashable d e ->
  exists n keys,
    expands_to recipe_store e n keys
      (expanded_count recipe_store d e) (expanded_time recipe_store d e).
Proof.
  revert e. induction d as [|d IH]; intros [nm ct|nm items] Hd; simpl in Hd.
  - destruct Hd as [k Hk]. exists 1%nat, {[k]}.
    intros m rest c t. destruct (expands_ingredient recipe_store nm ct k Hk m rest c t)
      as (c' & Hrun & Hdom & Hc').
    exists c'. split; [done|]. split; [done|]. intros k'. rewrite Hc'. simpl.
    rewrite Hk. done.
  - done.
  - destruct Hd as [k Hk]. exists 1%nat, {[k]}.
    intros m rest c t. destruct (expands_ingredient recipe_store nm ct k Hk m rest c t)
      as (c' & Hrun & Hdom & Hc').
    exists c'. split; [done|]. split; [done|]. intros k'. rewrite Hc'. simpl.
    rewrite Hk. done.
  - destruct (expands_items_sum
                (fun x => match resolve recipe_store x with
                          | Some e' => expanded_time recipe_store d e'
                          | None => 0
                          end)
                (fun x k => match resolve recipe_store x with
                            | Some e' => expanded_count recipe_store d e' k
                            | None => 0
                            end) items) as (n & keys & Hrun).
    { eapply Forall_impl; [exact Hd|]. intros x (e' & Hres & Hd').
      destruct (IH e' Hd') as (n & keys & He). rewrite Hres. eauto 10. }
    exists (S n), keys. intros m rest c t.
    destruct (pushed_exists recipe_store m items) as [l Hl].
    { eapply Forall_impl; [exact Hd|]. intros x (e' & -> & _). eauto. }
    destruct (Hrun m l rest c t Hl) as (c' & Hafter & Hc').
    exists c'. split; [|done].
    rewrite after_cons, (iteration_recipe _ _ _ _ _ _ _ Hl). exact Hafter.
Qed.

(** X20: The summary is the recursive expansion of the recipe: the nesting of
    the recipe is no deeper than the store has entries, and to every depth
    that covers it the time and the quantities of the summary are those
    that recursion on the composition gives. *)
Theorem summary_is_recursive_expansion fuel root data :
  calculate_recipe_summary recipe_store fuel root = Some (Ret data) ->
  depth_at_most recipe_store hashable (S (size (dom recipe_store))) root /\
  forall d,
    depth_at_most recipe_store hashable d root ->
    cookTime data = expanded_time recipe_store d root /\
    forall k, quantity_in (ingredients data) k = expanded_count recipe_store d root k.
Proof.
  intros (st & Hw & _ & Htime & Hcounts)%calculate_recipe_summary_ret.
  destruct (while_stack_ret_finishes _ _ _ _ Hw) as (n & Hn & Hempty).
  assert (finishes recipe_store n (initial_state root)) as Hfin by (by exists st).
  split.
  { apply acyclic_bounded;
      [by eapply finishes_acyclic | by eapply finishes_resolvable
      | by eapply finishes_hashable]. }
  intros d Hdepth.
  destruct (depth_expands_to _ _ Hdepth) as (n' & keys & He).
  destruct (expands_finishes _ _ _ _ _ _ He) as (st2 & Hw2 & _ & Ht2 & _ & Hc2).
  pose proof (while_stack_deterministic _ _ _ _ _ _ Hw Hw2) as Hsame.
  injection Hsame as <-.
  split; [congruence|]. intros k. by rewrite Hcounts, Hc2.
Qed.

End Recursive.

(** ** The further theorems at work *)

Lemma parse_handwriting_rejects_iff_witness :
  @parse_handwriting basic_latin (u "4-2_ !") = None.
Proof.
  apply (proj2 (@parse_handwriting_rejects_iff basic_latin (u "4-2_ !") eq_refl)).
  vm_compute. repeat constructor.
Defined.

Lemma parse_handwriting_separators_witness :
  @parse_handwriting basic_latin (replace hyphen space (u "egg-yolk_mix"))
    = @parse_handwriting basic_latin (u "egg-yolk_mix").
Proof.
  exact (proj1 (@parse_handwriting_separators basic_latin (u "egg-yolk_mix") eq_refl)).
Defined.

Lemma parse_handwriting_skips_illegible_witness :
  @parse_handwriting basic_latin (List.filter (@legible basic_latin) (u "4-Ste9p"))
    = @parse_handwriting basic_latin (u "4-Ste9p").
Proof.
  exact (@parse_handwriting_skips_illegible basic_latin (u "4-Ste9p") eq_refl).
Defined.

Lemma parse_handwriting_title_case_witness :
  exists words,
    words <> [] /\ Forall (fun w => title_case w = true) words /\
    u "Butter Knife" = join [space] words.
Proof.
  apply (parse_handwriting_title_case basic_latin (u "butter_-KNIFE")
           (u "Butter Knife") basic_latin_compatible).
  - apply Forall_is_ascii. reflexivity.
  - reflexivity.
Defined.

Lemma parse_handwriting_idempotent_witness :
  @parse_handwriting basic_latin (u "Butter Knife") = Some (u "Butter Knife").
Proof.
  apply (parse_handwriting_idempotent basic_latin (u "butter_-KNIFE")
           (u "Butter Knife") basic_latin_compatible).
  - apply Forall_is_ascii. reflexivity.
  - reflexivity.
Defined.

Lemma parse_bad_request_witness :
  @parse basic_latin (JObj []) = Parse_400 /\
  @parse basic_latin (JObj [(u "input", JStr (u "123"))]) = Parse_400.
Proof.
  split.
  - exact (proj2 (@parse_bad_request basic_latin [] eq_refl) I).
  - apply (proj2 (@parse_bad_request basic_latin [(u "input", JStr (u "123"))] eq_refl)).
    vm_compute. repeat constructor.
Defined.

Lemma parse_uncaught_witness :
  @parse basic_latin (JList []) = Parse_uncaught AttributeError /\
  @parse basic_latin (JObj [(u "input", JInt 7)]) = Parse_uncaught AttributeError.
Proof.
  split.
  - exact (proj2 (@parse_uncaught basic_latin (JList []) AttributeError)
             (conj eq_refl I)).
  - exact (proj2 (@parse_uncaught basic_latin (JObj [(u "input", JInt 7)])
                    AttributeError) (conj eq_refl eq_refl)).
Defined.


Lemma create_entry_only_adds_witness :
  size (@create_entry basic_latin ∅ (ingredient_request (u "Egg") 5)).1
    = S (size (∅ : store)).
Proof.
  apply (proj1 (proj2 (@create_entry_only_adds basic_latin ∅
                         (ingredient_request (u "Egg") 5)))).
  vm_compute. reflexivity.
Defined.

Lemma incomplete_body_rejected_witness :
  @create_entry basic_latin ∅ (JStr (u "type and name")) = (∅, Bad_Request_400) /\
  @create_entry basic_latin ∅ (JObj [(u "name", JStr (u "Egg"))])
    = (∅, Bad_Request_400).
Proof.
  split.
  - exact (@incomplete_body_rejected basic_latin ∅ (JStr (u "type and name")) I).
  - apply (@incomplete_body_rejected basic_latin ∅ (JObj [(u "name", JStr (u "Egg"))])).
    left. reflexivity.
Defined.

Lemma invalid_cook_time_rejected_witness :
  @create_entry basic_latin ∅ (ingredient_request (u "Egg") (-1)) = (∅, Bad_Request_400).
Proof.
  exact (@invalid_cook_time_rejected basic_latin ∅
           [(u "type", JStr (u "ingredient")); (u "name", JStr (u "Egg"));
            (u "cookTime", JInt (-1))] eq_refl eq_refl).
Defined.

Lemma malformed_required_items_rejected_witness :
  @create_entry basic_latin ∅ (recipe_request (u "Omelette") [required (u "Egg") 0])
    = (∅, Bad_Request_400).
Proof.
  exact (@malformed_required_items_rejected basic_latin ∅
           [(u "type", JStr (u "recipe")); (u "name", JStr (u "Omelette"));
            (u "requiredItems", JList [required (u "Egg") 0])] eq_refl eq_refl).
Defined.

Lemma create_entry_uncaught_witness :
  @create_entry basic_latin ∅
    (JObj [(u "type", JStr (u "ingredient")); (u "name", JInt 5);
           (u "cookTime", JInt 1)])
    = (∅, Uncaught AttributeError).
Proof.
  apply (proj2 (@create_entry_uncaught basic_latin ∅) _ (JInt 5) (KInt 5) (JInt 1) 1);
    first [reflexivity | apply lookup_empty | intros; discriminate].
Defined.

Lemma summary_ingredients_ascending_witness :
  ascending [(KStr (u "Egg"), 6); (KStr (u "Flour"), 3)] /\
  NoDup [(KStr (u "Egg"), 6); (KStr (u "Flour"), 3)].*1.
Proof.
  apply (summary_ingredients_ascending pancake_store 5 (Some (u "Pancake"))
           (mkSummary (JStr (u "Pancake")) 36
              [(KStr (u "Egg"), 6); (KStr (u "Flour"), 3)])).
  vm_compute. reflexivity.
Defined.

Lemma pancake_store_valid : valid_store pancake_store.
Proof.
  assert (pancake_store =
          @after_requests basic_latin ∅
            [ingredient_request (u "Egg") 5; ingredient_request (u "Flour") 2;
             recipe_request (u "Batter") [required (u "Egg") 2; required (u "Flour") 1];
             recipe_request (u "Pancake") [required (u "Batter") 3]]) as ->
    by (vm_compute; reflexivity).
  apply after_requests_valid. by intros k e ?%lookup_empty_Some.
Qed.

Lemma summary_positive_witness :
  0 <= 36 /\ Forall (fun p : pykey * Z => 0 < p.2)
               [(KStr (u "Egg"), 6); (KStr (u "Flour"), 3)].
Proof.
  apply (summary_positive pancake_store 5 (Some (u "Pancake"))
           (mkSummary (JStr (u "Pancake")) 36
              [(KStr (u "Egg"), 6); (KStr (u "Flour"), 3)]) pancake_store_valid).
  vm_compute. reflexivity.
Defined.

Lemma traversal_completes_iff_witness :
  exists fuel st,
    while_stack pancake_store fuel (initial_state Pancake) = Some (Ret st).
Proof.
  apply (proj2 (traversal_completes_iff pancake_store Pancake)).
  split; [apply pancake_acyclic|].
  split; [apply pancake_resolvable | apply pancake_hashable_names].
Defined.



Lemma summary_survives_requests_witness :
  summary (@after_requests basic_latin pancake_store
             [ingredient_request (u "Milk") 1; recipe_request (u "Egg") []])
    5 (Some (u "Pancake"))
  = Some (Summary_200
            (mkSummary (JStr (u "Pancake")) 36
               [(KStr (u "Egg"), 6); (KStr (u "Flour"), 3)])).
Proof.
  apply (@summary_survives_requests basic_latin pancake_store).
  vm_compute. reflexivity.
Defined.

Lemma summary_is_recursive_expansion_witness :
  expanded_time pancake_store (S (size (dom pancake_store))) Pancake = 36 /\
  expanded_count pancake_store (S (size (dom pancake_store))) Pancake (KStr (u "Egg")) = 6.
Proof.
  destruct (summary_is_recursive_expansion pancake_store 5 Pancake
              (mkSummary (JStr (u "Pancake")) 36
                 [(KStr (u "Egg"), 6); (KStr (u "Flour"), 3)]))
    as [Hdepth Hsum]; [vm_compute; reflexivity|].
  destruct (Hsum _ Hdepth) as [Htime Hcount].
  split; [symmetry; exact Htime | symmetry; exact (Hcount (KStr (u "Egg")))].
Defined.
